(** * hand-snake: a webcam-steered snake game

    Shallow embedding of the motion-to-direction pipeline and of the
    snake simulation, followed by the properties checked against them.

    Source files and the revisions they hold:
    - [src/types.ts]                          -> [Types]
    - [src/utils/visionUtils.ts], lines 1-78  -> [Vision.Plain.detectMotion]
      (centroid taken as [avgX - centerX])
    - [src/utils/visionUtils.ts], lines 79-157 -> [Vision.Mirrored.detectMotion]
      (centroid taken as [centerX - avgX])
    - [src/components/SnakeGame.tsx]          -> [SnakeGame]
      (fixed 150 ms step, score read from React state)
    - [src/utils/visionUtils.ts], lines 607-1105 -> [SnakeGameRef]
      (score-dependent step, score kept in [scoreRef])
    - [src/utils/audioUtils.ts]               -> [Audio]
    - [src/services/liveApiService.ts], [playAudio] -> [LiveService]
    The component text at [visionUtils.ts] lines 157-606 differs from
    [SnakeGame.tsx] in the dead-zone constant (0.2 for 0.3) and in the
    default player name only; the dead zone is a parameter of [Arbiter.steer].

    Numbers.  Grid coordinates, scores, pixel channels, frame
    dimensions and the values of [Date.now()] are integers and are
    modelled in [Z].  The motion vector and the time stamps of the
    animation frames are JavaScript doubles; they are modelled by
    exact rationals [Q], the vector components together with [NaN]
    (type [JsNum.num]); the rounding of double operations is not
    modelled.  [Math.random()] is an input: a rational in [0, 1).
    Strings are modelled by their UTF-8 bytes. *)

From Stdlib Require Import ZArith QArith Qabs Qround List Bool Lia Lqa.
From Stdlib Require Import Permutation Sorted String Ascii.
Import ListNotations.

Open Scope Z_scope.

(* ================================================================= *)
(** * Part I: the program *)

(* ================================================================= *)
(** ** JavaScript numbers of the motion pipeline *)

Module JsNum.

(** A finite double (taken exactly) or NaN.  Every comparison with
    NaN is false, every arithmetic operation on NaN gives NaN. *)
Inductive num := Num (q : Q) | NaN.

Definition Qlt_bool (a b : Q) : bool := negb (Qle_bool b a).

(** [a > b] *)
Definition gtb (a b : num) : bool :=
  match a, b with
  | Num p, Num q => Qlt_bool q p
  | _, _ => false
  end.

(** [a < b] *)
Definition ltb (a b : num) : bool := gtb b a.

(** [Math.abs] *)
Definition abs (a : num) : num :=
  match a with Num p => Num (Qabs p) | NaN => NaN end.

Definition add (a b : num) : num :=
  match a, b with Num p, Num q => Num (p + q) | _, _ => NaN end.

Definition mul (a b : num) : num :=
  match a, b with Num p, Num q => Num (p * q) | _, _ => NaN end.

(** [Math.min] and [Math.max] on finite values. *)
Definition Math_min (a b : Q) : Q := if Qle_bool a b then a else b.
Definition Math_max (a b : Q) : Q := if Qle_bool a b then b else a.

(** [Math.max(-1, Math.min(1, v))] *)
Definition clamp (v : Q) : Q := Math_max (-1) (Math_min 1 v).

End JsNum.

Import JsNum.

(* ================================================================= *)
(** ** src/types.ts *)

Module Types.

Inductive GameState := IDLE | PLAYING | GAME_OVER.

Record Position := mkPos { px : Z; py : Z }.

Record MotionVector := mkMotion { x : num; y : num; intensity : Z }.

Inductive Direction := UP | DOWN | LEFT | RIGHT.

Record ScoreEntry := mkEntry {
  name : string;
  score : Z;
  timestamp : Z
}.

(** [===] on the two enums and on the coordinates of a position. *)
Definition Direction_eqb (a b : Direction) : bool :=
  match a, b with
  | UP, UP | DOWN, DOWN | LEFT, LEFT | RIGHT, RIGHT => true
  | _, _ => false
  end.

Definition GameState_eqb (a b : GameState) : bool :=
  match a, b with
  | IDLE, IDLE | PLAYING, PLAYING | GAME_OVER, GAME_OVER => true
  | _, _ => false
  end.

(** [segment.x === head.x && segment.y === head.y] *)
Definition Position_eqb (a b : Position) : bool :=
  (px a =? px b) && (py a =? py b).

(** The direction a 180 degree turn would give. *)
Definition reverse (d : Direction) : Direction :=
  match d with
  | UP => DOWN
  | DOWN => UP
  | LEFT => RIGHT
  | RIGHT => LEFT
  end.

End Types.

Import Types.

(* ================================================================= *)
(** ** Direction Arbiter: the smoothing and direction block of [loop] *)

Module Arbiter.

(** [smoothed = smoothed * 0.8 + raw * 0.2], one axis, in exact
    arithmetic.  The code rounds both products and the sum to a
    double, so a component can differ from the one here in its last
    binary place: [0.2 * 0.8 + 0.7 * 0.2] is 0.30000000000000004 in
    the code and 3/10 here. *)
Definition smooth (prev raw : num) : num :=
  add (mul prev (Num (8 # 10))) (mul raw (Num (2 # 10))).

(** [SnakeGame.tsx] lines 159-174 (and [visionUtils.ts] 317-333 with
    [THRESHOLD = 0.2]): two guarded assignments in a row on the
    dominant axis; the second guard reads the direction the first
    one may just have written. *)
Definition steer (THRESHOLD : Q) (sx sy : num) (current : Direction) : Direction :=
  if gtb (abs sx) (abs sy) then
    if gtb (abs sx) (Num THRESHOLD) then
      let d1 :=
        if gtb sx (Num 0) && negb (Direction_eqb current LEFT)
        then RIGHT else current in
      if ltb sx (Num 0) && negb (Direction_eqb d1 RIGHT)
      then LEFT else d1
    else current
  else
    if gtb (abs sy) (Num THRESHOLD) then
      let d1 :=
        if gtb sy (Num 0) && negb (Direction_eqb current UP)
        then DOWN else current in
      if ltb sy (Num 0) && negb (Direction_eqb d1 DOWN)
      then UP else d1
    else current.

(** [visionUtils.ts] lines 769-792: a candidate [newDir] is derived
    from the sign and committed unless it is the reverse. *)
Definition steerCandidate (THRESHOLD : Q) (sx sy : num) (current : Direction) : Direction :=
  if gtb (abs sx) (abs sy) then
    if gtb (abs sx) (Num THRESHOLD) then
      let newDir := if gtb sx (Num 0) then RIGHT else LEFT in
      if (Direction_eqb newDir RIGHT && negb (Direction_eqb current LEFT))
         || (Direction_eqb newDir LEFT && negb (Direction_eqb current RIGHT))
      then newDir else current
    else current
  else
    if gtb (abs sy) (Num THRESHOLD) then
      let newDir := if gtb sy (Num 0) then DOWN else UP in
      if (Direction_eqb newDir DOWN && negb (Direction_eqb current UP))
         || (Direction_eqb newDir UP && negb (Direction_eqb current DOWN))
      then newDir else current
    else current.

Definition vertical (d : Direction) : Prop := d = UP \/ d = DOWN.

End Arbiter.

(* ================================================================= *)
(** ** src/utils/visionUtils.ts: the Motion Extractor *)

Module Vision.

(** [imageData.data]: the RGBA bytes of the canvas, row by row. *)
Definition Frame := list Z.

(** [data[i]]; the scan below only reads inside the buffer. *)
Definition byte (d : Frame) (i : Z) : Z := nth (Z.to_nat i) d 0.

(** The values taken by [v] in [for (let v = 0; v < n; v += stride)]. *)
Definition samples (stride n : Z) : list Z :=
  map (fun k => Z.of_nat k * stride)
      (seq 0 (Z.to_nat ((n + stride - 1) / stride))).

(** The sampled pixels in the order the two nested loops visit them
    (outer loop on [y], inner loop on [x]). *)
Definition sampled (stride width height : Z) : list (Z * Z) :=
  flat_map (fun y => map (fun x => (x, y)) (samples stride width))
           (samples stride height).

(** [totalX], [totalY], [changeCount] *)
Record Totals := mkTotals { totalX : Z; totalY : Z; changeCount : Z }.

(** The test of the loop body: the mean of the three channel
    differences exceeds the noise threshold. *)
Definition changed (noise : Q) (data prev : Frame) (width : Z) (p : Z * Z) : bool :=
  let i := (snd p * width + fst p) * 4 in
  let rDiff := Z.abs (byte data i - byte prev i) in
  let gDiff := Z.abs (byte data (i + 1) - byte prev (i + 1)) in
  let bDiff := Z.abs (byte data (i + 2) - byte prev (i + 2)) in
  let diff := (inject_Z (rDiff + gDiff + bDiff) / 3)%Q in
  Qlt_bool noise diff.

(** One iteration of the loop body. *)
Definition visit (noise : Q) (data prev : Frame) (width : Z)
           (t : Totals) (p : Z * Z) : Totals :=
  if changed noise data prev width p
  then mkTotals (totalX t + fst p) (totalY t + snd p) (changeCount t + 1)
  else t.

(** The guarded double loop: nothing is accumulated without a
    previous frame of the same length. *)
Definition scan (stride : Z) (noise : Q) (prevFrame : option Frame)
           (data : Frame) (width height : Z) : Totals :=
  match prevFrame with
  | Some prev =>
      if (List.length prev =? List.length data)%nat
      then fold_left (visit noise data prev width)
                     (sampled stride width height) (mkTotals 0 0 0)
      else mkTotals 0 0 0
  | None => mkTotals 0 0 0
  end.

(** [(width * height) / (stride * stride) * ratio] *)
Definition motionThreshold (stride : Z) (ratio : Q) (width height : Z) : Q :=
  (inject_Z (width * height) / inject_Z (stride * stride) * ratio)%Q.

(** The centroid of the changed pixels on the x axis, and how far
    left of the frame center it lies. *)
Definition centroidX (t : Totals) : Q :=
  (inject_Z (totalX t) / inject_Z (changeCount t))%Q.

Definition displacement (width : Z) (t : Totals) : Q :=
  (inject_Z width / 2 - centroidX t)%Q.

(** Every sampled pixel that changed lies strictly left of the
    horizontal center. *)
Definition leftOfCenter (stride : Z) (noise : Q) (prev data : Frame)
           (width height : Z) : Prop :=
  forall p, In p (sampled stride width height) ->
            changed noise data prev width p = true ->
            2 * fst p < width.

(** Kept by the scan while every changed pixel is left of the
    center: the count is not negative and the sum of the abscissas is
    at most [changeCount * (width - 1) / 2]. *)
Definition leftInvariant (width : Z) (t : Totals) : Prop :=
  0 <= changeCount t /\ 2 * totalX t + changeCount t <= width * changeCount t.

Definition zeroVector : MotionVector := mkMotion (Num 0) (Num 0) 0.

(** What the code returns when it divides 0 by 0: past the threshold
    test with no changed pixel, which needs [width * height <= 0]. *)
Definition nanVector : MotionVector := mkMotion NaN NaN 0.

(** Lines 1-78: stride 4, noise 40, 0.5 percent, sensitivity 0.6,
    [normX = (avgX - centerX) / (centerX * 0.6)].  The function
    returns the vector and the new value of the module variable
    [prevFrame]. *)
Module Plain.

Definition stride : Z := 4.

Definition detectMotion (prevFrame : option Frame) (data : Frame)
           (width height : Z) : MotionVector * option Frame :=
  let t := scan stride 40 prevFrame data width height in
  let prevFrame' := Some data in
  if Qlt_bool (inject_Z (changeCount t))
              (motionThreshold stride (5 # 1000) width height)
  then (zeroVector, prevFrame')
  else if changeCount t =? 0 then (nanVector, prevFrame')
  else
    let avgX := (inject_Z (totalX t) / inject_Z (changeCount t))%Q in
    let avgY := (inject_Z (totalY t) / inject_Z (changeCount t))%Q in
    let centerX := (inject_Z width / 2)%Q in
    let centerY := (inject_Z height / 2)%Q in
    let normX := ((avgX - centerX) / (centerX * (6 # 10)))%Q in
    let normY := ((avgY - centerY) / (centerY * (6 # 10)))%Q in
    (mkMotion (Num (clamp normX)) (Num (clamp normY)) (changeCount t),
     prevFrame').

End Plain.

(** Lines 79-157: stride 8, noise 25, 0.1 percent, sensitivity 0.5,
    [normX = (centerX - avgX) / (centerX * 0.5)]. *)
Module Mirrored.

Definition stride : Z := 8.

Definition detectMotion (prevFrame : option Frame) (data : Frame)
           (width height : Z) : MotionVector * option Frame :=
  let t := scan stride 25 prevFrame data width height in
  let prevFrame' := Some data in
  if Qlt_bool (inject_Z (changeCount t))
              (motionThreshold stride (1 # 1000) width height)
  then (zeroVector, prevFrame')
  else if changeCount t =? 0 then (nanVector, prevFrame')
  else
    let avgX := (inject_Z (totalX t) / inject_Z (changeCount t))%Q in
    let avgY := (inject_Z (totalY t) / inject_Z (changeCount t))%Q in
    let centerX := (inject_Z width / 2)%Q in
    let centerY := (inject_Z height / 2)%Q in
    let normX := ((centerX - avgX) / (centerX * (5 # 10)))%Q in
    let normY := ((avgY - centerY) / (centerY * (5 # 10)))%Q in
    (mkMotion (Num (clamp normX)) (Num (clamp normY)) (changeCount t),
     prevFrame').

End Mirrored.

(** A synthetic frame: [width * height] pixels, opaque, of grey
    level [on] inside the block [bx <= x < bx + bw], [by <= y < by + bh]
    and [off] elsewhere. *)
Definition blockFrame (width height bx by_ bw bh off on : Z) : Frame :=
  flat_map
    (fun k =>
       let px := Z.of_nat k mod width in
       let py := Z.of_nat k / width in
       let v := if (bx <=? px) && (px <? bx + bw) && (by_ <=? py) && (py <? by_ + bh)
                then on else off in
       [v; v; v; 255])
    (seq 0 (Z.to_nat (width * height))).

End Vision.

(* ================================================================= *)
(** ** Leaderboard Store: [saveScore] *)

Module Leaderboard.

(** [Array.prototype.sort] is a stable sort; with the comparator
    [(a, b) => b.score - a.score] it orders by descending score and
    keeps entries of equal score in their former order.  It is
    modelled by the stable insertion sort below: an entry is placed
    after every entry whose score is at least its own. *)
Fixpoint insert (e : ScoreEntry) (l : list ScoreEntry) : list ScoreEntry :=
  match l with
  | [] => [e]
  | h :: t => if score e <=? score h then h :: insert e t else e :: l
  end.

Definition sort (l : list ScoreEntry) : list ScoreEntry :=
  fold_left (fun sorted e => insert e sorted) l [].

(** [playerName || fallback] *)
Definition orElse (playerName fallback : string) : string :=
  if String.eqb playerName EmptyString then fallback else playerName.

(** [[...leaderboard, entry].sort(...).slice(0, 10)]: the list given
    to [setLeaderboard] and written to [localStorage].  [now] is the
    value of [Date.now()]. *)
Definition saveScore (fallback : string) (leaderboard : list ScoreEntry)
           (playerName : string) (finalScore now : Z) : list ScoreEntry :=
  let entry := mkEntry (orElse playerName fallback) finalScore now in
  firstn 10 (sort (leaderboard ++ [entry])).

(** The store after a series of game-overs, each giving a player
    name, a final score and a time stamp. *)
Definition saveAll (fallback : string) (saves : list (string * Z * Z))
           (leaderboard : list ScoreEntry) : list ScoreEntry :=
  fold_left (fun lb s => saveScore fallback lb (fst (fst s)) (snd (fst s)) (snd s))
            saves leaderboard.

Definition entryOf (fallback : string) (s : string * Z * Z) : ScoreEntry :=
  mkEntry (orElse (fst (fst s)) fallback) (snd (fst s)) (snd s).

(** [a] may stand before [b]: its score is at least that of [b]. *)
Definition above (a b : ScoreEntry) : Prop := score b <= score a.

(** Sorted by descending score. *)
Definition descending (l : list ScoreEntry) : Prop := Sorted above l.

End Leaderboard.

(* ================================================================= *)
(** ** The grid and the movement rules of [updateSnake] *)

Module Grid.

Definition INITIAL_SNAKE : list Position := [mkPos 10 10].

(** [window.innerWidth < 640 ? 15 : 30] and [... ? 15 : 20] *)
Definition COLS (innerWidth : Z) : Z := if innerWidth <? 640 then 15 else 30.
Definition ROWS (innerWidth : Z) : Z := if innerWidth <? 640 then 15 else 20.

(** The [switch] on the current direction. *)
Definition move (d : Direction) (head : Position) : Position :=
  match d with
  | UP => mkPos (px head) (py head - 1)
  | DOWN => mkPos (px head) (py head + 1)
  | LEFT => mkPos (px head - 1) (py head)
  | RIGHT => mkPos (px head + 1) (py head)
  end.

(** [head.x < 0 || head.x >= COLS || head.y < 0 || head.y >= ROWS] *)
Definition wallCollision (innerWidth : Z) (head : Position) : bool :=
  (px head <? 0) || (px head >=? COLS innerWidth)
  || (py head <? 0) || (py head >=? ROWS innerWidth).

(** [snakeRef.current.some(segment => ...)] *)
Definition selfCollision (snake : list Position) (head : Position) : bool :=
  existsb (fun segment => Position_eqb segment head) snake.

Definition inside (innerWidth : Z) (p : Position) : Prop :=
  0 <= px p < COLS innerWidth /\ 0 <= py p < ROWS innerWidth.

(** [playerName.trim()] is empty: the name holds nothing but white
    space and line terminators.  A JavaScript string is modelled by
    its UTF-8 bytes, as a string literal is here.  [trim] strips
    U+0009 to U+000D and U+0020 (one byte each), U+00A0 (two bytes)
    and U+1680, U+2000 to U+200A, U+2028, U+2029, U+202F, U+205F,
    U+3000 and U+FEFF (three bytes each). *)
Definition isSpace (c : Ascii.ascii) : bool :=
  let n := Ascii.nat_of_ascii c in
  ((9 <=? n)%nat && (n <=? 13)%nat) || (n =? 32)%nat.

(** The two bytes of U+00A0. *)
Definition isSpace2 (c c1 : Ascii.ascii) : bool :=
  (Ascii.nat_of_ascii c =? 194)%nat && (Ascii.nat_of_ascii c1 =? 160)%nat.

(** The three bytes of a white space character from U+0800 on. *)
Definition isSpace3 (c c1 c2 : Ascii.ascii) : bool :=
  let n := Ascii.nat_of_ascii c in
  let n1 := Ascii.nat_of_ascii c1 in
  let n2 := Ascii.nat_of_ascii c2 in
  ((n =? 225) && (n1 =? 154) && (n2 =? 128))%nat
  || ((n =? 226) && (n1 =? 128)
      && (((128 <=? n2) && (n2 <=? 138)) || (n2 =? 168) || (n2 =? 169) || (n2 =? 175)))%nat
  || ((n =? 226) && (n1 =? 129) && (n2 =? 159))%nat
  || ((n =? 227) && (n1 =? 128) && (n2 =? 128))%nat
  || ((n =? 239) && (n1 =? 187) && (n2 =? 191))%nat.

Fixpoint blank (s : string) : bool :=
  match s with
  | EmptyString => true
  | String c r =>
      if isSpace c then blank r
      else
        match r with
        | EmptyString => false
        | String c1 r1 =>
            if isSpace2 c c1 then blank r1
            else
              match r1 with
              | EmptyString => false
              | String c2 r2 => isSpace3 c c1 c2 && blank r2
              end
        end
  end.

(** The inputs of one animation frame: the time stamp handed to
    [loop], the camera image when the video is ready, the value of
    [Date.now()], the two values [Math.random()] gives if food has to
    be placed, and the value of [window.innerWidth] during the frame. *)
Record Tick := mkTick {
  at_ : Q;
  image : option (list Z);
  clock : Z;
  rx : Q;
  ry : Q;
  width : Z
}.

End Grid.

(* ================================================================= *)
(** ** src/components/SnakeGame.tsx *)

(** The component keeps part of its data in React state ([useState])
    and part in refs.  [loop] is built by [useCallback(..., [gameState])]:
    it is rebuilt only by a render in which [gameState] has changed,
    and [updateSnake], [gameOver] and [saveScore] reached from it are
    those of that render.  So the state they read ([score],
    [playerName], [leaderboard]) is the state of that render, while
    refs and functional updates ([setScore(s => s + 1)]) see the
    current values.  The model keeps both: [hooks] is the current
    React state and [closure] the one [loop] was built with.

    The same holds for the size of the grid: [COLS] and [ROWS] are
    computed from [window.innerWidth] in every render, and the ones
    [updateSnake] tests are those of the render that built [loop].
    [spawnFood] reads [window.innerWidth] anew at each call.  So the
    functions reached from [loop] have two widths: [innerWidth], the
    one of the render that built [loop], and [windowWidth], the one
    of the moment. *)

Module SnakeGame.

Record Hooks := mkHooks {
  gameState : GameState;
  score : Z;
  playerName : string;
  leaderboard : list ScoreEntry
}.

Record Refs := mkRefs {
  snake : list Position;           (* snakeRef *)
  food : Position;                 (* foodRef *)
  direction : Direction;           (* directionRef *)
  lastUpdate : Q;                  (* lastUpdateRef *)
  smoothedVector : num * num       (* smoothedVectorRef *)
}.

Record World := mkWorld {
  hooks : Hooks;
  closure : Hooks;
  refs : Refs;
  prevFrame : option Vision.Frame;        (* module variable of visionUtils *)
  storage : option (list ScoreEntry)      (* localStorage[LEADERBOARD_KEY] *)
}.

Definition INITIAL_SNAKE_SPEED : Z := 150.
Definition THRESHOLD : Q := 3 # 10.

(** State updates of one handler are applied together; the render
    that follows rebuilds [loop] when [gameState] is new. *)
Definition commit (h : Hooks) (w : World) : World :=
  mkWorld h
          (if GameState_eqb (gameState h) (gameState (hooks w))
           then closure w else h)
          (refs w) (prevFrame w) (storage w).

Definition withRefs (r : Refs) (w : World) : World :=
  mkWorld (hooks w) (closure w) r (prevFrame w) (storage w).

(** The component once mounted, the name typed in: [stored] is what
    [localStorage] holds under [LEADERBOARD_KEY], if anything; the
    effect run on mount loads it into [leaderboard]. *)
Definition initialWorld (name : string) (stored : option (list ScoreEntry)) : World :=
  let saved := match stored with Some l => l | None => [] end in
  let h := mkHooks IDLE 0 name saved in
  mkWorld h h
          (mkRefs Grid.INITIAL_SNAKE (mkPos 15 5) RIGHT 0 (Num 0, Num 0))
          None stored.

(** [windowWidth] is [window.innerWidth] at the call; [rx], [ry] are
    the two values of [Math.random()], in [0, 1). *)
Definition spawnFood (windowWidth : Z) (rx ry : Q) : Position :=
  mkPos (Qfloor (rx * inject_Z (if windowWidth <? 600 then 15 else 30)))
        (Qfloor (ry * inject_Z (if windowWidth <? 600 then 15 else 20))).

(** [apiKey]: [process.env.API_KEY] is set. *)
Definition startGame (windowWidth : Z) (apiKey : bool) (rx ry : Q) (w : World) : World :=
  if negb apiKey then w
  else if Grid.blank (playerName (hooks w)) then w
  else
    let h := mkHooks PLAYING 0 (playerName (hooks w)) (leaderboard (hooks w)) in
    let r := mkRefs Grid.INITIAL_SNAKE (spawnFood windowWidth rx ry) RIGHT
                    (lastUpdate (refs w)) (Num 0, Num 0) in
    commit h (withRefs r w).

Section Component.

(** [window.innerWidth] in the render that built [loop]: it sizes
    the [COLS] and [ROWS] of [updateSnake]. *)
Variable innerWidth : Z.
Variable detectMotion :
  option Vision.Frame -> Vision.Frame -> Z -> Z ->
  MotionVector * option Vision.Frame.

(** [gameOver] as reached from [loop]: [score], [playerName] and
    [leaderboard] are those of [closure]. *)
Definition gameOver (now : Z) (w : World) : World :=
  let c := closure w in
  let newLeaderboard :=
    Leaderboard.saveScore "Unknown Pilot" (leaderboard c) (playerName c) (score c) now in
  let h := mkHooks GAME_OVER (score (hooks w)) (playerName (hooks w)) newLeaderboard in
  commit h (mkWorld (hooks w) (closure w) (refs w) (prevFrame w) (Some newLeaderboard)).

(** With an empty snake [head] has no coordinates, every test
    fails and the pushed head is popped again: nothing changes. *)
Definition updateSnake (now windowWidth : Z) (rx ry : Q) (w : World) : World :=
  let r := refs w in
  match snake r with
  | [] => w
  | first :: _ =>
      let head := Grid.move (direction r) first in
      if Grid.wallCollision innerWidth head then gameOver now w
      else if Grid.selfCollision (snake r) head then gameOver now w
      else
        let newSnake := head :: snake r in
        if Position_eqb head (food r) then
          let h := hooks w in
          commit (mkHooks (gameState h) (score h + 1) (playerName h) (leaderboard h))
                 (withRefs (mkRefs newSnake (spawnFood windowWidth rx ry) (direction r)
                                   (lastUpdate r) (smoothedVector r)) w)
        else
          withRefs (mkRefs (removelast newSnake) (food r) (direction r)
                           (lastUpdate r) (smoothedVector r)) w
  end.

(** Part 1 of [loop]: motion detection, smoothing, direction. *)
Definition sense (data : Vision.Frame) (w : World) : World :=
  let (rawVector, prev') := detectMotion (prevFrame w) data 320 240 in
  let r := refs w in
  let sx := Arbiter.smooth (fst (smoothedVector r)) (x rawVector) in
  let sy := Arbiter.smooth (snd (smoothedVector r)) (y rawVector) in
  let d := Arbiter.steer THRESHOLD sx sy (direction r) in
  mkWorld (hooks w) (closure w)
          (mkRefs (snake r) (food r) d (lastUpdate r) (sx, sy))
          prev' (storage w).

(** Part 1 runs when the video is ready ([frame] is its image). *)
Definition perceive (frame : option Vision.Frame) (w : World) : World :=
  match frame with Some data => sense data w | None => w end.

(** [timestamp - lastUpdateRef.current > INITIAL_SNAKE_SPEED] *)
Definition due (timestamp : Q) (w : World) : bool :=
  Qlt_bool (inject_Z INITIAL_SNAKE_SPEED) (timestamp - lastUpdate (refs w)).

Definition setLastUpdate (timestamp : Q) (w : World) : World :=
  let r := refs w in
  withRefs (mkRefs (snake r) (food r) (direction r) timestamp (smoothedVector r)) w.

(** One animation frame.  [frame] is the camera image when the
    video is ready, [now] the value [Date.now()] would give. *)
Definition loop (timestamp : Q) (frame : option Vision.Frame)
           (now windowWidth : Z) (rx ry : Q) (w : World) : World :=
  if negb (GameState_eqb (gameState (closure w)) PLAYING) then w
  else
    let w1 := perceive frame w in
    if due timestamp w1
    then setLastUpdate timestamp (updateSnake now windowWidth rx ry w1)
    else w1.

(** [updateSnake] is about to move the head onto the food. *)
Definition eats (w : World) : bool :=
  let r := refs w in
  match snake r with
  | [] => false
  | first :: _ =>
      let head := Grid.move (direction r) first in
      negb (Grid.wallCollision innerWidth head)
      && negb (Grid.selfCollision (snake r) head)
      && Position_eqb head (food r)
  end.

Definition tick (t : Grid.Tick) (w : World) : World :=
  loop (Grid.at_ t) (Grid.image t) (Grid.clock t) (Grid.width t)
       (Grid.rx t) (Grid.ry t) w.

(** The frame [t] makes the snake eat. *)
Definition tickEats (t : Grid.Tick) (w : World) : bool :=
  GameState_eqb (gameState (closure w)) PLAYING
  && (let w1 := perceive (Grid.image t) w in
      due (Grid.at_ t) w1 && eats w1).

Definition play (ticks : list Grid.Tick) (w : World) : World :=
  fold_left (fun w t => tick t w) ticks w.

(** Food items eaten over a series of frames. *)
Fixpoint eaten (ticks : list Grid.Tick) (w : World) : Z :=
  match ticks with
  | [] => 0
  | t :: rest => (if tickEats t w then 1 else 0) + eaten rest (tick t w)
  end.

End Component.

End SnakeGame.

(* ================================================================= *)
(** ** The component text at visionUtils.ts lines 607-1105 *)

(** Here the score lives in [scoreRef] (the React [score] is for the
    display only), the step shortens with the score, food is kept off
    the border ring, and [startGame] follows a three second countdown
    (not modelled: [startGame] is what the countdown ends with). *)

Module SnakeGameRef.

Definition BASE_SPEED : Z := 250.
Definition SPEED_DECREMENT : Z := 5.
Definition MIN_SPEED : Z := 60.
Definition THRESHOLD : Q := 3 # 10.

Record Hooks := mkHooks {
  gameState : GameState;
  score : Z;
  playerName : string;
  leaderboard : list ScoreEntry
}.

Record Refs := mkRefs {
  snake : list Position;
  food : Position;
  direction : Direction;
  scoreRef : Z;
  lastUpdate : Q;
  smoothedVector : num * num
}.

Record World := mkWorld {
  hooks : Hooks;
  closure : Hooks;
  refs : Refs;
  prevFrame : option Vision.Frame;
  storage : option (list ScoreEntry)
}.

Definition commit (h : Hooks) (w : World) : World :=
  mkWorld h
          (if GameState_eqb (gameState h) (gameState (hooks w))
           then closure w else h)
          (refs w) (prevFrame w) (storage w).

Definition withRefs (r : Refs) (w : World) : World :=
  mkWorld (hooks w) (closure w) r (prevFrame w) (storage w).

Definition initialWorld (name : string) (stored : option (list ScoreEntry)) : World :=
  let saved := match stored with Some l => l | None => [] end in
  let h := mkHooks IDLE 0 name saved in
  mkWorld h h
          (mkRefs Grid.INITIAL_SNAKE (mkPos 15 5) RIGHT 0 0 (Num 0, Num 0))
          None stored.

(** [Math.max(MIN_SPEED, BASE_SPEED - (scoreRef.current * SPEED_DECREMENT))] *)
Definition currentSpeed (s : Z) : Z :=
  Z.max MIN_SPEED (BASE_SPEED - s * SPEED_DECREMENT).

(** [windowWidth] is [window.innerWidth] at the call. *)
Definition spawnFood (windowWidth : Z) (rx ry : Q) : Position :=
  let cols := if windowWidth <? 640 then 15 else 30 in
  let rows := if windowWidth <? 640 then 15 else 20 in
  mkPos (Qfloor (rx * inject_Z (cols - 2)) + 1)
        (Qfloor (ry * inject_Z (rows - 2)) + 1).

Definition startGame (windowWidth : Z) (rx ry : Q) (w : World) : World :=
  let h := mkHooks PLAYING 0 (playerName (hooks w)) (leaderboard (hooks w)) in
  let r := mkRefs Grid.INITIAL_SNAKE (spawnFood windowWidth rx ry) RIGHT 0
                  (lastUpdate (refs w)) (Num 0, Num 0) in
  commit h (withRefs r w).

Section Component.

(** [window.innerWidth] in the render that built [loop]. *)
Variable innerWidth : Z.
Variable detectMotion :
  option Vision.Frame -> Vision.Frame -> Z -> Z ->
  MotionVector * option Vision.Frame.

(** [saveScore(scoreRef.current)]: the score comes from the ref,
    name and leaderboard from the state [loop] was built with. *)
Definition gameOver (now : Z) (w : World) : World :=
  let c := closure w in
  let newLeaderboard :=
    Leaderboard.saveScore "Unknown Pilot" (leaderboard c) (playerName c)
                          (scoreRef (refs w)) now in
  let h := mkHooks GAME_OVER (score (hooks w)) (playerName (hooks w)) newLeaderboard in
  commit h (mkWorld (hooks w) (closure w) (refs w) (prevFrame w) (Some newLeaderboard)).

Definition updateSnake (now windowWidth : Z) (rx ry : Q) (w : World) : World :=
  let r := refs w in
  match snake r with
  | [] => w
  | first :: _ =>
      let head := Grid.move (direction r) first in
      if Grid.wallCollision innerWidth head then gameOver now w
      else if Grid.selfCollision (snake r) head then gameOver now w
      else
        let newSnake := head :: snake r in
        if Position_eqb head (food r) then
          let h := hooks w in
          let s := scoreRef r + 1 in
          commit (mkHooks (gameState h) s (playerName h) (leaderboard h))
                 (withRefs (mkRefs newSnake (spawnFood windowWidth rx ry) (direction r) s
                                   (lastUpdate r) (smoothedVector r)) w)
        else
          withRefs (mkRefs (removelast newSnake) (food r) (direction r)
                           (scoreRef r) (lastUpdate r) (smoothedVector r)) w
  end.

Definition sense (data : Vision.Frame) (w : World) : World :=
  let (rawVector, prev') := detectMotion (prevFrame w) data 320 240 in
  let r := refs w in
  let sx := Arbiter.smooth (fst (smoothedVector r)) (x rawVector) in
  let sy := Arbiter.smooth (snd (smoothedVector r)) (y rawVector) in
  let d := Arbiter.steerCandidate THRESHOLD sx sy (direction r) in
  mkWorld (hooks w) (closure w)
          (mkRefs (snake r) (food r) d (scoreRef r) (lastUpdate r) (sx, sy))
          prev' (storage w).

Definition perceive (frame : option Vision.Frame) (w : World) : World :=
  match frame with Some data => sense data w | None => w end.

(** [timestamp - lastUpdateRef.current > currentSpeed] *)
Definition due (timestamp : Q) (w : World) : bool :=
  Qlt_bool (inject_Z (currentSpeed (scoreRef (refs w))))
           (timestamp - lastUpdate (refs w)).

Definition setLastUpdate (timestamp : Q) (w : World) : World :=
  let r := refs w in
  withRefs (mkRefs (snake r) (food r) (direction r) (scoreRef r)
                   timestamp (smoothedVector r)) w.

Definition loop (timestamp : Q) (frame : option Vision.Frame)
           (now windowWidth : Z) (rx ry : Q) (w : World) : World :=
  if negb (GameState_eqb (gameState (closure w)) PLAYING) then w
  else
    let w1 := perceive frame w in
    if due timestamp w1
    then setLastUpdate timestamp (updateSnake now windowWidth rx ry w1)
    else w1.

(** [updateSnake] is about to move the head onto the food. *)
Definition eats (w : World) : bool :=
  let r := refs w in
  match snake r with
  | [] => false
  | first :: _ =>
      let head := Grid.move (direction r) first in
      negb (Grid.wallCollision innerWidth head)
      && negb (Grid.selfCollision (snake r) head)
      && Position_eqb head (food r)
  end.

Definition tick (t : Grid.Tick) (w : World) : World :=
  loop (Grid.at_ t) (Grid.image t) (Grid.clock t) (Grid.width t)
       (Grid.rx t) (Grid.ry t) w.

(** The frame [t] makes the snake eat. *)
Definition tickEats (t : Grid.Tick) (w : World) : bool :=
  GameState_eqb (gameState (closure w)) PLAYING
  && (let w1 := perceive (Grid.image t) w in
      due (Grid.at_ t) w1 && eats w1).

Definition play (ticks : list Grid.Tick) (w : World) : World :=
  fold_left (fun w t => tick t w) ticks w.

(** Food items eaten over a series of frames. *)
Fixpoint eaten (ticks : list Grid.Tick) (w : World) : Z :=
  match ticks with
  | [] => 0
  | t :: rest => (if tickEats t w then 1 else 0) + eaten rest (tick t w)
  end.

End Component.

End SnakeGameRef.

(* ================================================================= *)
(** ** Shape of the snake body *)

Module Body.

(** Two cells one step apart, as [move] produces them. *)
Definition adjacent (a b : Position) : Prop :=
  Z.abs (px a - px b) + Z.abs (py a - py b) = 1.

(** Every segment is one step from the next one. *)
Fixpoint contiguous (l : list Position) : Prop :=
  match l with
  | a :: t => match t with
              | b :: _ => adjacent a b /\ contiguous t
              | [] => True
              end
  | [] => True
  end.

(** What a run keeps true of the body. *)
Definition wellFormed (innerWidth : Z) (s : list Position) : Prop :=
  s <> [] /\ Forall (Grid.inside innerWidth) s /\ NoDup s /\ contiguous s.

End Body.

(** A run used in examples: twenty frames 300 ms apart on a window
    1024 pixels wide, no camera image, nothing stored, food first at
    (11, 10). *)
Definition sampleTicks : list Grid.Tick :=
  map (fun k => Grid.mkTick (inject_Z (300 * Z.of_nat k)) None (5000 + Z.of_nat k) 0 0 1024)
      (seq 1 20).

Definition sampleStart : SnakeGame.World :=
  SnakeGame.startGame 1024 true (38 # 100) (1 # 2) (SnakeGame.initialWorld "Ada" None).


(* ================================================================= *)
(** ** Where the changed pixels lie *)

Module Motion.

(** Every sampled pixel that changed lies in the box
    [xlo, xhi] x [ylo, yhi]. *)
Definition changedWithin (stride : Z) (noise : Q) (prev data : Vision.Frame)
           (width height xlo xhi ylo yhi : Z) : Prop :=
  forall p, In p (Vision.sampled stride width height) ->
            Vision.changed noise data prev width p = true ->
            xlo <= fst p <= xhi /\ ylo <= snd p <= yhi.

(** The sums of the scan stay in proportion to the box. *)
Definition boxInvariant (xlo xhi ylo yhi : Z) (t : Vision.Totals) : Prop :=
  0 <= Vision.changeCount t /\
  xlo * Vision.changeCount t <= Vision.totalX t <= xhi * Vision.changeCount t /\
  ylo * Vision.changeCount t <= Vision.totalY t <= yhi * Vision.changeCount t.

(** No channel of any byte differs by more than [bound]. *)
Definition quiet (bound : Z) (prev data : Vision.Frame) : Prop :=
  forall i, Z.abs (Vision.byte data i - Vision.byte prev i) <= bound.

(** A vector as the extractor returns it for a frame of positive
    size: two numbers in [-1, 1] and a count of at most [most], which
    is 0 only for the zero vector. *)
Definition inRange (v : MotionVector) (most : Z) : Prop :=
  exists qx qy,
    x v = Num qx /\ y v = Num qy /\
    (-1 <= qx <= 1)%Q /\ (-1 <= qy <= 1)%Q /\
    0 <= intensity v <= most /\
    (intensity v = 0 -> v = Vision.zeroVector).

(** Range of the smoothed vector: two numbers in [-1, 1]. *)
Definition bounded (v : num * num) : Prop :=
  exists a b, v = (Num a, Num b) /\ (-1 <= a <= 1)%Q /\ (-1 <= b <= 1)%Q.

(** The vectors a series of frames gives, the module variable
    [prevFrame] being threaded from call to call. *)
Fixpoint extract
         (detect : option Vision.Frame -> Vision.Frame -> Z -> Z ->
                   MotionVector * option Vision.Frame)
         (prevFrame : option Vision.Frame) (frames : list Vision.Frame)
         (width height : Z) : list MotionVector :=
  match frames with
  | [] => []
  | data :: rest =>
      let r := detect prevFrame data width height in
      fst r :: extract detect (snd r) rest width height
  end.

(** A range for the two components of a reported vector. *)
Record Box := mkBox { fromX : Q; toX : Q; fromY : Q; toY : Q }.



(** A sweep against [d] and against the quarter turn of [aside d],
    at least 0.9 on both axes. *)
Definition back (d : Direction) : Box :=
  match d with
  | RIGHT => mkBox (- 1) (- 9 # 10) (9 # 10) 1
  | LEFT => mkBox (9 # 10) 1 (9 # 10) 1
  | UP => mkBox (9 # 10) 1 (9 # 10) 1
  | DOWN => mkBox (9 # 10) 1 (- 1) (- 9 # 10)
  end.

(** Consecutive pairs of a series: [(f0, f1); (f1, f2); ...]. *)
Fixpoint pairs (first : Vision.Frame) (rest : list Vision.Frame)
  : list (Vision.Frame * Vision.Frame) :=
  match rest with
  | [] => []
  | next :: more => (first, next) :: pairs next more
  end.

End Motion.
(* ================================================================= *)
(** ** src/utils/audioUtils.ts *)

Module Audio.

(** An element of a [Float32Array].  Finite values are taken exactly;
    products of a 32-bit float with 0x8000 or 0x7FFF, and quotients of
    a 16-bit integer by 32768, are exact in double precision. *)
Inductive float := Fin (q : Q) | PosInf | NegInf | NotANumber.

(** [Math.max(-1, Math.min(1, v))]; [None] stands for NaN. *)
Definition clampSample (v : float) : option Q :=
  match v with
  | Fin q => Some (clamp q)
  | PosInf => Some 1%Q
  | NegInf => Some (-1)%Q
  | NotANumber => None
  end.

(** [s < 0 ? s * 0x8000 : s * 0x7FFF] *)
Definition scale (s : Q) : Q :=
  if Qlt_bool s 0 then (s * 32768)%Q else (s * 32767)%Q.

(** Rounding towards zero. *)
Definition truncate (q : Q) : Z :=
  if Qle_bool 0 q then Qfloor q else Qceiling q.

(** The 16-bit two's complement reading of an unsigned 16-bit value. *)
Definition signed16 (u : Z) : Z := if 32768 <=? u then u - 65536 else u.

(** [ToInt16] on an integer: modulo 2^16, then signed. *)
Definition toInt16 (z : Z) : Z := signed16 (z mod 65536).

(** The integer [setInt16] stores for one sample; NaN is stored as 0. *)
Definition pcmValue (v : float) : Z :=
  match clampSample v with
  | Some s => toInt16 (truncate (scale s))
  | None => 0
  end.

(** The two bytes [view.setInt16(i * 2, value, true)] writes. *)
Definition int16Bytes (value : Z) : list Z :=
  let u := value mod 65536 in [u mod 256; u / 256].

(** The bytes of the buffer returned by [floatTo16BitPCM]. *)
Definition floatTo16BitPCM (float32Array : list float) : list Z :=
  flat_map (fun v => int16Bytes (pcmValue v)) float32Array.

(** [new Int16Array(data.buffer)] on a buffer of even length, on a
    little-endian platform. *)
Fixpoint int16s (bytes : list Z) : list Z :=
  match bytes with
  | lo :: hi :: rest => signed16 (lo + 256 * hi) :: int16s rest
  | _ => []
  end.

(** A [Uint8Array]: a view of [byteLength] bytes, [byteOffset] bytes
    into the [ArrayBuffer] it shares. *)
Record Uint8Array := mkView {
  buffer : list Z;
  byteOffset : nat;
  byteLength : nat
}.

(** [new Uint8Array(arrayBuffer)] and [new Uint8Array(len)] once
    filled: the view spans its buffer. *)
Definition whole (bytes : list Z) : Uint8Array :=
  mkView bytes 0 (List.length bytes).

(** The elements [data[0]], [data[1]], ... of the view. *)
Definition elements (data : Uint8Array) : list Z :=
  firstn (byteLength data) (skipn (byteOffset data) (buffer data)).

Record AudioBuffer := mkBuffer {
  sampleRate : Z;
  frames : nat;                      (* buffer.length *)
  channels : list (list Q)           (* getChannelData(0), (1), ... *)
}.

(** [buffer.duration], in seconds. *)
Definition duration (b : AudioBuffer) : Q :=
  (inject_Z (Z.of_nat (frames b)) / inject_Z (sampleRate b))%Q.

Section Decode.

(** The sample rates [createBuffer] accepts depend on the browser. *)
Variable supportedRate : Z -> bool.

(** [decodeAudioData(data, ctx, sampleRate, numChannels)].  The
    samples are read by [new Int16Array(data.buffer)]: from the
    whole buffer under the view, whatever its offset and length.
    [None] stands for a rejected promise: [new Int16Array] throws on
    a buffer of odd length, [createBuffer] throws unless there are 1
    to 32 channels, at least one frame and a supported rate.  The
    frame count handed to [createBuffer] is cut to an integer; the
    loops then fill each channel from the interleaved samples. *)
Definition decodeAudioData (data : Uint8Array) (sampleRate numChannels : Z)
  : option AudioBuffer :=
  if negb (Nat.even (List.length (buffer data))) then None
  else
    let dataInt16 := int16s (buffer data) in
    if (numChannels <? 1) || (32 <? numChannels) then None
    else
      let frameCount := Z.to_nat (Z.of_nat (List.length dataInt16) / numChannels) in
      if (frameCount =? 0)%nat then None
      else if negb (supportedRate sampleRate) then None
      else
        Some (mkBuffer sampleRate frameCount
                (map (fun channel =>
                        map (fun i =>
                               (inject_Z (nth (i * Z.to_nat numChannels + channel)%nat
                                              dataInt16 0%Z)
                                / 32768)%Q)
                            (seq 0 frameCount))
                     (seq 0 (Z.to_nat numChannels)))).

End Decode.

(** [dataUrl.split(',')]: the pieces between commas. *)
Fixpoint splitComma (s : string) : list string :=
  match s with
  | EmptyString => [EmptyString]
  | String c rest =>
      if Ascii.eqb c ","%char then EmptyString :: splitComma rest
      else match splitComma rest with
           | piece :: pieces => String c piece :: pieces
           | [] => [String c EmptyString]
           end
  end.

(** A string without a comma, as the header of a data URL and a
    base64 payload are. *)
Fixpoint noComma (s : string) : bool :=
  match s with
  | EmptyString => true
  | String c rest => negb (Ascii.eqb c ","%char) && noComma rest
  end.

(** What the promise of [blobToBase64] resolves to, given the data
    URL the reader produced: [dataUrl.split(',')[1]], [None] when
    there is no such piece ([undefined]). *)
Definition blobToBase64 (dataUrl : string) : option string :=
  nth_error (splitComma dataUrl) 1.

End Audio.

(* ================================================================= *)
(** ** src/services/liveApiService.ts: playback scheduling *)

Module LiveService.

(** [nextStartTime] and, newest first, the start time and duration
    of every buffer handed to [source.start]. *)
Record Playback := mkPlayback {
  nextStartTime : Q;
  scheduled : list (Q * Q)
}.

Definition initial : Playback := mkPlayback 0 [].

Section PlayAudio.

Variable supportedRate : Z -> bool.

(** [atob]: the bytes a base64 string stands for, [None] when it
    throws.  [decodeBase64] copies them one by one into a new
    [Uint8Array] of their number. *)
Variable atob : string -> option (list Z).

Definition decodeBase64 (base64 : string) : option Audio.Uint8Array :=
  match atob base64 with
  | Some bytes => Some (Audio.whole bytes)
  | None => None
  end.

(** [playAudio(base64String)] called when [audioContext.currentTime]
    is [currentTime].  An exception leaves what was done before it:
    a failing [atob] nothing, a failing [decodeAudioData] the raised
    [nextStartTime].  The part after [await] runs before the next
    message is handled; it reads [nextStartTime] again, so the value
    it starts the buffer at is the one raised just before. *)
Definition playAudio (base64String : string) (currentTime : Q) (p : Playback) : Playback :=
  match decodeBase64 base64String with
  | None => p
  | Some audioData =>
      let start := Math_max (nextStartTime p) currentTime in
      match Audio.decodeAudioData supportedRate audioData 24000 1 with
      | None => mkPlayback start (scheduled p)
      | Some audioBuffer =>
          mkPlayback (start + Audio.duration audioBuffer)%Q
                     ((start, Audio.duration audioBuffer) :: scheduled p)
      end
  end.

(** A series of audio messages, each with the clock at its arrival. *)
Definition playAll (messages : list (string * Q)) (p : Playback) : Playback :=
  fold_left (fun p m => playAudio (fst m) (snd m) p) messages p.

End PlayAudio.

(** Buffers listed newest first do not overlap: each starts at or
    after the end of the one before it. *)
Fixpoint backToBack (l : list (Q * Q)) : Prop :=
  match l with
  | later :: rest =>
      match rest with
      | earlier :: _ => (fst earlier + snd earlier <= fst later)%Q /\ backToBack rest
      | [] => True
      end
  | [] => True
  end.

End LiveService.

(* ================================================================= *)
(** * Part II: properties *)

(* ================================================================= *)
(** ** Comparisons and clamping *)

Module NumFacts.

Lemma Qlt_bool_iff a b : Qlt_bool a b = true <-> (a < b)%Q.
Proof.
  unfold Qlt_bool. rewrite negb_true_iff.
  destruct (Qle_bool b a) eqn:E.
  - apply Qle_bool_iff in E. split; [discriminate | intros H; exfalso; lra].
  - split; [intros _ | reflexivity].
    apply Qnot_le_lt. intros H. apply Qle_bool_iff in H. congruence.
Qed.

Lemma Qlt_bool_false a b : Qlt_bool a b = false <-> (b <= a)%Q.
Proof.
  unfold Qlt_bool. rewrite negb_false_iff. apply Qle_bool_iff.
Qed.

Lemma gtb_Num p q : gtb (Num p) (Num q) = true <-> (q < p)%Q.
Proof. apply Qlt_bool_iff. Qed.

Lemma clamp_sat_hi v : (1 <= v)%Q -> clamp v = 1%Q.
Proof.
  intros H. unfold clamp, Math_max, Math_min.
  apply Qle_bool_iff in H. rewrite H. reflexivity.
Qed.

Lemma clamp_inside v : (-1 <= v)%Q -> (v < 1)%Q -> clamp v = v.
Proof.
  intros H1 H2. unfold clamp, Math_max, Math_min.
  destruct (Qle_bool 1 v) eqn:E.
  - apply Qle_bool_iff in E. exfalso; lra.
  - apply Qle_bool_iff in H1. rewrite H1. reflexivity.
Qed.

Lemma clamp_sat_lo v : (v < -1)%Q -> clamp v = (-1)%Q.
Proof.
  intros H. unfold clamp, Math_max, Math_min.
  destruct (Qle_bool 1 v) eqn:E.
  - apply Qle_bool_iff in E. exfalso; lra.
  - destruct (Qle_bool (-1) v) eqn:E2; [| reflexivity].
    apply Qle_bool_iff in E2. exfalso; lra.
Qed.

Lemma clamp_range v : (-1 <= clamp v <= 1)%Q.
Proof.
  destruct (Qlt_le_dec v (-1)) as [L | L].
  - rewrite (clamp_sat_lo _ L). lra.
  - destruct (Qlt_le_dec v 1) as [U | U].
    + rewrite (clamp_inside _ L U). lra.
    + rewrite (clamp_sat_hi _ U). lra.
Qed.

Lemma clamp_mono v w : (v <= w)%Q -> (clamp v <= clamp w)%Q.
Proof.
  intros H.
  destruct (Qlt_le_dec v (-1)) as [L | L].
  - rewrite (clamp_sat_lo _ L). apply clamp_range.
  - destruct (Qlt_le_dec w 1) as [U | U].
    + rewrite (clamp_inside v), (clamp_inside w); lra.
    + rewrite (clamp_sat_hi _ U). apply clamp_range.
Qed.

Lemma clamp_pos v : (0 < v)%Q -> (0 < clamp v)%Q.
Proof.
  intros H. destruct (Qlt_le_dec v 1) as [U | U].
  - rewrite clamp_inside; lra.
  - rewrite (clamp_sat_hi _ U). lra.
Qed.

Lemma clamp_neg v : (v < 0)%Q -> (clamp v < 0)%Q.
Proof.
  intros H. destruct (Qlt_le_dec v (-1)) as [L | L].
  - rewrite (clamp_sat_lo _ L). lra.
  - rewrite clamp_inside; lra.
Qed.

End NumFacts.

(* ================================================================= *)
(** ** Direction Arbiter *)

Module ArbiterFacts.

Import Arbiter NumFacts.

(** On an exact tie the horizontal test [|x| > |y|] fails. *)
Lemma tie_not_horizontal qx qy :
  (Qabs qx == Qabs qy)%Q -> gtb (abs (Num qx)) (abs (Num qy)) = false.
Proof.
  intros E. simpl. apply Qlt_bool_false. rewrite E. apply Qle_refl.
Qed.

Lemma steer_vertical_branch T sx sy d :
  gtb (abs sx) (abs sy) = false ->
  steer T sx sy d = d \/ vertical (steer T sx sy d).
Proof.
  intros H. unfold steer, vertical. rewrite H.
  destruct (gtb (abs sy) (Num T)); [| auto].
  destruct (gtb sy (Num 0)), (ltb sy (Num 0)), d; simpl; auto.
Qed.

Lemma steerCandidate_vertical_branch T sx sy d :
  gtb (abs sx) (abs sy) = false ->
  steerCandidate T sx sy d = d \/ vertical (steerCandidate T sx sy d).
Proof.
  intros H. unfold steerCandidate, vertical. rewrite H.
  destruct (gtb (abs sy) (Num T)); [| auto].
  destruct (gtb sy (Num 0)), d; simpl; auto.
Qed.

Lemma positive_not_negative q : (0 < q)%Q -> ltb (Num q) (Num 0) = false.
Proof. intros H. unfold ltb. simpl. apply Qlt_bool_false. lra. Qed.

Lemma negative_not_positive q : (q < 0)%Q -> gtb (Num q) (Num 0) = false.
Proof. intros H. simpl. apply Qlt_bool_false. lra. Qed.

Lemma positive_gt q : (0 < q)%Q -> gtb (Num q) (Num 0) = true.
Proof. intros H. apply gtb_Num. exact H. Qed.

Lemma negative_lt q : (q < 0)%Q -> ltb (Num q) (Num 0) = true.
Proof. intros H. unfold ltb. apply gtb_Num. exact H. Qed.

Lemma beyond_dead_zone T q : (T < Qabs q)%Q -> gtb (abs (Num q)) (Num T) = true.
Proof. intros H. apply gtb_Num. exact H. Qed.

Lemma within_dead_zone T q : (Qabs q <= T)%Q -> gtb (abs (Num q)) (Num T) = false.
Proof. intros H. simpl. apply Qlt_bool_false. exact H. Qed.

End ArbiterFacts.

(** C5.  For every smoothed vector (NaN components included), every
    dead-zone constant and every current direction, one arbitration
    step never yields the reverse of the current direction: the
    direction is unchanged or turned by a quarter.  This holds for the
    two guarded assignments of [SnakeGame.tsx], for the candidate form
    of the later text, and for the [sense] step of both components
    whatever the motion extractor returns. *)
Theorem arbiter_never_reverses :
  (forall T sx sy d, Arbiter.steer T sx sy d <> reverse d) /\
  (forall T sx sy d, Arbiter.steerCandidate T sx sy d <> reverse d) /\
  (forall detect data w,
      SnakeGame.direction (SnakeGame.refs (SnakeGame.sense detect data w))
      <> reverse (SnakeGame.direction (SnakeGame.refs w))) /\
  (forall detect data w,
      SnakeGameRef.direction (SnakeGameRef.refs (SnakeGameRef.sense detect data w))
      <> reverse (SnakeGameRef.direction (SnakeGameRef.refs w))).
Proof.
  assert (A : forall T sx sy d, Arbiter.steer T sx sy d <> reverse d).
  { intros T sx sy d. unfold Arbiter.steer.
    destruct (gtb (abs sx) (abs sy)).
    - destruct (gtb (abs sx) (Num T)); [| destruct d; discriminate].
      destruct (gtb sx (Num 0)), (ltb sx (Num 0)), d; simpl; discriminate.
    - destruct (gtb (abs sy) (Num T)); [| destruct d; discriminate].
      destruct (gtb sy (Num 0)), (ltb sy (Num 0)), d; simpl; discriminate. }
  assert (B : forall T sx sy d, Arbiter.steerCandidate T sx sy d <> reverse d).
  { intros T sx sy d. unfold Arbiter.steerCandidate.
    destruct (gtb (abs sx) (abs sy)).
    - destruct (gtb (abs sx) (Num T)); [| destruct d; discriminate].
      destruct (gtb sx (Num 0)), d; simpl; discriminate.
    - destruct (gtb (abs sy) (Num T)); [| destruct d; discriminate].
      destruct (gtb sy (Num 0)), d; simpl; discriminate. }
  repeat split; auto.
  - intros detect data w. unfold SnakeGame.sense.
    destruct (detect (SnakeGame.prevFrame w) data 320 240) as [raw prev']. simpl.
    apply A.
  - intros detect data w. unfold SnakeGameRef.sense.
    destruct (detect (SnakeGameRef.prevFrame w) data 320 240) as [raw prev']. simpl.
    apply B.
Qed.

(** C10.  When the two axes of the smoothed vector tie in absolute
    value the horizontal branch is not taken: the direction stays as
    it is or becomes UP or DOWN, exactly as the vertical branch
    decides (DOWN for a positive y beyond the dead zone unless the
    snake heads UP, UP for a negative one unless it heads DOWN), so
    LEFT or RIGHT is never newly selected. *)
Theorem tie_goes_vertical (T qx qy : Q) (d : Direction) :
  (Qabs qx == Qabs qy)%Q ->
  let d1 := Arbiter.steer T (Num qx) (Num qy) d in
  let d2 := Arbiter.steerCandidate T (Num qx) (Num qy) d in
  (d1 = d \/ d1 = UP \/ d1 = DOWN) /\
  (d2 = d \/ d2 = UP \/ d2 = DOWN) /\
  ((T < Qabs qy)%Q -> (0 < qy)%Q -> d <> UP -> d1 = DOWN /\ d2 = DOWN) /\
  ((T < Qabs qy)%Q -> (qy < 0)%Q -> d <> DOWN -> d1 = UP /\ d2 = UP) /\
  ((Qabs qy <= T)%Q -> d1 = d /\ d2 = d).
Proof.
  intros E d1 d2.
  pose proof (ArbiterFacts.tie_not_horizontal qx qy E) as H.
  split; [exact (ArbiterFacts.steer_vertical_branch T _ _ d H) |].
  split; [exact (ArbiterFacts.steerCandidate_vertical_branch T _ _ d H) |].
  subst d1 d2. unfold Arbiter.steer, Arbiter.steerCandidate. rewrite H.
  split; [| split].
  - intros HT Hy Hd.
    rewrite (ArbiterFacts.beyond_dead_zone _ _ HT),
            (ArbiterFacts.positive_gt _ Hy),
            (ArbiterFacts.positive_not_negative _ Hy).
    destruct d; simpl; split; congruence.
  - intros HT Hy Hd.
    rewrite (ArbiterFacts.beyond_dead_zone _ _ HT),
            (ArbiterFacts.negative_lt _ Hy),
            (ArbiterFacts.negative_not_positive _ Hy).
    destruct d; simpl; split; congruence.
  - intros HT. rewrite (ArbiterFacts.within_dead_zone _ _ HT). split; reflexivity.
Qed.

(** A tie at one half, heading RIGHT, dead zone 0.3, y negative: the
    snake turns UP. *)
Lemma tie_goes_vertical_witness :
  Arbiter.steer (3 # 10) (Num (1 # 2)) (Num (- 1 # 2)) RIGHT = UP.
Proof.
  assert (E : (Qabs (1 # 2) == Qabs (- 1 # 2))%Q) by reflexivity.
  destruct (tie_goes_vertical (3 # 10) (1 # 2) (- 1 # 2) RIGHT E)
    as (_ & _ & _ & H & _).
  apply H; [reflexivity | reflexivity | discriminate].
Defined.

(* ================================================================= *)
(** ** Motion Extractor *)

Module VisionFacts.

Import Vision NumFacts.

Lemma changed_same noise data width p :
  (0 <= noise)%Q -> changed noise data data width p = false.
Proof.
  intros H. unfold changed. rewrite !Z.sub_diag. simpl Z.abs.
  apply Qlt_bool_false. simpl. eapply Qle_trans; [| exact H].
  unfold Qle; simpl; lia.
Qed.

Lemma fold_visit_same noise data width l t :
  (0 <= noise)%Q -> fold_left (visit noise data data width) l t = t.
Proof.
  intros H. revert t. induction l as [| p l IH]; intros t; simpl.
  - reflexivity.
  - unfold visit at 2. rewrite (changed_same _ _ _ _ H). apply IH.
Qed.

Lemma scan_same stride noise data width height :
  (0 <= noise)%Q ->
  scan stride noise (Some data) data width height = mkTotals 0 0 0.
Proof.
  intros H. unfold scan. rewrite Nat.eqb_refl. apply fold_visit_same, H.
Qed.

Lemma motionThreshold_pos stride ratio width height :
  0 < stride -> (0 < ratio)%Q -> 0 < width -> 0 < height ->
  (0 < motionThreshold stride ratio width height)%Q.
Proof.
  intros Hs Hr Hw Hh. unfold motionThreshold.
  apply Qmult_lt_0_compat; [| exact Hr].
  apply Qlt_shift_div_l.
  - change 0%Q with (inject_Z 0). rewrite <- Zlt_Qlt. nia.
  - rewrite Qmult_0_l. change 0%Q with (inject_Z 0). rewrite <- Zlt_Qlt. nia.
Qed.

Lemma fold_visit_left noise data prev width l :
  (forall p, In p l -> changed noise data prev width p = true -> 2 * fst p < width) ->
  forall t, leftInvariant width t ->
            leftInvariant width (fold_left (visit noise data prev width) l t).
Proof.
  induction l as [| p l IH]; intros Hl t Ht; simpl.
  - exact Ht.
  - apply IH.
    + intros q Hq. apply Hl. right. exact Hq.
    + unfold visit. destruct (changed noise data prev width p) eqn:E.
      * specialize (Hl p (or_introl eq_refl) E).
        destruct Ht as [H0 H1]. unfold leftInvariant.
        cbn [totalX changeCount]. split; nia.
      * exact Ht.
Qed.

Lemma scan_left stride noise prev data width height :
  leftOfCenter stride noise prev data width height ->
  leftInvariant width (scan stride noise (Some prev) data width height).
Proof.
  intros H. unfold scan.
  destruct (List.length prev =? List.length data)%nat.
  - apply fold_visit_left; [exact H |].
    unfold leftInvariant; cbn [totalX changeCount]; lia.
  - unfold leftInvariant; cbn [totalX changeCount]; lia.
Qed.

(** Past the threshold test of a frame of positive size at least one
    pixel has changed, so the centroid is a true quotient. *)
Lemma threshold_reached_count stride ratio width height t :
  0 < stride -> (0 < ratio)%Q -> 0 < width -> 0 < height ->
  (motionThreshold stride ratio width height <= inject_Z (changeCount t))%Q ->
  0 < changeCount t.
Proof.
  intros Hs Hr Hw Hh H.
  pose proof (motionThreshold_pos stride ratio width height Hs Hr Hw Hh) as P.
  rewrite Zlt_Qlt. change (inject_Z 0) with 0%Q. lra.
Qed.

Lemma centroid_left width t :
  0 < changeCount t -> leftInvariant width t ->
  (1 # 2 <= displacement width t)%Q.
Proof.
  intros Hc [_ H]. unfold displacement, centroidX.
  assert (C : (0 < inject_Z (changeCount t))%Q).
  { change 0%Q with (inject_Z 0). rewrite <- Zlt_Qlt. exact Hc. }
  assert (E : (inject_Z (totalX t) / inject_Z (changeCount t)
               <= (inject_Z width - 1) * (1 # 2))%Q).
  { apply Qle_shift_div_r; [exact C |].
    assert (Hq : (2 * inject_Z (totalX t) + inject_Z (changeCount t)
                  <= inject_Z width * inject_Z (changeCount t))%Q).
    { change 2%Q with (inject_Z 2).
      rewrite <- !inject_Z_mult, <- inject_Z_plus, <- Zle_Qle. exact H. }
    lra. }
  unfold Qdiv at 1. change (/ 2)%Q with (1 # 2)%Q. lra.
Qed.

Lemma half_width_pos width (k : Q) :
  0 < width -> (0 < k)%Q -> (0 < inject_Z width / 2 * k)%Q.
Proof.
  intros Hw Hk. apply Qmult_lt_0_compat; [| exact Hk].
  assert (W : (0 < inject_Z width)%Q).
  { change 0%Q with (inject_Z 0). rewrite <- Zlt_Qlt. exact Hw. }
  unfold Qdiv. change (/ 2)%Q with (1 # 2)%Q. lra.
Qed.

Lemma Qdiv_le_mono (a b c : Q) : (0 < c)%Q -> (a <= b)%Q -> (a / c <= b / c)%Q.
Proof.
  intros Hc H. unfold Qdiv. apply Qmult_le_compat_r; [exact H |].
  apply Qlt_le_weak, Qinv_lt_0_compat, Hc.
Qed.

Section Pair.

Variables (prev data : Frame) (width height : Z).
Hypothesis Hw : 0 < width.
Hypothesis Hh : 0 < height.

(** What the mirrored text returns for x once the threshold is
    reached: the displacement of the centroid to the left of the
    center, divided by a quarter of the width, clamped. *)
Lemma mirrored_x :
  let t := scan Mirrored.stride 25 (Some prev) data width height in
  (motionThreshold Mirrored.stride (1 # 1000) width height
   <= inject_Z (changeCount t))%Q ->
  x (fst (Mirrored.detectMotion (Some prev) data width height))
  = Num (clamp (displacement width t / (inject_Z width / 2 * (5 # 10)))).
Proof.
  intros t H. unfold Mirrored.detectMotion. fold t.
  assert (C : 0 < changeCount t).
  { apply (threshold_reached_count Mirrored.stride (1 # 1000) width height);
      try assumption; reflexivity. }
  apply Qlt_bool_false in H. rewrite H.
  destruct (changeCount t =? 0) eqn:E; [apply Z.eqb_eq in E; lia |].
  reflexivity.
Qed.

(** The same for the plain text: the sign is the other one and the
    divisor is 0.6 of the half width. *)
Lemma plain_x :
  let t := scan Plain.stride 40 (Some prev) data width height in
  (motionThreshold Plain.stride (5 # 1000) width height
   <= inject_Z (changeCount t))%Q ->
  x (fst (Plain.detectMotion (Some prev) data width height))
  = Num (clamp ((centroidX t - inject_Z width / 2) / (inject_Z width / 2 * (6 # 10)))).
Proof.
  intros t H. unfold Plain.detectMotion. fold t.
  assert (C : 0 < changeCount t).
  { apply (threshold_reached_count Plain.stride (5 # 1000) width height);
      try assumption; reflexivity. }
  apply Qlt_bool_false in H. rewrite H.
  destruct (changeCount t =? 0) eqn:E; [apply Z.eqb_eq in E; lia |].
  reflexivity.
Qed.

End Pair.

(** *** Synthetic frames *)

Lemma samples_range stride n v :
  0 < stride -> In v (samples stride n) -> 0 <= v < n.
Proof.
  intros Hs H. unfold samples in H. apply in_map_iff in H.
  destruct H as [k [<- Hk]]. apply in_seq in Hk.
  assert (K : Z.of_nat k < (n + stride - 1) / stride) by lia.
  pose proof (Z.mul_div_le (n + stride - 1) stride Hs). nia.
Qed.

Lemma sampled_range stride width height p :
  0 < stride -> In p (sampled stride width height) ->
  0 <= fst p < width /\ 0 <= snd p < height.
Proof.
  intros Hs H. unfold sampled in H. apply in_flat_map in H.
  destruct H as [v [Hv H]]. apply in_map_iff in H. destruct H as [u [<- Hu]].
  cbn [fst snd]. split; eapply samples_range; eassumption.
Qed.

(** Reading channel [c] of pixel [k] in a buffer built pixel by pixel. *)
Lemma nth_pixels (f : nat -> Z) (n s k c : nat) :
  (k < n)%nat -> (c < 3)%nat ->
  nth (4 * k + c) (flat_map (fun j => [f j; f j; f j; 255]) (seq s n)) 0 = f (s + k)%nat.
Proof.
  revert s k. induction n as [| n IH]; intros s k Hk Hc; [lia |].
  destruct k as [| k].
  - rewrite Nat.add_0_r. cbn [seq flat_map app Nat.mul Nat.add].
    destruct c as [| [| [| c]]]; try lia; reflexivity.
  - replace (4 * S k + c)%nat with (S (S (S (S (4 * k + c))))) by lia.
    cbn [seq flat_map app nth]. rewrite IH by lia. f_equal. lia.
Qed.

Lemma byte_blockFrame width height bx by_ bw bh off on u v c :
  0 <= u < width -> 0 <= v < height -> 0 <= c < 3 ->
  byte (blockFrame width height bx by_ bw bh off on) ((v * width + u) * 4 + c)
  = if (bx <=? u) && (u <? bx + bw) && (by_ <=? v) && (v <? by_ + bh)
    then on else off.
Proof.
  intros Hu Hv Hc. unfold byte, blockFrame.
  replace (Z.to_nat ((v * width + u) * 4 + c))
    with (4 * Z.to_nat (v * width + u) + Z.to_nat c)%nat by nia.
  rewrite (nth_pixels
             (fun k => if (bx <=? Z.of_nat k mod width) && (Z.of_nat k mod width <? bx + bw)
                          && (by_ <=? Z.of_nat k / width) && (Z.of_nat k / width <? by_ + bh)
                       then on else off)) by nia.
  cbn [Nat.add]. rewrite Z2Nat.id by nia.
  rewrite Z.add_comm, Z.mod_add, Z.div_add, Z.mod_small, Z.div_small by lia.
  rewrite Z.add_0_l. reflexivity.
Qed.

Lemma byte_blockFrame_red width height bx by_ bw bh off on u v :
  0 <= u < width -> 0 <= v < height ->
  byte (blockFrame width height bx by_ bw bh off on) ((v * width + u) * 4)
  = if (bx <=? u) && (u <? bx + bw) && (by_ <=? v) && (v <? by_ + bh)
    then on else off.
Proof.
  intros Hu Hv. rewrite <- (Z.add_0_r ((v * width + u) * 4)).
  apply byte_blockFrame; lia.
Qed.

(** A lit block on a dark frame that ends at or before the center
    column changes sampled pixels left of the center only. *)
Lemma block_leftOfCenter stride noise width height bx by_ bw bh off on :
  0 < stride -> (0 <= noise)%Q -> 2 * (bx + bw) <= width ->
  leftOfCenter stride noise
    (blockFrame width height 0 0 0 0 off off)
    (blockFrame width height bx by_ bw bh off on) width height.
Proof.
  intros Hs Hn Hb [u v] Hp Hc.
  destruct (sampled_range stride width height (u, v) Hs Hp) as [Hu Hv].
  cbn [fst snd] in *. unfold changed in Hc. cbn [fst snd] in Hc.
  rewrite (byte_blockFrame_red width height bx by_ bw bh off on u v) in Hc by lia.
  rewrite (byte_blockFrame width height bx by_ bw bh off on u v 1) in Hc by lia.
  rewrite (byte_blockFrame width height bx by_ bw bh off on u v 2) in Hc by lia.
  rewrite (byte_blockFrame_red width height 0 0 0 0 off off u v) in Hc by lia.
  rewrite (byte_blockFrame width height 0 0 0 0 off off u v 1) in Hc by lia.
  rewrite (byte_blockFrame width height 0 0 0 0 off off u v 2) in Hc by lia.
  destruct ((bx <=? u) && (u <? bx + bw) && (by_ <=? v) && (v <? by_ + bh)) eqn:E.
  - rewrite !andb_true_iff in E. destruct E as [[[_ E] _] _].
    apply Z.ltb_lt in E. lia.
  - exfalso.
    replace (if (0 <=? u) && (u <? 0 + 0) && (0 <=? v) && (v <? 0 + 0) then off else off)
      with off in Hc by (destruct ((0 <=? u) && (u <? 0 + 0) && (0 <=? v) && (v <? 0 + 0));
                         reflexivity).
    rewrite Z.sub_diag in Hc. cbn [Z.abs Z.add] in Hc.
    apply Qlt_bool_iff in Hc. cbn in Hc. unfold Qdiv in Hc.
    change (inject_Z 0 * / 3)%Q with (0 # 3)%Q in Hc.
    assert (Z0 : (0 # 3 == 0)%Q) by reflexivity. rewrite Z0 in Hc. lra.
Qed.

End VisionFacts.



(** C7.  For a frame of positive width and height, the extractor
    returns the vector (0, 0) with intensity 0 when the frame equals
    the previous one, and also on a first call, when there is no
    previous frame; both texts of [detectMotion] agree on this. *)
Theorem still_frames_give_zero_vector (data : Vision.Frame) (width height : Z) :
  0 < width -> 0 < height ->
  fst (Vision.Plain.detectMotion (Some data) data width height) = mkMotion (Num 0) (Num 0) 0 /\
  fst (Vision.Plain.detectMotion None data width height) = mkMotion (Num 0) (Num 0) 0 /\
  fst (Vision.Mirrored.detectMotion (Some data) data width height) = mkMotion (Num 0) (Num 0) 0 /\
  fst (Vision.Mirrored.detectMotion None data width height) = mkMotion (Num 0) (Num 0) 0.
Proof.
  intros Hw Hh.
  assert (P : forall stride ratio, 0 < stride -> (0 < ratio)%Q ->
            Qlt_bool (inject_Z 0) (Vision.motionThreshold stride ratio width height) = true).
  { intros stride ratio Hs Hr. apply NumFacts.Qlt_bool_iff.
    apply VisionFacts.motionThreshold_pos; assumption. }
  unfold Vision.Plain.detectMotion, Vision.Mirrored.detectMotion.
  rewrite !VisionFacts.scan_same by (unfold Qle; simpl; lia).
  simpl Vision.scan. simpl Vision.changeCount.
  rewrite !P by (reflexivity || (unfold Vision.Plain.stride, Vision.Mirrored.stride; lia)).
  repeat split; reflexivity.
Qed.

(** A 32 by 16 frame shown twice, and shown first. *)
Lemma still_frames_give_zero_vector_witness :
  fst (Vision.Mirrored.detectMotion
         (Some (Vision.blockFrame 32 16 0 0 8 8 0 255))
         (Vision.blockFrame 32 16 0 0 8 8 0 255) 32 16)
  = mkMotion (Num 0) (Num 0) 0.
Proof.
  assert (Hw : 0 < 32) by lia.
  assert (Hh : 0 < 16) by lia.
  exact (proj1 (proj2 (proj2
           (still_frames_give_zero_vector
              (Vision.blockFrame 32 16 0 0 8 8 0 255) 32 16 Hw Hh)))).
Defined.


(** The mirror-correction law holds for the text of [detectMotion] at
    lines 79-157.  For a pair of frames of positive size whose changed
    pixels all lie strictly left of the horizontal center and reach
    the relative threshold: x is a number in (0, 1]; it is 1 as soon
    as the centroid lies a quarter of the width or more left of the
    center; and of two such pairs of the same width, the one whose
    centroid is further left has the larger or equal x. *)
Lemma mirrored_text_obeys_mirror_law (prev data : Vision.Frame) (width height : Z) :
  0 < width -> 0 < height ->
  Vision.leftOfCenter Vision.Mirrored.stride 25 prev data width height ->
  let t := Vision.scan Vision.Mirrored.stride 25 (Some prev) data width height in
  (Vision.motionThreshold Vision.Mirrored.stride (1 # 1000) width height
   <= inject_Z (Vision.changeCount t))%Q ->
  exists q,
    x (fst (Vision.Mirrored.detectMotion (Some prev) data width height)) = Num q /\
    (0 < q)%Q /\ (q <= 1)%Q /\
    ((inject_Z width / 2 * (5 # 10) <= Vision.displacement width t)%Q -> q = 1%Q) /\
    (forall prev' data' height',
        0 < height' ->
        let t' := Vision.scan Vision.Mirrored.stride 25 (Some prev') data' width height' in
        (Vision.motionThreshold Vision.Mirrored.stride (1 # 1000) width height'
         <= inject_Z (Vision.changeCount t'))%Q ->
        (Vision.displacement width t <= Vision.displacement width t')%Q ->
        exists q',
          x (fst (Vision.Mirrored.detectMotion (Some prev') data' width height')) = Num q' /\
          (q <= q')%Q).
Proof.
  intros Hw Hh Hleft t Hthr.
  pose proof (VisionFacts.half_width_pos width (5 # 10) Hw eq_refl) as Hc.
  assert (C : 0 < Vision.changeCount t).
  { apply (VisionFacts.threshold_reached_count Vision.Mirrored.stride (1 # 1000) width height);
      try assumption; reflexivity. }
  pose proof (VisionFacts.centroid_left width t C
                (VisionFacts.scan_left _ _ _ _ _ _ Hleft)) as Hd.
  eexists. split; [apply VisionFacts.mirrored_x; assumption |].
  fold t. repeat split.
  - apply NumFacts.clamp_pos. apply Qlt_shift_div_l; [exact Hc |]. lra.
  - apply NumFacts.clamp_range.
  - intros Hsat. apply NumFacts.clamp_sat_hi.
    apply Qle_shift_div_l; [exact Hc |]. lra.
  - intros prev' data' height' Hh' t' Hthr' Hmono.
    eexists. split; [apply VisionFacts.mirrored_x; assumption |].
    fold t'. apply NumFacts.clamp_mono. apply VisionFacts.Qdiv_le_mono; assumption.
Qed.

(** White blocks of 8 by 8 pixels on a black frame of 64 by 16
    (center column 32), further and further left: the mirrored text
    gives x = 1/2 at columns 24..31 and x = 1 from columns 16..23 on. *)
Lemma mirrored_text_block_examples :
  let black := Vision.blockFrame 64 16 0 0 0 0 0 0 in
  let xOf bx := x (fst (Vision.Mirrored.detectMotion
                          (Some black) (Vision.blockFrame 64 16 bx 0 8 8 0 255) 64 16)) in
  (exists q, xOf 24 = Num q /\ (q == 1 # 2)%Q) /\
  map xOf [16; 8; 0] = [Num 1; Num 1; Num 1].
Proof.
  split.
  - eexists. split; [vm_compute; reflexivity | reflexivity].
  - vm_compute. reflexivity.
Qed.

(** The text at lines 1-78 gives the other sign: under the same
    hypotheses x is a number in [-1, 0). *)
Lemma plain_text_left_is_negative (prev data : Vision.Frame) (width height : Z) :
  0 < width -> 0 < height ->
  Vision.leftOfCenter Vision.Plain.stride 40 prev data width height ->
  let t := Vision.scan Vision.Plain.stride 40 (Some prev) data width height in
  (Vision.motionThreshold Vision.Plain.stride (5 # 1000) width height
   <= inject_Z (Vision.changeCount t))%Q ->
  exists q,
    x (fst (Vision.Plain.detectMotion (Some prev) data width height)) = Num q /\
    (-1 <= q)%Q /\ (q < 0)%Q.
Proof.
  intros Hw Hh Hleft t Hthr.
  pose proof (VisionFacts.half_width_pos width (6 # 10) Hw eq_refl) as Hc.
  assert (C : 0 < Vision.changeCount t).
  { apply (VisionFacts.threshold_reached_count Vision.Plain.stride (5 # 1000) width height);
      try assumption; reflexivity. }
  pose proof (VisionFacts.centroid_left width t C
                (VisionFacts.scan_left _ _ _ _ _ _ Hleft)) as Hd.
  unfold Vision.displacement in Hd.
  eexists. split; [apply VisionFacts.plain_x; assumption |].
  fold t. split.
  - apply NumFacts.clamp_range.
  - apply NumFacts.clamp_neg. apply Qlt_shift_div_r; [exact Hc |]. lra.
Qed.

(** The two lemmas above on synthetic pairs: a black-to-lit block of
    any size and height that ends at or before the center column,
    once enough of its pixels are sampled to reach the threshold,
    gives a positive x in the mirrored text and a negative x in the
    plain one. *)
Lemma block_left_of_center_signs (width height bx by_ bw bh off on : Z) :
  0 < width -> 0 < height -> 2 * (bx + bw) <= width ->
  let prev := Vision.blockFrame width height 0 0 0 0 off off in
  let data := Vision.blockFrame width height bx by_ bw bh off on in
  ((Vision.motionThreshold Vision.Mirrored.stride (1 # 1000) width height
    <= inject_Z (Vision.changeCount
                   (Vision.scan Vision.Mirrored.stride 25 (Some prev) data width height)))%Q ->
   exists q, x (fst (Vision.Mirrored.detectMotion (Some prev) data width height)) = Num q /\
             (0 < q)%Q /\ (q <= 1)%Q) /\
  ((Vision.motionThreshold Vision.Plain.stride (5 # 1000) width height
    <= inject_Z (Vision.changeCount
                   (Vision.scan Vision.Plain.stride 40 (Some prev) data width height)))%Q ->
   exists q, x (fst (Vision.Plain.detectMotion (Some prev) data width height)) = Num q /\
             (-1 <= q)%Q /\ (q < 0)%Q).
Proof.
  intros Hw Hh Hb prev data. split; intros Hthr.
  - assert (L : Vision.leftOfCenter Vision.Mirrored.stride 25 prev data width height).
    { apply VisionFacts.block_leftOfCenter; [reflexivity | | exact Hb].
      unfold Qle; simpl; lia. }
    destruct (mirrored_text_obeys_mirror_law prev data width height Hw Hh L Hthr)
      as (q & E & P & U & _).
    exists q. repeat split; assumption.
  - assert (L : Vision.leftOfCenter Vision.Plain.stride 40 prev data width height).
    { apply VisionFacts.block_leftOfCenter; [reflexivity | | exact Hb].
      unfold Qle; simpl; lia. }
    exact (plain_text_left_is_negative prev data width height Hw Hh L Hthr).
Qed.

(** C2.  The text of [detectMotion] at lines 1-78 breaks the
    mirror-correction law.  Previous frame: 32 by 16, black.  Current
    frame: the same with a white block of 8 by 8 pixels in the top
    left corner, strictly left of the center column 16.  Four sampled
    pixels change, above the threshold of 0.16, and the vector
    returned has x = -1, where the law asks for a positive x (the
    mirrored text returns +1 on the same pair). *)
Theorem plain_text_breaks_mirror_law :
  let prev := Vision.blockFrame 32 16 0 0 0 0 0 0 in
  let data := Vision.blockFrame 32 16 0 0 8 8 0 255 in
  Vision.scan Vision.Plain.stride 40 (Some prev) data 32 16 = Vision.mkTotals 8 8 4 /\
  fst (Vision.Plain.detectMotion (Some prev) data 32 16) = mkMotion (Num (-1)) (Num (-1)) 4 /\
  x (fst (Vision.Mirrored.detectMotion (Some prev) data 32 16)) = Num 1.
Proof. vm_compute. repeat split; reflexivity. Qed.
(* ================================================================= *)
(** ** Leaderboard Store *)

Module LeaderboardFacts.

Import Leaderboard.

Lemma above_trans a b c : above a b -> above b c -> above a c.
Proof. unfold above. lia. Qed.

Lemma in_firstn {A} (a : A) k l : In a (firstn k l) -> In a l.
Proof.
  revert k. induction l as [| h t IH]; intros [| k]; simpl; try tauto.
  intros [E | H]; [left; exact E | right; apply (IH k), H].
Qed.

Lemma filter_none {A} (f : A -> bool) l :
  (forall a, In a l -> f a = false) -> filter f l = [].
Proof.
  induction l as [| h t IH]; intros H; simpl; [reflexivity |].
  rewrite (H h (or_introl eq_refl)). apply IH.
  intros a Ha. apply H. right. exact Ha.
Qed.

Lemma in_insert e l a : In a (insert e l) <-> a = e \/ In a l.
Proof.
  induction l as [| h t IH]; simpl.
  - intuition congruence.
  - destruct (score e <=? score h); simpl; rewrite ?IH; intuition congruence.
Qed.

Lemma insert_length e l : List.length (insert e l) = S (List.length l).
Proof.
  induction l as [| h t IH]; simpl; [reflexivity |].
  destruct (score e <=? score h); simpl; congruence.
Qed.

Lemma insert_perm e l : Permutation (insert e l) (e :: l).
Proof.
  induction l as [| h t IH]; simpl; [apply Permutation_refl |].
  destruct (score e <=? score h).
  - eapply perm_trans; [apply perm_skip, IH | apply perm_swap].
  - apply Permutation_refl.
Qed.

Lemma insert_strongly e l :
  StronglySorted above l -> StronglySorted above (insert e l).
Proof.
  induction 1 as [| h t Ht IH Hh]; simpl.
  - constructor; constructor.
  - destruct (score e <=? score h) eqn:E.
    + apply Z.leb_le in E. constructor; [exact IH |].
      apply Forall_forall. intros a Ha. apply in_insert in Ha.
      destruct Ha as [-> | Ha]; [exact E |].
      rewrite Forall_forall in Hh. apply Hh, Ha.
    + apply Z.leb_gt in E. constructor; [constructor; assumption |].
      constructor; [unfold above; lia |].
      eapply Forall_impl; [| exact Hh]. unfold above. intros a Ha. lia.
Qed.

Lemma fold_insert_strongly l acc :
  StronglySorted above acc ->
  StronglySorted above (fold_left (fun sorted e => insert e sorted) l acc).
Proof.
  revert acc. induction l as [| e l IH]; intros acc H; simpl.
  - exact H.
  - apply IH, insert_strongly, H.
Qed.

Lemma sort_strongly l : StronglySorted above (sort l).
Proof. apply fold_insert_strongly. constructor. Qed.

Lemma sort_descending l : descending (sort l).
Proof. apply StronglySorted_Sorted, sort_strongly. Qed.

Lemma fold_insert_perm l acc :
  Permutation (fold_left (fun sorted e => insert e sorted) l acc) (acc ++ l).
Proof.
  revert acc. induction l as [| e l IH]; intros acc; simpl.
  - rewrite app_nil_r. apply Permutation_refl.
  - eapply perm_trans; [apply IH |].
    eapply perm_trans; [apply Permutation_app_tail, insert_perm |].
    simpl. apply Permutation_middle.
Qed.

(** The model of [sort] returns the entries it was given. *)
Lemma sort_perm l : Permutation (sort l) l.
Proof. apply (fold_insert_perm l []). Qed.

Lemma sort_snoc l e : sort (l ++ [e]) = insert e (sort l).
Proof. unfold sort. rewrite fold_left_app. reflexivity. Qed.

(** An entry not above any entry of the list goes to its end. *)
Lemma insert_last e l :
  Forall (fun a => above a e) l -> insert e l = l ++ [e].
Proof.
  induction 1 as [| h t Hh Ht IH]; simpl; [reflexivity |].
  unfold above in Hh. apply Z.leb_le in Hh. rewrite Hh, IH. reflexivity.
Qed.

Lemma fold_insert_sorted l :
  StronglySorted above l ->
  forall acc, Forall (fun a => Forall (above a) l) acc ->
              fold_left (fun sorted e => insert e sorted) l acc = acc ++ l.
Proof.
  induction 1 as [| h t Ht IH Hh]; intros acc Hacc; simpl.
  - rewrite app_nil_r. reflexivity.
  - rewrite insert_last.
    + rewrite IH.
      * rewrite <- app_assoc. reflexivity.
      * apply Forall_app. split.
        -- eapply Forall_impl; [| exact Hacc]. intros a Ha. inversion Ha; assumption.
        -- constructor; [exact Hh | constructor].
    + eapply Forall_impl; [| exact Hacc]. intros a Ha. inversion Ha; assumption.
Qed.

(** Sorting a list already in descending order leaves it as it is. *)
Lemma sort_sorted l : StronglySorted above l -> sort l = l.
Proof. intros H. apply (fold_insert_sorted l H []). constructor. Qed.

Lemma firstn_strongly k l :
  StronglySorted above l -> StronglySorted above (firstn k l).
Proof.
  intros H. revert k. induction H as [| h t Ht IH Hh]; intros [| k]; simpl;
    try constructor.
  - apply IH.
  - apply Forall_forall. intros a Ha. rewrite Forall_forall in Hh.
    apply Hh. eapply in_firstn. exact Ha.
Qed.

Lemma firstn_cons_firstn {A} (h : A) k t :
  firstn k (h :: firstn k t) = firstn k (h :: t).
Proof.
  destruct k as [| k]; [reflexivity |].
  rewrite !firstn_cons. f_equal.
  rewrite firstn_firstn, Nat.min_l by lia. reflexivity.
Qed.

(** Cutting before or after the insertion gives the same head. *)
Lemma firstn_insert_firstn e k l :
  firstn k (insert e (firstn k l)) = firstn k (insert e l).
Proof.
  revert k. induction l as [| h t IH]; intros [| k]; simpl; try reflexivity.
  destruct (score e <=? score h); simpl.
  - rewrite IH. reflexivity.
  - f_equal. apply firstn_cons_firstn.
Qed.

Lemma saveScore_insert fb lb p s now :
  saveScore fb lb p s now = firstn 10 (insert (mkEntry (orElse p fb) s now) (sort lb)).
Proof. unfold saveScore. rewrite sort_snoc. reflexivity. Qed.

(** After one save or more the store holds the first ten of all the
    entries (the former ones and the saved ones) in sorted order. *)
Lemma saveAll_top fb saves s lb :
  saveAll fb (saves ++ [s]) lb
  = firstn 10 (sort (lb ++ map (entryOf fb) (saves ++ [s]))).
Proof.
  revert s. induction saves as [| s' saves IH] using rev_ind; intros s.
  - simpl. destruct s as [[p sc] now]. reflexivity.
  - unfold saveAll in *. rewrite fold_left_app. simpl.
    rewrite IH. destruct s as [[p sc] now]. simpl fst; simpl snd.
    rewrite saveScore_insert.
    rewrite sort_sorted by apply firstn_strongly, sort_strongly.
    rewrite firstn_insert_firstn.
    rewrite <- sort_snoc.
    rewrite (map_app _ (saves ++ [s'])). simpl map.
    rewrite app_assoc. reflexivity.
Qed.

(** In a descending list, an entry among the first [k] has fewer
    than [k] entries of strictly higher score. *)
Lemma higher_before e k l :
  StronglySorted above l -> In e (firstn k l) ->
  (List.length (filter (fun a => (score e <? score a)%Z) l) < k)%nat.
Proof.
  intros H. revert k. induction H as [| h t Ht IH Hh]; intros [| k] Hin;
    simpl in Hin; try contradiction.
  destruct Hin as [-> | Hin].
  - simpl. rewrite Z.ltb_irrefl.
    assert (E : filter (fun a => score e <? score a) t = []).
    { apply filter_none. intros a Ha. rewrite Forall_forall in Hh.
      specialize (Hh a Ha). unfold above in Hh.
      apply Z.ltb_ge. exact Hh. }
    rewrite E. simpl. lia.
  - specialize (IH k Hin). simpl.
    destruct (score e <? score h); simpl; lia.
Qed.

Lemma filter_length_perm {A} (f : A -> bool) l l' :
  Permutation l l' -> List.length (filter f l) = List.length (filter f l').
Proof.
  induction 1 as [| a l l' H IH | a b l | l l' l'' H1 IH1 H2 IH2]; simpl;
    try congruence.
  - destruct (f a); simpl; congruence.
  - destruct (f a), (f b); simpl; reflexivity.
Qed.

End LeaderboardFacts.

(** C8.  After every save, whatever the leaderboard was before the
    first of them (even unsorted or too long, as read back from the
    store): the stored leaderboard is sorted by descending score and
    has at most 10 entries; it consists of former and saved entries
    only; and an entry that has ten or more entries of strictly higher
    score among them (which, for distinct scores, is an entry below
    the 10th highest) is not in it. *)
Theorem leaderboard_keeps_top_ten
        (fallback : string) (lb : list ScoreEntry)
        (saves : list (string * Z * Z)) (s : string * Z * Z) :
  let all := lb ++ map (Leaderboard.entryOf fallback) (saves ++ [s]) in
  let stored := Leaderboard.saveAll fallback (saves ++ [s]) lb in
  Leaderboard.descending stored /\
  (List.length stored <= 10)%nat /\
  (forall e, In e stored -> In e all) /\
  (forall e, (10 <= List.length (filter (fun a => (score e <? score a)%Z) all))%nat ->
             ~ In e stored).
Proof.
  intros all stored. subst stored. rewrite LeaderboardFacts.saveAll_top. fold all.
  repeat split.
  - apply StronglySorted_Sorted, LeaderboardFacts.firstn_strongly,
      LeaderboardFacts.sort_strongly.
  - apply firstn_le_length.
  - intros e He. apply LeaderboardFacts.in_firstn in He.
    eapply Permutation_in; [apply LeaderboardFacts.sort_perm | exact He].
  - intros e Hcount Hin.
    apply LeaderboardFacts.higher_before in Hin;
      [| apply LeaderboardFacts.sort_strongly].
    rewrite (LeaderboardFacts.filter_length_perm _ _ _
               (LeaderboardFacts.sort_perm all)) in Hin.
    lia.
Qed.

(** Eleven runs with the scores 1 to 11, saved in that order into an
    empty store: the entry of score 1 is gone, the others are kept in
    descending order. *)
Lemma leaderboard_keeps_top_ten_witness :
  let saves := map (fun k => ("P"%string, k, 1000 + k)) [1; 2; 3; 4; 5; 6; 7; 8; 9; 10] in
  let stored := Leaderboard.saveAll "Unknown Pilot" (saves ++ [("P"%string, 11, 1011)]) [] in
  map score stored = [11; 10; 9; 8; 7; 6; 5; 4; 3; 2] /\
  ~ In (mkEntry "P" 1 1001) stored.
Proof.
  intros saves stored. split; [vm_compute; reflexivity |].
  apply (proj2 (proj2 (proj2
           (leaderboard_keeps_top_ten "Unknown Pilot" [] saves ("P"%string, 11, 1011))))).
  vm_compute. lia.
Defined.

(* ================================================================= *)
(** ** Snake Simulation *)

Module GridFacts.

Lemma Position_eqb_eq a b : Position_eqb a b = true <-> a = b.
Proof.
  destruct a as [ax ay], b as [bx b_y]; unfold Position_eqb; simpl.
  rewrite andb_true_iff, !Z.eqb_eq. split.
  - intros [-> ->]; reflexivity.
  - intros E; inversion E; auto.
Qed.

Lemma GameState_eqb_eq a b : GameState_eqb a b = true <-> a = b.
Proof. destruct a, b; simpl; split; congruence. Qed.

Lemma GameState_eqb_refl a : GameState_eqb a a = true.
Proof. destruct a; reflexivity. Qed.

Lemma selfCollision_In snake head :
  Grid.selfCollision snake head = true <-> In head snake.
Proof.
  unfold Grid.selfCollision. rewrite existsb_exists. split.
  - intros [s [Hs E]]. apply Position_eqb_eq in E. subst s. exact Hs.
  - intros H. exists head. split; [exact H | apply Position_eqb_eq; reflexivity].
Qed.

Lemma wallCollision_outside iw head :
  Grid.wallCollision iw head = true <-> ~ Grid.inside iw head.
Proof.
  unfold Grid.wallCollision, Grid.inside.
  rewrite !orb_true_iff, !Z.ltb_lt, !Z.geb_le. lia.
Qed.

Lemma last_In_nonempty {A} (l : list A) (d : A) : l <> [] -> In (last l d) l.
Proof.
  induction l as [| a l IH]; intros H; [congruence |].
  destruct l as [| b l]; [left; reflexivity |].
  right. change (last (a :: b :: l) d) with (last (b :: l) d).
  apply IH. discriminate.
Qed.

Lemma last_In {A} (a : A) l : In (last (a :: l) a) (a :: l).
Proof. apply last_In_nonempty. discriminate. Qed.

Lemma length_removelast_cons {A} (a : A) l :
  List.length (removelast (a :: l)) = List.length l.
Proof.
  revert a. induction l as [| b l IH]; intros a; [reflexivity |].
  change (removelast (a :: b :: l)) with (a :: removelast (b :: l)).
  cbn [List.length]. rewrite IH. reflexivity.
Qed.


End GridFacts.

Module SnakeGameFacts.

Import SnakeGame GridFacts.

Section Facts.

Variable innerWidth : Z.
Variable detect :
  option Vision.Frame -> Vision.Frame -> Z -> Z -> MotionVector * option Vision.Frame.

Lemma gameOver_state now w :
  gameState (hooks (gameOver now w)) = GAME_OVER /\
  refs (gameOver now w) = refs w /\
  score (hooks (gameOver now w)) = score (hooks w) /\
  storage (gameOver now w)
  = Some (Leaderboard.saveScore "Unknown Pilot" (leaderboard (closure w))
            (playerName (closure w)) (score (closure w)) now).
Proof. repeat split. Qed.

Lemma updateSnake_collides now windowWidth rx ry w first rest :
  snake (refs w) = first :: rest ->
  let head := Grid.move (direction (refs w)) first in
  ~ Grid.inside innerWidth head \/ In head (first :: rest) ->
  updateSnake innerWidth now windowWidth rx ry w = gameOver now w.
Proof.
  intros Hs head H. unfold updateSnake. rewrite Hs. fold head.
  destruct (Grid.wallCollision innerWidth head) eqn:W; [reflexivity |].
  destruct H as [H | H].
  - apply wallCollision_outside in H. congruence.
  - apply selfCollision_In in H. rewrite H. reflexivity.
Qed.


(** What one call of [updateSnake] does to length and score. *)
Lemma updateSnake_counts now windowWidth rx ry w :
  let w' := updateSnake innerWidth now windowWidth rx ry w in
  let n := if eats innerWidth w then 1 else 0 in
  Z.of_nat (List.length (snake (refs w')))
  = Z.of_nat (List.length (snake (refs w))) + n /\
  score (hooks w') = score (hooks w) + n.
Proof.
  unfold updateSnake, eats.
  destruct (snake (refs w)) as [| first rest] eqn:Hs; cbv zeta.
  - rewrite Hs. split; simpl; lia.
  - destruct (Grid.wallCollision innerWidth _) eqn:W; cbn [negb andb].
    { cbn [gameOver commit refs hooks score]. rewrite Hs. split; lia. }
    destruct (Grid.selfCollision _ _) eqn:S; cbn [negb andb].
    { cbn [gameOver commit refs hooks score]. rewrite Hs. split; lia. }
    destruct (Position_eqb _ _) eqn:F.
    + cbn [commit withRefs refs hooks score snake]. split; [| reflexivity].
      cbn [List.length]. lia.
    + cbn [commit withRefs refs hooks score snake]. split; [| lia].
      rewrite length_removelast_cons. cbn [List.length]. lia.
Qed.

Lemma sense_keeps data w :
  snake (refs (sense detect data w)) = snake (refs w) /\
  food (refs (sense detect data w)) = food (refs w) /\
  hooks (sense detect data w) = hooks w /\
  closure (sense detect data w) = closure w.
Proof.
  unfold sense. destruct (detect (prevFrame w) data 320 240) as [raw prev'].
  repeat split.
Qed.

Lemma tick_counts t w :
  let w' := tick innerWidth detect t w in
  let n := if tickEats innerWidth detect t w then 1 else 0 in
  Z.of_nat (List.length (snake (refs w')))
  = Z.of_nat (List.length (snake (refs w))) + n /\
  score (hooks w') = score (hooks w) + n.
Proof.
  unfold tick, tickEats, loop. cbv zeta.
  destruct (GameState_eqb (gameState (closure w)) PLAYING); cbn [negb andb];
    [| split; lia].
  set (w1 := perceive detect (Grid.image t) w).
  assert (K : snake (refs w1) = snake (refs w) /\ hooks w1 = hooks w).
  { subst w1. unfold perceive. destruct (Grid.image t) as [data |]; [| split; reflexivity].
    destruct (sense_keeps data w) as (A & _ & B & _). split; assumption. }
  destruct K as [K1 K2]. clearbody w1.
  destruct (due (Grid.at_ t) w1); cbn [andb].
  - pose proof (updateSnake_counts (Grid.clock t) (Grid.width t) (Grid.rx t) (Grid.ry t) w1) as H.
    cbv zeta in H. rewrite K1, K2 in H.
    unfold setLastUpdate, withRefs. cbn [refs hooks snake]. exact H.
  - rewrite K1, K2. split; lia.
Qed.

Lemma play_counts ticks w :
  Z.of_nat (List.length (snake (refs (play innerWidth detect ticks w))))
  = Z.of_nat (List.length (snake (refs w))) + eaten innerWidth detect ticks w /\
  score (hooks (play innerWidth detect ticks w))
  = score (hooks w) + eaten innerWidth detect ticks w.
Proof.
  revert w. induction ticks as [| t ticks IH]; intros w.
  - unfold play. cbn [fold_left eaten]. split; lia.
  - change (play innerWidth detect (t :: ticks) w)
      with (play innerWidth detect ticks (tick innerWidth detect t w)).
    cbn [eaten].
    destruct (IH (tick innerWidth detect t w)) as [A B].
    destruct (tick_counts t w) as [C D]. cbv zeta in C, D.
    rewrite A, B, C, D. split; lia.
Qed.

(** While a run lasts, [loop] sees the score of the render that
    started it. *)
Lemma tick_closure_score t w :
  gameState (hooks w) = gameState (closure w) ->
  let w' := tick innerWidth detect t w in
  gameState (hooks w') = gameState (closure w') /\
  (gameState (closure w') = PLAYING -> score (closure w') = score (closure w)).
Proof.
  intros Hg. unfold tick, loop. cbv zeta.
  destruct (GameState_eqb (gameState (closure w)) PLAYING) eqn:P; cbn [negb];
    [| split; [exact Hg | reflexivity]].
  set (w1 := perceive detect (Grid.image t) w).
  assert (K : hooks w1 = hooks w /\ closure w1 = closure w).
  { subst w1. unfold perceive. destruct (Grid.image t) as [data |]; [| split; reflexivity].
    destruct (sense_keeps data w) as (_ & _ & B & C). split; assumption. }
  destruct K as [K1 K2]. clearbody w1.
  assert (Pc : gameState (closure w) = PLAYING) by (apply GameState_eqb_eq, P).
  destruct (due (Grid.at_ t) w1); [| rewrite K1, K2; split; [exact Hg | reflexivity]].
  unfold setLastUpdate, withRefs, updateSnake.
  destruct (snake (refs w1)) as [| first rest];
    [cbn [hooks closure]; rewrite K1, K2; split; [exact Hg | reflexivity] |].
  cbv zeta.
  assert (G : forall now,
             gameState (hooks (gameOver now w1)) = GAME_OVER /\
             gameState (closure (gameOver now w1)) = GAME_OVER).
  { intros now. unfold gameOver, commit. cbn [hooks closure gameState].
    rewrite K1, Hg, Pc. cbn. split; reflexivity. }
  destruct (Grid.wallCollision innerWidth _).
  { destruct (G (Grid.clock t)) as [G1 G2]. cbn [hooks closure].
    rewrite G1, G2. split; [reflexivity | discriminate]. }
  destruct (Grid.selfCollision _ _).
  { destruct (G (Grid.clock t)) as [G1 G2]. cbn [hooks closure].
    rewrite G1, G2. split; [reflexivity | discriminate]. }
  destruct (Position_eqb _ _).
  - unfold commit, withRefs. cbn [hooks closure gameState].
    rewrite GameState_eqb_refl, K1, K2. split; [exact Hg | reflexivity].
  - unfold withRefs. cbn [hooks closure]. rewrite K1, K2.
    split; [exact Hg | reflexivity].
Qed.

End Facts.

End SnakeGameFacts.

Module SnakeGameRefFacts.

Import SnakeGameRef GridFacts.

Section Facts.

Variable innerWidth : Z.
Variable detect :
  option Vision.Frame -> Vision.Frame -> Z -> Z -> MotionVector * option Vision.Frame.

Lemma gameOver_state_ref now w :
  gameState (hooks (gameOver now w)) = GAME_OVER /\
  refs (gameOver now w) = refs w /\
  storage (gameOver now w)
  = Some (Leaderboard.saveScore "Unknown Pilot" (leaderboard (closure w))
            (playerName (closure w)) (scoreRef (refs w)) now).
Proof. repeat split. Qed.

Lemma updateSnake_collides_ref now windowWidth rx ry w first rest :
  snake (refs w) = first :: rest ->
  let head := Grid.move (direction (refs w)) first in
  ~ Grid.inside innerWidth head \/ In head (first :: rest) ->
  updateSnake innerWidth now windowWidth rx ry w = gameOver now w.
Proof.
  intros Hs head H. unfold updateSnake. rewrite Hs. fold head.
  destruct (Grid.wallCollision innerWidth head) eqn:W; [reflexivity |].
  destruct H as [H | H].
  - apply wallCollision_outside in H. congruence.
  - apply selfCollision_In in H. rewrite H. reflexivity.
Qed.



Lemma perceive_keeps frame w :
  snake (refs (perceive detect frame w)) = snake (refs w) /\
  scoreRef (refs (perceive detect frame w)) = scoreRef (refs w) /\
  lastUpdate (refs (perceive detect frame w)) = lastUpdate (refs w).
Proof.
  unfold perceive, sense. destruct frame as [data |]; [| repeat split].
  destruct (detect (prevFrame w) data 320 240) as [raw prev'].
  repeat split.
Qed.



End Facts.

End SnakeGameRefFacts.

(* ================================================================= *)
(** ** The simulation step: collisions, growth, food, score *)

(** C9.  When the moved head lands on the cell of the last segment of
    the snake, [updateSnake] ends the run whatever the food position,
    so also when nothing is eaten and the tail would have left that
    cell: the head is compared with every segment of the body as it
    is before the move.  The body is left as it was.  Both component
    texts agree. *)
Theorem tail_tip_is_a_collision (innerWidth now windowWidth : Z) (rx ry : Q) :
  (forall (w : SnakeGame.World) first rest,
      SnakeGame.snake (SnakeGame.refs w) = first :: rest ->
      Grid.move (SnakeGame.direction (SnakeGame.refs w)) first = last (first :: rest) first ->
      let w' := SnakeGame.updateSnake innerWidth now windowWidth rx ry w in
      w' = SnakeGame.gameOver now w /\
      SnakeGame.gameState (SnakeGame.hooks w') = GAME_OVER /\
      SnakeGame.snake (SnakeGame.refs w') = first :: rest) /\
  (forall (w : SnakeGameRef.World) first rest,
      SnakeGameRef.snake (SnakeGameRef.refs w) = first :: rest ->
      Grid.move (SnakeGameRef.direction (SnakeGameRef.refs w)) first = last (first :: rest) first ->
      let w' := SnakeGameRef.updateSnake innerWidth now windowWidth rx ry w in
      w' = SnakeGameRef.gameOver now w /\
      SnakeGameRef.gameState (SnakeGameRef.hooks w') = GAME_OVER /\
      SnakeGameRef.snake (SnakeGameRef.refs w') = first :: rest).
Proof.
  split; intros w first rest Hs Htail w'.
  - assert (E : w' = SnakeGame.gameOver now w).
    { apply (SnakeGameFacts.updateSnake_collides innerWidth now windowWidth rx ry w first rest Hs).
      right. rewrite Htail. apply GridFacts.last_In. }
    rewrite E. repeat split. exact Hs.
  - assert (E : w' = SnakeGameRef.gameOver now w).
    { apply (SnakeGameRefFacts.updateSnake_collides_ref innerWidth now windowWidth rx ry w first rest Hs).
      right. rewrite Htail. apply GridFacts.last_In. }
    rewrite E. repeat split. exact Hs.
Qed.

(** A snake of four segments coiled in a square, heading RIGHT into
    its own tail tip at (2, 1); the food is far away at (5, 5). *)
Lemma tail_tip_is_a_collision_witness :
  let coil := [mkPos 1 1; mkPos 1 2; mkPos 2 2; mkPos 2 1] in
  let h := SnakeGame.mkHooks PLAYING 3 "Ada" [] in
  let w := SnakeGame.mkWorld h h
             (SnakeGame.mkRefs coil (mkPos 5 5) RIGHT 0 (Num 0, Num 0)) None None in
  SnakeGame.gameState (SnakeGame.hooks (SnakeGame.updateSnake 1024 7000 1024 0 0 w)) = GAME_OVER.
Proof.
  intros coil h w.
  apply (proj1 (tail_tip_is_a_collision 1024 7000 1024 0 0) w
               (mkPos 1 1) [mkPos 1 2; mkPos 2 2; mkPos 2 1]);
    reflexivity.
Defined.



(* ================================================================= *)
(** ** Food placement *)




(** Without the condition on the window the food can leave the grid:
    a run built on a window 500 pixels wide has 15 columns; when the
    window is 1024 pixels wide at the moment the snake eats, the draw
    0.9 puts the food in column 27 (26 in the later text). *)
Lemma food_can_spawn_outside_after_resize :
  (let h := SnakeGame.mkHooks PLAYING 0 "Ada" [] in
   let w := SnakeGame.mkWorld h h
              (SnakeGame.mkRefs [mkPos 5 5] (mkPos 6 5) RIGHT 0 (Num 0, Num 0)) None None in
   let w' := SnakeGame.updateSnake 500 7000 1024 (9 # 10) (1 # 2) w in
   SnakeGame.eats 500 w = true /\
   SnakeGame.food (SnakeGame.refs w') = mkPos 27 10 /\
   ~ Grid.inside 500 (SnakeGame.food (SnakeGame.refs w'))) /\
  (let h := SnakeGameRef.mkHooks PLAYING 0 "Ada" [] in
   let w := SnakeGameRef.mkWorld h h
              (SnakeGameRef.mkRefs [mkPos 5 5] (mkPos 6 5) RIGHT 0 0 (Num 0, Num 0))
              None None in
   let w' := SnakeGameRef.updateSnake 500 7000 1024 (9 # 10) (1 # 2) w in
   SnakeGameRef.eats 500 w = true /\
   SnakeGameRef.food (SnakeGameRef.refs w') = mkPos 26 10 /\
   ~ Grid.inside 500 (SnakeGameRef.food (SnakeGameRef.refs w'))).
Proof.
  split; cbv zeta; (split; [reflexivity | split; [reflexivity |]]);
    unfold Grid.inside; cbn; lia.
Qed.


(* ================================================================= *)
(** ** Game over and the persisted score *)

(** In the later text a collision of either kind ends the run and
    hands the current score, read from [scoreRef], to [saveScore]
    with the player name and the time stamp. *)
Lemma scored_text_persists_current_score
      (innerWidth now windowWidth : Z) (rx ry : Q) (w : SnakeGameRef.World) first rest :
  SnakeGameRef.snake (SnakeGameRef.refs w) = first :: rest ->
  let head := Grid.move (SnakeGameRef.direction (SnakeGameRef.refs w)) first in
  ~ Grid.inside innerWidth head \/ In head (first :: rest) ->
  let w' := SnakeGameRef.updateSnake innerWidth now windowWidth rx ry w in
  SnakeGameRef.gameState (SnakeGameRef.hooks w') = GAME_OVER /\
  SnakeGameRef.storage w'
  = Some (Leaderboard.saveScore "Unknown Pilot"
            (SnakeGameRef.leaderboard (SnakeGameRef.closure w))
            (SnakeGameRef.playerName (SnakeGameRef.closure w))
            (SnakeGameRef.scoreRef (SnakeGameRef.refs w)) now).
Proof.
  intros Hs head H w'. subst w'.
  rewrite (SnakeGameRefFacts.updateSnake_collides_ref innerWidth now windowWidth rx ry w first rest Hs H).
  split; reflexivity.
Qed.

(** In [SnakeGame.tsx] a collision ends the run too, but the score
    handed to [saveScore] is the one [loop] was built with. *)
Lemma state_text_persists_closure_score
      (innerWidth now windowWidth : Z) (rx ry : Q) (w : SnakeGame.World) first rest :
  SnakeGame.snake (SnakeGame.refs w) = first :: rest ->
  let head := Grid.move (SnakeGame.direction (SnakeGame.refs w)) first in
  ~ Grid.inside innerWidth head \/ In head (first :: rest) ->
  let w' := SnakeGame.updateSnake innerWidth now windowWidth rx ry w in
  SnakeGame.gameState (SnakeGame.hooks w') = GAME_OVER /\
  SnakeGame.storage w'
  = Some (Leaderboard.saveScore "Unknown Pilot"
            (SnakeGame.leaderboard (SnakeGame.closure w))
            (SnakeGame.playerName (SnakeGame.closure w))
            (SnakeGame.score (SnakeGame.closure w)) now).
Proof.
  intros Hs head H w'. subst w'.
  rewrite (SnakeGameFacts.updateSnake_collides innerWidth now windowWidth rx ry w first rest Hs H).
  split; reflexivity.
Qed.

(** That score is 0 for the whole of a run: it is the one set by
    [startGame]. *)
Lemma state_text_closure_score_is_zero
      (innerWidth : Z) detect (rx ry : Q) (w : SnakeGame.World) ticks :
  SnakeGame.gameState (SnakeGame.hooks w) <> PLAYING ->
  Grid.blank (SnakeGame.playerName (SnakeGame.hooks w)) = false ->
  let w' := SnakeGame.play innerWidth detect ticks
                           (SnakeGame.startGame innerWidth true rx ry w) in
  SnakeGame.gameState (SnakeGame.closure w') = PLAYING ->
  SnakeGame.score (SnakeGame.closure w') = 0.
Proof.
  intros Hidle Hname.
  set (w0 := SnakeGame.startGame innerWidth true rx ry w).
  assert (I0 : SnakeGame.gameState (SnakeGame.hooks w0)
               = SnakeGame.gameState (SnakeGame.closure w0) /\
               (SnakeGame.gameState (SnakeGame.closure w0) = PLAYING ->
                SnakeGame.score (SnakeGame.closure w0) = 0)).
  { subst w0. unfold SnakeGame.startGame. rewrite Hname.
    unfold SnakeGame.commit, SnakeGame.withRefs. cbn.
    destruct (SnakeGame.gameState (SnakeGame.hooks w)); try congruence;
      cbn; split; reflexivity. }
  clearbody w0. revert w0 I0.
  induction ticks as [| t ticks IH]; intros w0 [I1 I2] w'.
  - exact I2.
  - apply IH.
    destruct (SnakeGameFacts.tick_closure_score innerWidth detect t w0 I1) as [A B].
    split; [exact A |]. intros P. rewrite (B P). apply I2.
    (* the run was on before this frame as well *)
    unfold SnakeGame.tick, SnakeGame.loop in P.
    destruct (GameState_eqb (SnakeGame.gameState (SnakeGame.closure w0)) PLAYING) eqn:E.
    + apply GridFacts.GameState_eqb_eq, E.
    + exact P.
Qed.

(** C3.  A run of [SnakeGame.tsx] on a wide window: player Ada, empty
    leaderboard, food first at (11, 10); twenty animation frames 300 ms
    apart with no camera image, so the snake keeps heading RIGHT.  It
    eats on the first advance (score 1) and hits the right wall on the
    twentieth.  The state is then GAME_OVER and the score is 1, but
    the entry written to the store has score 0.  The later text,
    given the same inputs, stores score 1. *)
Theorem state_text_persists_stale_score :
  let ticks := map (fun k => Grid.mkTick (inject_Z (300 * Z.of_nat k)) None
                                         (5000 + Z.of_nat k) 0 0 1024) (seq 1 20) in
  let w := SnakeGame.play 1024 Vision.Mirrored.detectMotion ticks
             (SnakeGame.startGame 1024 true (38 # 100) (1 # 2)
                                  (SnakeGame.initialWorld "Ada" None)) in
  let v := SnakeGameRef.play 1024 Vision.Mirrored.detectMotion ticks
             (SnakeGameRef.startGame 1024 (38 # 100) (1 # 2)
                                     (SnakeGameRef.initialWorld "Ada" None)) in
  SnakeGame.gameState (SnakeGame.hooks w) = GAME_OVER /\
  SnakeGame.score (SnakeGame.hooks w) = 1 /\
  SnakeGame.storage w = Some [mkEntry "Ada" 0 5020] /\
  SnakeGameRef.gameState (SnakeGameRef.hooks v) = GAME_OVER /\
  SnakeGameRef.scoreRef (SnakeGameRef.refs v) = 1 /\
  SnakeGameRef.storage v = Some [mkEntry "Ada" 1 5020].
Proof. vm_compute. repeat split; reflexivity. Qed.

(* ================================================================= *)
(** ** Speed policy *)

(** C1.  The text that defines [BASE_SPEED] = 250, [SPEED_DECREMENT]
    = 5 and [MIN_SPEED] = 60 (visionUtils.ts, lines 613-615 and
    796-803) waits [max(MIN_SPEED, BASE_SPEED - s * SPEED_DECREMENT)]
    milliseconds at score [s]: while a run is on, an animation frame
    that comes no later than that after the last advance leaves snake,
    food, score and the time of the last advance as they are, and a
    frame that comes later calls [updateSnake] once and records its
    time stamp as the time of the last advance.  This wait is never
    below [MIN_SPEED] and never longer at a higher score.
    [SnakeGame.tsx] defines none of the three constants: its wait is
    the fixed step [INITIAL_SNAKE_SPEED] = 150 at every score, so
    there too the wait does not grow with the score and has a floor. *)
Theorem step_interval_follows_speed_policy (s : Z) :
  let interval := Z.max 60 (250 - s * 5) in
  Z.max SnakeGameRef.MIN_SPEED
        (SnakeGameRef.BASE_SPEED - s * SnakeGameRef.SPEED_DECREMENT) = interval /\
  SnakeGameRef.MIN_SPEED <= interval /\
  (forall s', s <= s' -> Z.max 60 (250 - s' * 5) <= interval) /\
  (forall innerWidth detect t (w : SnakeGameRef.World),
      SnakeGameRef.gameState (SnakeGameRef.closure w) = PLAYING ->
      SnakeGameRef.scoreRef (SnakeGameRef.refs w) = s ->
      let elapsed := (Grid.at_ t - SnakeGameRef.lastUpdate (SnakeGameRef.refs w))%Q in
      let w' := SnakeGameRef.tick innerWidth detect t w in
      ((elapsed <= inject_Z interval)%Q ->
       SnakeGameRef.snake (SnakeGameRef.refs w') = SnakeGameRef.snake (SnakeGameRef.refs w) /\
       SnakeGameRef.food (SnakeGameRef.refs w') = SnakeGameRef.food (SnakeGameRef.refs w) /\
       SnakeGameRef.scoreRef (SnakeGameRef.refs w') = s /\
       SnakeGameRef.lastUpdate (SnakeGameRef.refs w')
       = SnakeGameRef.lastUpdate (SnakeGameRef.refs w)) /\
      ((inject_Z interval < elapsed)%Q ->
       w' = SnakeGameRef.setLastUpdate (Grid.at_ t)
              (SnakeGameRef.updateSnake innerWidth (Grid.clock t) (Grid.width t)
                 (Grid.rx t) (Grid.ry t)
                 (SnakeGameRef.perceive detect (Grid.image t) w)) /\
       SnakeGameRef.lastUpdate (SnakeGameRef.refs w') = Grid.at_ t)) /\
  (forall innerWidth detect t (w : SnakeGame.World),
      SnakeGame.gameState (SnakeGame.closure w) = PLAYING ->
      SnakeGame.score (SnakeGame.hooks w) = s ->
      let elapsed := (Grid.at_ t - SnakeGame.lastUpdate (SnakeGame.refs w))%Q in
      let w' := SnakeGame.tick innerWidth detect t w in
      ((elapsed <= 150)%Q ->
       SnakeGame.snake (SnakeGame.refs w') = SnakeGame.snake (SnakeGame.refs w) /\
       SnakeGame.food (SnakeGame.refs w') = SnakeGame.food (SnakeGame.refs w) /\
       SnakeGame.score (SnakeGame.hooks w') = s /\
       SnakeGame.lastUpdate (SnakeGame.refs w') = SnakeGame.lastUpdate (SnakeGame.refs w)) /\
      ((150 < elapsed)%Q ->
       w' = SnakeGame.setLastUpdate (Grid.at_ t)
              (SnakeGame.updateSnake innerWidth (Grid.clock t) (Grid.width t)
                 (Grid.rx t) (Grid.ry t)
                 (SnakeGame.perceive detect (Grid.image t) w)) /\
       SnakeGame.lastUpdate (SnakeGame.refs w') = Grid.at_ t)).
Proof.
  intros interval. subst interval.
  unfold SnakeGameRef.MIN_SPEED, SnakeGameRef.BASE_SPEED, SnakeGameRef.SPEED_DECREMENT.
  split; [reflexivity |]. split; [lia |]. split; [intros s' H; lia |]. split.
  - intros innerWidth detect t w Hp Hs. cbv zeta.
    unfold SnakeGameRef.tick, SnakeGameRef.loop. rewrite Hp. cbn [GameState_eqb negb].
    destruct (SnakeGameRefFacts.perceive_keeps detect (Grid.image t) w) as (K1 & K2 & K3).
    assert (K4 : SnakeGameRef.food
                   (SnakeGameRef.refs (SnakeGameRef.perceive detect (Grid.image t) w))
                 = SnakeGameRef.food (SnakeGameRef.refs w)).
    { unfold SnakeGameRef.perceive, SnakeGameRef.sense.
      destruct (Grid.image t) as [data |]; [| reflexivity].
      destruct (detect (SnakeGameRef.prevFrame w) data 320 240). reflexivity. }
    unfold SnakeGameRef.due, SnakeGameRef.currentSpeed, SnakeGameRef.MIN_SPEED,
      SnakeGameRef.BASE_SPEED, SnakeGameRef.SPEED_DECREMENT.
    rewrite K2, K3, Hs. split; intros H.
    + apply NumFacts.Qlt_bool_false in H. rewrite H.
      rewrite K1, K2, K3, K4, Hs. repeat split.
    + apply NumFacts.Qlt_bool_iff in H. rewrite H. split; reflexivity.
  - intros innerWidth detect t w Hp Hs. cbv zeta.
    unfold SnakeGame.tick, SnakeGame.loop. rewrite Hp. cbn [GameState_eqb negb].
    assert (K : SnakeGame.snake (SnakeGame.refs (SnakeGame.perceive detect (Grid.image t) w))
                = SnakeGame.snake (SnakeGame.refs w) /\
                SnakeGame.food (SnakeGame.refs (SnakeGame.perceive detect (Grid.image t) w))
                = SnakeGame.food (SnakeGame.refs w) /\
                SnakeGame.hooks (SnakeGame.perceive detect (Grid.image t) w)
                = SnakeGame.hooks w /\
                SnakeGame.lastUpdate
                  (SnakeGame.refs (SnakeGame.perceive detect (Grid.image t) w))
                = SnakeGame.lastUpdate (SnakeGame.refs w)).
    { unfold SnakeGame.perceive, SnakeGame.sense.
      destruct (Grid.image t) as [data |]; [| repeat split].
      destruct (detect (SnakeGame.prevFrame w) data 320 240). repeat split. }
    destruct K as (K1 & K2 & K3 & K4).
    unfold SnakeGame.due, SnakeGame.INITIAL_SNAKE_SPEED.
    change (inject_Z 150) with 150%Q.
    rewrite K4. split; intros H.
    + apply NumFacts.Qlt_bool_false in H. rewrite H.
      rewrite K1, K2, K3, K4, Hs. repeat split.
    + apply NumFacts.Qlt_bool_iff in H. rewrite H. split; reflexivity.
Qed.

(** At score 30 the wait is 100 ms: with the last advance at 1000, the
    frame at 1100 does not move the snake of the later text and the
    frame at 1120 does; [SnakeGame.tsx] waits for more than 150. *)
Lemma step_interval_follows_speed_policy_witness :
  let g := SnakeGameRef.mkHooks PLAYING 30 "Ada" [] in
  let v30 := SnakeGameRef.mkWorld g g
               (SnakeGameRef.mkRefs [mkPos 10 10] (mkPos 0 0) RIGHT 30 1000 (Num 0, Num 0))
               None None in
  let h := SnakeGame.mkHooks PLAYING 30 "Ada" [] in
  let w30 := SnakeGame.mkWorld h h
               (SnakeGame.mkRefs [mkPos 10 10] (mkPos 0 0) RIGHT 1000 (Num 0, Num 0))
               None None in
  let early := Grid.mkTick 1100 None 5000 0 0 1024 in
  let late := Grid.mkTick 1120 None 5000 0 0 1024 in
  SnakeGameRef.snake
    (SnakeGameRef.refs (SnakeGameRef.tick 1024 Vision.Mirrored.detectMotion early v30))
  = [mkPos 10 10] /\
  SnakeGameRef.lastUpdate
    (SnakeGameRef.refs (SnakeGameRef.tick 1024 Vision.Mirrored.detectMotion late v30))
  = 1120%Q /\
  SnakeGame.snake
    (SnakeGame.refs (SnakeGame.tick 1024 Vision.Mirrored.detectMotion late w30))
  = [mkPos 10 10].
Proof.
  intros g v30 h w30 early late.
  destruct (step_interval_follows_speed_policy 30) as (_ & _ & _ & R & S).
  destruct (R 1024 Vision.Mirrored.detectMotion early v30 eq_refl eq_refl) as [R1 _].
  destruct (R 1024 Vision.Mirrored.detectMotion late v30 eq_refl eq_refl) as [_ R2].
  destruct (S 1024 Vision.Mirrored.detectMotion late w30 eq_refl eq_refl) as [S1 _].
  split; [| split].
  - apply R1. unfold Qle. vm_compute. intros E. discriminate E.
  - apply R2. reflexivity.
  - apply S1. unfold Qle. vm_compute. intros E. discriminate E.
Defined.
(* ================================================================= *)
(** * Part III: further properties of the code *)

(* ================================================================= *)
(** ** The snake body over a whole run *)

Module BodyFacts.

Import Body.

Lemma adjacent_move d p : adjacent (Grid.move d p) p.
Proof. unfold adjacent. destruct d; cbn [Grid.move px py]; lia. Qed.

Lemma removelast_cons2 {A} (a b : A) l :
  removelast (a :: b :: l) = a :: removelast (b :: l).
Proof. reflexivity. Qed.

Lemma in_removelast {A} (a : A) l : In a (removelast l) -> In a l.
Proof.
  induction l as [| b l IH]; [intros [] |].
  destruct l as [| c l]; [intros [] |].
  rewrite removelast_cons2. intros [E | H]; [left; exact E | right; apply IH, H].
Qed.

Lemma Forall_removelast {A} (P : A -> Prop) l :
  Forall P l -> Forall P (removelast l).
Proof.
  intros H. apply Forall_forall. intros a Ha.
  rewrite Forall_forall in H. apply H, in_removelast, Ha.
Qed.

Lemma NoDup_removelast {A} (l : list A) : NoDup l -> NoDup (removelast l).
Proof.
  induction l as [| b l IH]; intros H; [constructor |].
  destruct l as [| c l]; [constructor |].
  rewrite removelast_cons2. inversion H as [| ? ? Hb Hl]; subst.
  constructor; [| apply IH, Hl].
  intros Hin. apply Hb, in_removelast, Hin.
Qed.

Lemma contiguous_removelast l : contiguous l -> contiguous (removelast l).
Proof.
  induction l as [| a l IH]; intros H; [exact I |].
  destruct l as [| b l]; [exact I |].
  rewrite removelast_cons2. destruct H as [Hab Ht].
  specialize (IH Ht). destruct l as [| c l]; [exact I |].
  rewrite removelast_cons2 in *. split; assumption.
Qed.

Lemma removelast_nonempty {A} (a b : A) l : removelast (a :: b :: l) <> [].
Proof. rewrite removelast_cons2. discriminate. Qed.

Lemma wellFormed_initial innerWidth : wellFormed innerWidth Grid.INITIAL_SNAKE.
Proof.
  unfold wellFormed, Grid.INITIAL_SNAKE. split; [discriminate |].
  split; [| split; [repeat constructor; intros [] | exact I]].
  repeat constructor; unfold Grid.inside, Grid.COLS, Grid.ROWS; cbn [px py];
    destruct (innerWidth <? 640); lia.
Qed.

(** The two ways [updateSnake] rebuilds the body keep it well formed. *)
Lemma wellFormed_grow innerWidth d first rest :
  wellFormed innerWidth (first :: rest) ->
  Grid.wallCollision innerWidth (Grid.move d first) = false ->
  Grid.selfCollision (first :: rest) (Grid.move d first) = false ->
  wellFormed innerWidth (Grid.move d first :: first :: rest).
Proof.
  intros (_ & Hin & Hnd & Hc) W S.
  assert (I : Grid.inside innerWidth (Grid.move d first)).
  { destruct (GridFacts.wallCollision_outside innerWidth (Grid.move d first)) as [_ K].
    unfold Grid.inside in *.
    unfold Grid.wallCollision in W. rewrite !orb_false_iff in W.
    destruct W as [[[W1 W2] W3] W4].
    apply Z.ltb_ge in W1, W3. rewrite Z.geb_leb in W2, W4.
    apply Z.leb_gt in W2, W4. lia. }
  assert (N : ~ In (Grid.move d first) (first :: rest)).
  { intros H. apply GridFacts.selfCollision_In in H. congruence. }
  split; [discriminate |]. split; [constructor; assumption |].
  split; [constructor; assumption |].
  split; [apply adjacent_move | exact Hc].
Qed.

Lemma wellFormed_slide innerWidth d first rest :
  wellFormed innerWidth (first :: rest) ->
  Grid.wallCollision innerWidth (Grid.move d first) = false ->
  Grid.selfCollision (first :: rest) (Grid.move d first) = false ->
  wellFormed innerWidth (removelast (Grid.move d first :: first :: rest)).
Proof.
  intros H W S. destruct (wellFormed_grow innerWidth d first rest H W S)
    as (_ & Hin & Hnd & Hc).
  split; [apply removelast_nonempty |].
  split; [apply Forall_removelast, Hin |].
  split; [apply NoDup_removelast, Hnd | apply contiguous_removelast, Hc].
Qed.

Section Runs.

Variable innerWidth : Z.
Variable detect :
  option Vision.Frame -> Vision.Frame -> Z -> Z -> MotionVector * option Vision.Frame.

Lemma updateSnake_wellFormed now windowWidth rx ry (w : SnakeGame.World) :
  wellFormed innerWidth (SnakeGame.snake (SnakeGame.refs w)) ->
  wellFormed innerWidth
    (SnakeGame.snake (SnakeGame.refs (SnakeGame.updateSnake innerWidth now windowWidth rx ry w))).
Proof.
  intros H. unfold SnakeGame.updateSnake.
  destruct (SnakeGame.snake (SnakeGame.refs w)) as [| first rest] eqn:Hs;
    [rewrite Hs; exact H |].
  cbv zeta.
  destruct (Grid.wallCollision innerWidth _) eqn:W;
    [cbn [SnakeGame.gameOver SnakeGame.commit SnakeGame.refs]; rewrite Hs; exact H |].
  destruct (Grid.selfCollision _ _) eqn:S;
    [cbn [SnakeGame.gameOver SnakeGame.commit SnakeGame.refs]; rewrite Hs; exact H |].
  destruct (Position_eqb _ _);
    cbn [SnakeGame.commit SnakeGame.withRefs SnakeGame.refs SnakeGame.snake].
  - apply wellFormed_grow; assumption.
  - apply wellFormed_slide; assumption.
Qed.

Lemma tick_wellFormed t (w : SnakeGame.World) :
  wellFormed innerWidth (SnakeGame.snake (SnakeGame.refs w)) ->
  wellFormed innerWidth
    (SnakeGame.snake (SnakeGame.refs (SnakeGame.tick innerWidth detect t w))).
Proof.
  intros H. unfold SnakeGame.tick, SnakeGame.loop. cbv zeta.
  destruct (negb _); [exact H |].
  assert (K : SnakeGame.snake (SnakeGame.refs (SnakeGame.perceive detect (Grid.image t) w))
              = SnakeGame.snake (SnakeGame.refs w)).
  { unfold SnakeGame.perceive. destruct (Grid.image t) as [data |]; [| reflexivity].
    apply SnakeGameFacts.sense_keeps. }
  destruct (SnakeGame.due _ _); [| rewrite K; exact H].
  unfold SnakeGame.setLastUpdate, SnakeGame.withRefs.
  cbn [SnakeGame.refs SnakeGame.snake].
  apply updateSnake_wellFormed. rewrite K. exact H.
Qed.

Lemma play_wellFormed ticks (w : SnakeGame.World) :
  wellFormed innerWidth (SnakeGame.snake (SnakeGame.refs w)) ->
  wellFormed innerWidth
    (SnakeGame.snake (SnakeGame.refs (SnakeGame.play innerWidth detect ticks w))).
Proof.
  revert w. induction ticks as [| t ticks IH]; intros w H; [exact H |].
  change (SnakeGame.play innerWidth detect (t :: ticks) w)
    with (SnakeGame.play innerWidth detect ticks (SnakeGame.tick innerWidth detect t w)).
  apply IH, tick_wellFormed, H.
Qed.

Lemma updateSnake_wellFormed_ref now windowWidth rx ry (w : SnakeGameRef.World) :
  wellFormed innerWidth (SnakeGameRef.snake (SnakeGameRef.refs w)) ->
  wellFormed innerWidth
    (SnakeGameRef.snake (SnakeGameRef.refs (SnakeGameRef.updateSnake innerWidth now windowWidth rx ry w))).
Proof.
  intros H. unfold SnakeGameRef.updateSnake.
  destruct (SnakeGameRef.snake (SnakeGameRef.refs w)) as [| first rest] eqn:Hs;
    [rewrite Hs; exact H |].
  cbv zeta.
  destruct (Grid.wallCollision innerWidth _) eqn:W;
    [cbn [SnakeGameRef.gameOver SnakeGameRef.commit SnakeGameRef.refs]; rewrite Hs; exact H |].
  destruct (Grid.selfCollision _ _) eqn:S;
    [cbn [SnakeGameRef.gameOver SnakeGameRef.commit SnakeGameRef.refs]; rewrite Hs; exact H |].
  destruct (Position_eqb _ _);
    cbn [SnakeGameRef.commit SnakeGameRef.withRefs SnakeGameRef.refs SnakeGameRef.snake].
  - apply wellFormed_grow; assumption.
  - apply wellFormed_slide; assumption.
Qed.

Lemma tick_wellFormed_ref t (w : SnakeGameRef.World) :
  wellFormed innerWidth (SnakeGameRef.snake (SnakeGameRef.refs w)) ->
  wellFormed innerWidth
    (SnakeGameRef.snake (SnakeGameRef.refs (SnakeGameRef.tick innerWidth detect t w))).
Proof.
  intros H. unfold SnakeGameRef.tick, SnakeGameRef.loop. cbv zeta.
  destruct (negb _); [exact H |].
  destruct (SnakeGameRefFacts.perceive_keeps detect (Grid.image t) w) as (K & _ & _).
  destruct (SnakeGameRef.due _ _); [| rewrite K; exact H].
  unfold SnakeGameRef.setLastUpdate, SnakeGameRef.withRefs.
  cbn [SnakeGameRef.refs SnakeGameRef.snake].
  apply updateSnake_wellFormed_ref. rewrite K. exact H.
Qed.

Lemma play_wellFormed_ref ticks (w : SnakeGameRef.World) :
  wellFormed innerWidth (SnakeGameRef.snake (SnakeGameRef.refs w)) ->
  wellFormed innerWidth
    (SnakeGameRef.snake (SnakeGameRef.refs (SnakeGameRef.play innerWidth detect ticks w))).
Proof.
  revert w. induction ticks as [| t ticks IH]; intros w H; [exact H |].
  change (SnakeGameRef.play innerWidth detect (t :: ticks) w)
    with (SnakeGameRef.play innerWidth detect ticks (SnakeGameRef.tick innerWidth detect t w)).
  apply IH, tick_wellFormed_ref, H.
Qed.

(** A run of [SnakeGame.tsx] that did start, and any run of the later
    text, keep the body well formed. *)
Lemma run_wellFormed apiKey rx ry ticks (w : SnakeGame.World) :
  SnakeGame.gameState (SnakeGame.hooks w) <> PLAYING ->
  SnakeGame.gameState (SnakeGame.hooks (SnakeGame.startGame innerWidth apiKey rx ry w))
  = PLAYING ->
  wellFormed innerWidth
    (SnakeGame.snake (SnakeGame.refs
       (SnakeGame.play innerWidth detect ticks
          (SnakeGame.startGame innerWidth apiKey rx ry w)))).
Proof.
  intros Hn Hp. apply play_wellFormed.
  revert Hp. unfold SnakeGame.startGame.
  destruct (negb apiKey); [intros E; congruence |].
  destruct (Grid.blank _); [intros E; congruence |].
  intros _. apply wellFormed_initial.
Qed.

Lemma run_wellFormed_ref rx ry ticks (w : SnakeGameRef.World) :
  wellFormed innerWidth
    (SnakeGameRef.snake (SnakeGameRef.refs
       (SnakeGameRef.play innerWidth detect ticks
          (SnakeGameRef.startGame innerWidth rx ry w)))).
Proof. apply play_wellFormed_ref, wellFormed_initial. Qed.

End Runs.

End BodyFacts.

(** X1.  From the start of a run on, through any series of animation
    frames (whatever the camera shows and wherever the food is put),
    the snake is never empty and every segment, the head first, lies
    inside the grid [0, COLS) x [0, ROWS); this holds in both
    component texts, also once the run has ended. *)
Theorem snake_stays_inside_the_grid (innerWidth : Z) (rx ry : Q) :
  (forall detect apiKey (w : SnakeGame.World) ticks,
      SnakeGame.gameState (SnakeGame.hooks w) <> PLAYING ->
      SnakeGame.gameState (SnakeGame.hooks (SnakeGame.startGame innerWidth apiKey rx ry w))
      = PLAYING ->
      let s := SnakeGame.snake (SnakeGame.refs
                 (SnakeGame.play innerWidth detect ticks
                    (SnakeGame.startGame innerWidth apiKey rx ry w))) in
      s <> [] /\ Forall (Grid.inside innerWidth) s) /\
  (forall detect (w : SnakeGameRef.World) ticks,
      let s := SnakeGameRef.snake (SnakeGameRef.refs
                 (SnakeGameRef.play innerWidth detect ticks
                    (SnakeGameRef.startGame innerWidth rx ry w))) in
      s <> [] /\ Forall (Grid.inside innerWidth) s).
Proof.
  split.
  - intros detect apiKey w ticks Hn Hp s.
    destruct (BodyFacts.run_wellFormed innerWidth detect apiKey rx ry ticks w Hn Hp)
      as (A & B & _).
    split; assumption.
  - intros detect w ticks s.
    destruct (BodyFacts.run_wellFormed_ref innerWidth detect rx ry ticks w) as (A & B & _).
    split; assumption.
Qed.

Lemma snake_stays_inside_the_grid_witness :
  Forall (Grid.inside 1024)
         (SnakeGame.snake (SnakeGame.refs
            (SnakeGame.play 1024 Vision.Mirrored.detectMotion sampleTicks sampleStart))).
Proof.
  assert (Hn : SnakeGame.gameState (SnakeGame.hooks (SnakeGame.initialWorld "Ada" None))
               <> PLAYING) by discriminate.
  exact (proj2 (proj1 (snake_stays_inside_the_grid 1024 (38 # 100) (1 # 2))
                      Vision.Mirrored.detectMotion true
                      (SnakeGame.initialWorld "Ada" None) sampleTicks Hn eq_refl)).
Defined.

(** X2.  Through any series of animation frames of a run, no two
    segments of the snake occupy the same cell (both component
    texts). *)
Theorem snake_never_overlaps_itself (innerWidth : Z) (rx ry : Q) :
  (forall detect apiKey (w : SnakeGame.World) ticks,
      SnakeGame.gameState (SnakeGame.hooks w) <> PLAYING ->
      SnakeGame.gameState (SnakeGame.hooks (SnakeGame.startGame innerWidth apiKey rx ry w))
      = PLAYING ->
      NoDup (SnakeGame.snake (SnakeGame.refs
               (SnakeGame.play innerWidth detect ticks
                  (SnakeGame.startGame innerWidth apiKey rx ry w))))) /\
  (forall detect (w : SnakeGameRef.World) ticks,
      NoDup (SnakeGameRef.snake (SnakeGameRef.refs
               (SnakeGameRef.play innerWidth detect ticks
                  (SnakeGameRef.startGame innerWidth rx ry w))))).
Proof.
  split.
  - intros detect apiKey w ticks Hn Hp.
    apply (BodyFacts.run_wellFormed innerWidth detect apiKey rx ry ticks w Hn Hp).
  - intros detect w ticks.
    apply (BodyFacts.run_wellFormed_ref innerWidth detect rx ry ticks w).
Qed.

Lemma snake_never_overlaps_itself_witness :
  NoDup (SnakeGame.snake (SnakeGame.refs
           (SnakeGame.play 1024 Vision.Mirrored.detectMotion sampleTicks sampleStart))).
Proof.
  assert (Hn : SnakeGame.gameState (SnakeGame.hooks (SnakeGame.initialWorld "Ada" None))
               <> PLAYING) by discriminate.
  exact (proj1 (snake_never_overlaps_itself 1024 (38 # 100) (1 # 2))
               Vision.Mirrored.detectMotion true
               (SnakeGame.initialWorld "Ada" None) sampleTicks Hn eq_refl).
Defined.

(** X3.  Through any series of animation frames of a run, the body
    is one connected path: each segment is exactly one cell away
    (horizontally or vertically) from the next (both component
    texts). *)
Theorem snake_body_is_connected (innerWidth : Z) (rx ry : Q) :
  (forall detect apiKey (w : SnakeGame.World) ticks,
      SnakeGame.gameState (SnakeGame.hooks w) <> PLAYING ->
      SnakeGame.gameState (SnakeGame.hooks (SnakeGame.startGame innerWidth apiKey rx ry w))
      = PLAYING ->
      Body.contiguous (SnakeGame.snake (SnakeGame.refs
                         (SnakeGame.play innerWidth detect ticks
                            (SnakeGame.startGame innerWidth apiKey rx ry w))))) /\
  (forall detect (w : SnakeGameRef.World) ticks,
      Body.contiguous (SnakeGameRef.snake (SnakeGameRef.refs
                         (SnakeGameRef.play innerWidth detect ticks
                            (SnakeGameRef.startGame innerWidth rx ry w))))).
Proof.
  split.
  - intros detect apiKey w ticks Hn Hp.
    apply (BodyFacts.run_wellFormed innerWidth detect apiKey rx ry ticks w Hn Hp).
  - intros detect w ticks.
    apply (BodyFacts.run_wellFormed_ref innerWidth detect rx ry ticks w).
Qed.

Lemma snake_body_is_connected_witness :
  Body.contiguous (SnakeGame.snake (SnakeGame.refs
                     (SnakeGame.play 1024 Vision.Mirrored.detectMotion sampleTicks sampleStart))).
Proof.
  assert (Hn : SnakeGame.gameState (SnakeGame.hooks (SnakeGame.initialWorld "Ada" None))
               <> PLAYING) by discriminate.
  exact (proj1 (snake_body_is_connected 1024 (38 # 100) (1 # 2))
               Vision.Mirrored.detectMotion true
               (SnakeGame.initialWorld "Ada" None) sampleTicks Hn eq_refl).
Defined.

(* ================================================================= *)
(** ** Pace of the simulation *)

Module PaceFacts.

Section Pace.

Variable innerWidth : Z.
Variable detect :
  option Vision.Frame -> Vision.Frame -> Z -> Z -> MotionVector * option Vision.Frame.

Lemma perceive_keeps_all frame (w : SnakeGame.World) :
  let w' := SnakeGame.perceive detect frame w in
  SnakeGame.snake (SnakeGame.refs w') = SnakeGame.snake (SnakeGame.refs w) /\
  SnakeGame.food (SnakeGame.refs w') = SnakeGame.food (SnakeGame.refs w) /\
  SnakeGame.lastUpdate (SnakeGame.refs w') = SnakeGame.lastUpdate (SnakeGame.refs w) /\
  SnakeGame.hooks w' = SnakeGame.hooks w /\
  SnakeGame.closure w' = SnakeGame.closure w /\
  SnakeGame.storage w' = SnakeGame.storage w.
Proof.
  unfold SnakeGame.perceive, SnakeGame.sense. destruct frame as [data |]; [| repeat split].
  destruct (detect (SnakeGame.prevFrame w) data 320 240) as [raw prev'].
  repeat split.
Qed.

Lemma perceive_keeps_all_ref frame (w : SnakeGameRef.World) :
  let w' := SnakeGameRef.perceive detect frame w in
  SnakeGameRef.snake (SnakeGameRef.refs w') = SnakeGameRef.snake (SnakeGameRef.refs w) /\
  SnakeGameRef.food (SnakeGameRef.refs w') = SnakeGameRef.food (SnakeGameRef.refs w) /\
  SnakeGameRef.lastUpdate (SnakeGameRef.refs w') = SnakeGameRef.lastUpdate (SnakeGameRef.refs w) /\
  SnakeGameRef.scoreRef (SnakeGameRef.refs w') = SnakeGameRef.scoreRef (SnakeGameRef.refs w) /\
  SnakeGameRef.hooks w' = SnakeGameRef.hooks w /\
  SnakeGameRef.closure w' = SnakeGameRef.closure w /\
  SnakeGameRef.storage w' = SnakeGameRef.storage w.
Proof.
  unfold SnakeGameRef.perceive, SnakeGameRef.sense. destruct frame as [data |]; [| repeat split].
  destruct (detect (SnakeGameRef.prevFrame w) data 320 240) as [raw prev'].
  repeat split.
Qed.

(** What a frame leaves untouched when it comes too early. *)
Definition same (w w' : SnakeGame.World) : Prop :=
  SnakeGame.snake (SnakeGame.refs w') = SnakeGame.snake (SnakeGame.refs w) /\
  SnakeGame.food (SnakeGame.refs w') = SnakeGame.food (SnakeGame.refs w) /\
  SnakeGame.lastUpdate (SnakeGame.refs w') = SnakeGame.lastUpdate (SnakeGame.refs w) /\
  SnakeGame.hooks w' = SnakeGame.hooks w /\
  SnakeGame.closure w' = SnakeGame.closure w /\
  SnakeGame.storage w' = SnakeGame.storage w.

Definition same_ref (w w' : SnakeGameRef.World) : Prop :=
  SnakeGameRef.snake (SnakeGameRef.refs w') = SnakeGameRef.snake (SnakeGameRef.refs w) /\
  SnakeGameRef.food (SnakeGameRef.refs w') = SnakeGameRef.food (SnakeGameRef.refs w) /\
  SnakeGameRef.lastUpdate (SnakeGameRef.refs w') = SnakeGameRef.lastUpdate (SnakeGameRef.refs w) /\
  SnakeGameRef.scoreRef (SnakeGameRef.refs w') = SnakeGameRef.scoreRef (SnakeGameRef.refs w) /\
  SnakeGameRef.hooks w' = SnakeGameRef.hooks w /\
  SnakeGameRef.closure w' = SnakeGameRef.closure w /\
  SnakeGameRef.storage w' = SnakeGameRef.storage w.

Lemma early_tick t (w : SnakeGame.World) :
  (Grid.at_ t - SnakeGame.lastUpdate (SnakeGame.refs w) <= 150)%Q ->
  same w (SnakeGame.tick innerWidth detect t w).
Proof.
  intros H. unfold SnakeGame.tick, SnakeGame.loop. cbv zeta.
  destruct (negb _); [repeat split |].
  pose proof (perceive_keeps_all (Grid.image t) w) as K. cbv zeta in K.
  assert (D : SnakeGame.due (Grid.at_ t) (SnakeGame.perceive detect (Grid.image t) w) = false).
  { unfold SnakeGame.due. destruct K as (_ & _ & L & _). rewrite L.
    apply NumFacts.Qlt_bool_false. exact H. }
  rewrite D. exact K.
Qed.

Lemma early_tick_ref t (w : SnakeGameRef.World) :
  (Grid.at_ t - SnakeGameRef.lastUpdate (SnakeGameRef.refs w)
   <= inject_Z (SnakeGameRef.currentSpeed (SnakeGameRef.scoreRef (SnakeGameRef.refs w))))%Q ->
  same_ref w (SnakeGameRef.tick innerWidth detect t w).
Proof.
  intros H. unfold SnakeGameRef.tick, SnakeGameRef.loop. cbv zeta.
  destruct (negb _); [repeat split |].
  pose proof (perceive_keeps_all_ref (Grid.image t) w) as K. cbv zeta in K.
  assert (D : SnakeGameRef.due (Grid.at_ t)
                (SnakeGameRef.perceive detect (Grid.image t) w) = false).
  { unfold SnakeGameRef.due. destruct K as (_ & _ & L & S & _). rewrite L, S.
    apply NumFacts.Qlt_bool_false. exact H. }
  rewrite D. exact K.
Qed.

Lemma early_play ticks (w : SnakeGame.World) :
  (forall t, In t ticks ->
             (Grid.at_ t - SnakeGame.lastUpdate (SnakeGame.refs w) <= 150)%Q) ->
  same w (SnakeGame.play innerWidth detect ticks w).
Proof.
  revert w. induction ticks as [| t ticks IH]; intros w H; [repeat split |].
  change (SnakeGame.play innerWidth detect (t :: ticks) w)
    with (SnakeGame.play innerWidth detect ticks (SnakeGame.tick innerWidth detect t w)).
  pose proof (early_tick t w (H t (or_introl eq_refl))) as (A & B & C & D & E & F).
  assert (H' : forall u, In u ticks ->
                 (Grid.at_ u - SnakeGame.lastUpdate
                                 (SnakeGame.refs (SnakeGame.tick innerWidth detect t w))
                  <= 150)%Q).
  { intros u Hu. rewrite C. apply H. right. exact Hu. }
  destruct (IH _ H') as (A' & B' & C' & D' & E' & F').
  unfold same. rewrite A', B', C', D', E', F'. repeat split; assumption.
Qed.

Lemma early_play_ref ticks (w : SnakeGameRef.World) :
  (forall t, In t ticks ->
             (Grid.at_ t - SnakeGameRef.lastUpdate (SnakeGameRef.refs w)
              <= inject_Z (SnakeGameRef.currentSpeed
                             (SnakeGameRef.scoreRef (SnakeGameRef.refs w))))%Q) ->
  same_ref w (SnakeGameRef.play innerWidth detect ticks w).
Proof.
  revert w. induction ticks as [| t ticks IH]; intros w H; [repeat split |].
  change (SnakeGameRef.play innerWidth detect (t :: ticks) w)
    with (SnakeGameRef.play innerWidth detect ticks (SnakeGameRef.tick innerWidth detect t w)).
  pose proof (early_tick_ref t w (H t (or_introl eq_refl))) as (A & B & C & S & D & E & F).
  assert (H' : forall u, In u ticks ->
                 (Grid.at_ u - SnakeGameRef.lastUpdate
                                 (SnakeGameRef.refs (SnakeGameRef.tick innerWidth detect t w))
                  <= inject_Z (SnakeGameRef.currentSpeed
                                 (SnakeGameRef.scoreRef
                                    (SnakeGameRef.refs
                                       (SnakeGameRef.tick innerWidth detect t w)))))%Q).
  { intros u Hu. rewrite C, S. apply H. right. exact Hu. }
  destruct (IH _ H') as (A' & B' & C' & S' & D' & E' & F').
  unfold same_ref. rewrite A', B', C', S', D', E', F'. repeat split; assumption.
Qed.

End Pace.

End PaceFacts.

(** X4.  A frame that advances the snake records its time stamp, and
    no later frame moves the snake, the food, the score, the state or
    the store before more than the step has passed since then: 150 ms
    in [SnakeGame.tsx], [max(60, 250 - 5 * score)] ms, so at least
    60 ms, in the later text.  Frames in between only update the
    steering. *)
Theorem no_advance_before_the_step_has_passed (innerWidth : Z)
        (detect : option Vision.Frame -> Vision.Frame -> Z -> Z ->
                  MotionVector * option Vision.Frame) :
  (forall ticks (w : SnakeGame.World),
      (forall t, In t ticks ->
                 (Grid.at_ t <= SnakeGame.lastUpdate (SnakeGame.refs w) + 150)%Q) ->
      let w' := SnakeGame.play innerWidth detect ticks w in
      SnakeGame.snake (SnakeGame.refs w') = SnakeGame.snake (SnakeGame.refs w) /\
      SnakeGame.food (SnakeGame.refs w') = SnakeGame.food (SnakeGame.refs w) /\
      SnakeGame.hooks w' = SnakeGame.hooks w /\
      SnakeGame.storage w' = SnakeGame.storage w) /\
  (forall t (w : SnakeGame.World),
      SnakeGame.gameState (SnakeGame.closure w) = PLAYING ->
      (SnakeGame.lastUpdate (SnakeGame.refs w) + 150 < Grid.at_ t)%Q ->
      SnakeGame.lastUpdate (SnakeGame.refs (SnakeGame.tick innerWidth detect t w))
      = Grid.at_ t) /\
  (forall ticks (w : SnakeGameRef.World),
      (forall t, In t ticks ->
                 (Grid.at_ t <= SnakeGameRef.lastUpdate (SnakeGameRef.refs w)
                                + inject_Z (Z.max 60 (250 - 5 * SnakeGameRef.scoreRef
                                                                 (SnakeGameRef.refs w))))%Q) ->
      let w' := SnakeGameRef.play innerWidth detect ticks w in
      SnakeGameRef.snake (SnakeGameRef.refs w') = SnakeGameRef.snake (SnakeGameRef.refs w) /\
      SnakeGameRef.food (SnakeGameRef.refs w') = SnakeGameRef.food (SnakeGameRef.refs w) /\
      SnakeGameRef.scoreRef (SnakeGameRef.refs w') = SnakeGameRef.scoreRef (SnakeGameRef.refs w) /\
      SnakeGameRef.hooks w' = SnakeGameRef.hooks w /\
      SnakeGameRef.storage w' = SnakeGameRef.storage w) /\
  (forall t (w : SnakeGameRef.World),
      SnakeGameRef.gameState (SnakeGameRef.closure w) = PLAYING ->
      (SnakeGameRef.lastUpdate (SnakeGameRef.refs w)
       + inject_Z (Z.max 60 (250 - 5 * SnakeGameRef.scoreRef (SnakeGameRef.refs w)))
       < Grid.at_ t)%Q ->
      SnakeGameRef.lastUpdate (SnakeGameRef.refs (SnakeGameRef.tick innerWidth detect t w))
      = Grid.at_ t).
Proof.
  split; [| split; [| split]].
  - intros ticks w H w'.
    destruct (PaceFacts.early_play innerWidth detect ticks w) as (A & B & _ & D & _ & F).
    { intros t Ht. specialize (H t Ht). lra. }
    repeat split; assumption.
  - intros t w Hp H. unfold SnakeGame.tick, SnakeGame.loop. rewrite Hp.
    cbn [GameState_eqb negb]. cbv zeta.
    destruct (PaceFacts.perceive_keeps_all detect (Grid.image t) w) as (_ & _ & L & _).
    assert (D : SnakeGame.due (Grid.at_ t) (SnakeGame.perceive detect (Grid.image t) w) = true).
    { unfold SnakeGame.due. rewrite L. apply NumFacts.Qlt_bool_iff.
      unfold SnakeGame.INITIAL_SNAKE_SPEED. change (inject_Z 150) with 150%Q. lra. }
    rewrite D. reflexivity.
  - intros ticks w H w'.
    destruct (PaceFacts.early_play_ref innerWidth detect ticks w)
      as (A & B & _ & S & D & _ & F).
    { intros t Ht. specialize (H t Ht).
      unfold SnakeGameRef.currentSpeed, SnakeGameRef.MIN_SPEED, SnakeGameRef.BASE_SPEED,
        SnakeGameRef.SPEED_DECREMENT.
      replace (250 - SnakeGameRef.scoreRef (SnakeGameRef.refs w) * 5)
        with (250 - 5 * SnakeGameRef.scoreRef (SnakeGameRef.refs w)) by lia.
      lra. }
    repeat split; assumption.
  - intros t w Hp H. unfold SnakeGameRef.tick, SnakeGameRef.loop. rewrite Hp.
    cbn [GameState_eqb negb]. cbv zeta.
    destruct (PaceFacts.perceive_keeps_all_ref detect (Grid.image t) w)
      as (_ & _ & L & S & _).
    assert (D : SnakeGameRef.due (Grid.at_ t)
                  (SnakeGameRef.perceive detect (Grid.image t) w) = true).
    { unfold SnakeGameRef.due. rewrite L, S. apply NumFacts.Qlt_bool_iff.
      unfold SnakeGameRef.currentSpeed, SnakeGameRef.MIN_SPEED, SnakeGameRef.BASE_SPEED,
        SnakeGameRef.SPEED_DECREMENT.
      replace (250 - SnakeGameRef.scoreRef (SnakeGameRef.refs w) * 5)
        with (250 - 5 * SnakeGameRef.scoreRef (SnakeGameRef.refs w)) by lia.
      lra. }
    rewrite D. reflexivity.
Qed.

(** Right after the start (last advance at 0), frames at 16, 33, 50
    and 150 ms leave the snake where it is. *)
Lemma no_advance_before_the_step_has_passed_witness :
  let ticks := map (fun a => Grid.mkTick a None 5000 0 0 1024) [16; 33; 50; 150]%Q in
  SnakeGame.snake (SnakeGame.refs
     (SnakeGame.play 1024 Vision.Mirrored.detectMotion ticks sampleStart))
  = [mkPos 10 10].
Proof.
  intros ticks.
  refine (proj1 (proj1 (no_advance_before_the_step_has_passed 1024
                          Vision.Mirrored.detectMotion) ticks sampleStart _)).
  intros t Ht. cbn in Ht.
  destruct Ht as [<- | [<- | [<- | [<- | []]]]];
    unfold Qle; vm_compute; intros E; discriminate E.
Defined.

(* ================================================================= *)
(** ** More on the Direction Arbiter *)

Module ArbiterMore.

Import Arbiter NumFacts ArbiterFacts.

Lemma beyond_is_number T s :
  gtb (abs s) (Num T) = true -> exists q, s = Num q /\ (T < Qabs q)%Q.
Proof.
  destruct s as [q |]; [| discriminate].
  intros H. exists q. split; [reflexivity | apply gtb_Num, H].
Qed.

Lemma nonzero_sign T q :
  (0 <= T)%Q -> (T < Qabs q)%Q -> (0 < q)%Q \/ (q < 0)%Q.
Proof.
  intros HT H. destruct (Qlt_le_dec 0 q) as [P | N]; [left; exact P | right].
  destruct (Qlt_le_dec q 0) as [L | G]; [exact L |].
  exfalso. assert (E : (q == 0)%Q) by lra.
  rewrite E in H. change (Qabs 0) with 0%Q in H. lra.
Qed.

(** One axis of the two texts: with a sign known they agree. *)
Lemma axis_agrees (T : Q) (s : num) (pos neg d : Direction) :
  (0 <= T)%Q -> gtb (abs s) (Num T) = true ->
  (if ltb s (Num 0)
      && negb (Direction_eqb
                 (if gtb s (Num 0) && negb (Direction_eqb d neg) then pos else d) pos)
   then neg
   else if gtb s (Num 0) && negb (Direction_eqb d neg) then pos else d)
  = (if gtb s (Num 0)
     then if negb (Direction_eqb d neg) then pos else d
     else if negb (Direction_eqb d pos) then neg else d).
Proof.
  intros HT H. destruct (beyond_is_number T s H) as [q [-> Hq]].
  destruct (nonzero_sign T q HT Hq) as [P | N].
  - rewrite (positive_gt q P), (positive_not_negative q P). cbn [andb].
    destruct (negb (Direction_eqb d neg)); reflexivity.
  - rewrite (negative_not_positive q N), (negative_lt q N). cbn [andb].
    reflexivity.
Qed.

Lemma blocks_agree (T : Q) (sx sy : num) (d : Direction) :
  (0 <= T)%Q -> steer T sx sy d = steerCandidate T sx sy d.
Proof.
  intros HT. unfold steer, steerCandidate. cbv zeta.
  destruct (gtb (abs sx) (abs sy)).
  - destruct (gtb (abs sx) (Num T)) eqn:E; [| reflexivity].
    rewrite (axis_agrees T sx RIGHT LEFT d HT E).
    destruct (gtb sx (Num 0)), d; reflexivity.
  - destruct (gtb (abs sy) (Num T)) eqn:E; [| reflexivity].
    rewrite (axis_agrees T sy DOWN UP d HT E).
    destruct (gtb sy (Num 0)), d; reflexivity.
Qed.

(** A vector along one axis, beyond the dead zone. *)
Lemma steer_along_x T q d :
  (0 <= T)%Q -> (T < Qabs q)%Q ->
  steer T (Num q) (Num 0) d
  = if Qlt_bool 0 q
    then if Direction_eqb d LEFT then d else RIGHT
    else if Direction_eqb d RIGHT then d else LEFT.
Proof.
  intros HT H. unfold steer. cbv zeta.
  assert (G : gtb (abs (Num q)) (abs (Num 0)) = true).
  { apply gtb_Num. change (Qabs 0) with 0%Q. lra. }
  rewrite G, (beyond_dead_zone T q H).
  destruct (nonzero_sign T q HT H) as [P | N].
  - rewrite (positive_gt q P), (positive_not_negative q P).
    apply Qlt_bool_iff in P. rewrite P. destruct d; reflexivity.
  - rewrite (negative_not_positive q N), (negative_lt q N).
    assert (F : Qlt_bool 0 q = false) by (apply Qlt_bool_false; lra).
    rewrite F. destruct d; reflexivity.
Qed.

Lemma steer_along_y T q d :
  (0 <= T)%Q -> (T < Qabs q)%Q ->
  steer T (Num 0) (Num q) d
  = if Qlt_bool 0 q
    then if Direction_eqb d UP then d else DOWN
    else if Direction_eqb d DOWN then d else UP.
Proof.
  intros HT H. unfold steer. cbv zeta.
  assert (G : gtb (abs (Num 0)) (abs (Num q)) = false).
  { cbn [abs gtb]. apply Qlt_bool_false. change (Qabs 0) with 0%Q. lra. }
  rewrite G, (beyond_dead_zone T q H).
  destruct (nonzero_sign T q HT H) as [P | N].
  - rewrite (positive_gt q P), (positive_not_negative q P).
    apply Qlt_bool_iff in P. rewrite P. destruct d; reflexivity.
  - rewrite (negative_not_positive q N), (negative_lt q N).
    assert (F : Qlt_bool 0 q = false) by (apply Qlt_bool_false; lra).
    rewrite F. destruct d; reflexivity.
Qed.

End ArbiterMore.

(** X5.  The direction block of [SnakeGame.tsx] (two guarded
    assignments) and that of the later text (a candidate direction
    committed unless it is the reverse) choose the same direction for
    every smoothed vector, NaN included, every current direction and
    every dead zone that is not negative. *)
Theorem both_direction_blocks_agree (T : Q) (sx sy : num) (d : Direction) :
  (0 <= T)%Q ->
  Arbiter.steer T sx sy d = Arbiter.steerCandidate T sx sy d.
Proof.
  exact (ArbiterMore.blocks_agree T sx sy d).
Qed.

Lemma both_direction_blocks_agree_witness :
  Arbiter.steer (3 # 10) (Num (- 1 # 2)) (Num (1 # 4)) UP
  = Arbiter.steerCandidate (3 # 10) (Num (- 1 # 2)) (Num (1 # 4)) UP.
Proof.
  assert (H : (0 <= 3 # 10)%Q) by (unfold Qle; simpl; lia).
  exact (both_direction_blocks_agree (3 # 10) (Num (- 1 # 2)) (Num (1 # 4)) UP H).
Defined.

(* ================================================================= *)
(** ** More on the Motion Extractor *)

Module MotionFacts.

Import Vision Motion NumFacts VisionFacts.

Lemma fold_visit_count noise data prev width l t :
  changeCount t
  <= changeCount (fold_left (visit noise data prev width) l t)
  <= changeCount t + Z.of_nat (List.length l).
Proof.
  revert t. induction l as [| p l IH]; intros t.
  - cbn [fold_left List.length]. lia.
  - cbn [fold_left]. specialize (IH (visit noise data prev width t p)).
    assert (V : changeCount t <= changeCount (visit noise data prev width t p)
                <= changeCount t + 1).
    { unfold visit. destruct (changed noise data prev width p); cbn [changeCount]; lia. }
    cbn [List.length]. lia.
Qed.

Lemma scan_count stride noise prevFrame data width height :
  0 <= changeCount (scan stride noise prevFrame data width height)
  <= Z.of_nat (List.length (sampled stride width height)).
Proof.
  unfold scan. destruct prevFrame as [prev |]; [| cbn [changeCount]; lia].
  destruct (List.length prev =? List.length data)%nat; [| cbn [changeCount]; lia].
  pose proof (fold_visit_count noise data prev width (sampled stride width height)
                (mkTotals 0 0 0)) as H.
  cbn [changeCount] in H. lia.
Qed.

Lemma fold_visit_box noise data prev width xlo xhi ylo yhi l :
  (forall p, In p l -> changed noise data prev width p = true ->
             xlo <= fst p <= xhi /\ ylo <= snd p <= yhi) ->
  forall t, boxInvariant xlo xhi ylo yhi t ->
            boxInvariant xlo xhi ylo yhi (fold_left (visit noise data prev width) l t).
Proof.
  induction l as [| p l IH]; intros Hl t Ht; [exact Ht |].
  cbn [fold_left]. apply IH.
  - intros q Hq. apply Hl. right. exact Hq.
  - unfold visit. destruct (changed noise data prev width p) eqn:E; [| exact Ht].
    destruct (Hl p (or_introl eq_refl) E) as [Hx Hy].
    destruct Ht as (H0 & H1 & H2). unfold boxInvariant.
    cbn [totalX totalY changeCount]. repeat split; nia.
Qed.

Lemma scan_box stride noise prev data width height xlo xhi ylo yhi :
  changedWithin stride noise prev data width height xlo xhi ylo yhi ->
  boxInvariant xlo xhi ylo yhi (scan stride noise (Some prev) data width height).
Proof.
  intros H. unfold scan.
  destruct (List.length prev =? List.length data)%nat.
  - apply fold_visit_box; [exact H |].
    unfold boxInvariant; cbn [totalX totalY changeCount]; lia.
  - unfold boxInvariant; cbn [totalX totalY changeCount]; lia.
Qed.

(** The centroid of the changed pixels lies in their box. *)
Lemma quotient_in_box (lo hi total count : Z) :
  0 < count -> lo * count <= total <= hi * count ->
  (inject_Z lo <= inject_Z total / inject_Z count)%Q /\
  (inject_Z total / inject_Z count <= inject_Z hi)%Q.
Proof.
  intros Hc [Hl Hh].
  assert (C : (0 < inject_Z count)%Q).
  { change 0%Q with (inject_Z 0). rewrite <- Zlt_Qlt. exact Hc. }
  split.
  - apply Qle_shift_div_l; [exact C |].
    rewrite <- inject_Z_mult, <- Zle_Qle. exact Hl.
  - apply Qle_shift_div_r; [exact C |].
    rewrite <- inject_Z_mult, <- Zle_Qle. exact Hh.
Qed.

(** No pixel counts as changed while the channels stay within the
    noise threshold. *)
Lemma changed_quiet (bound : Z) data prev width p :
  quiet bound prev data -> changed (inject_Z bound) data prev width p = false.
Proof.
  intros H. unfold changed. apply Qlt_bool_false.
  apply Qle_shift_div_r; [reflexivity |].
  change 3%Q with (inject_Z 3). rewrite <- inject_Z_mult, <- Zle_Qle.
  pose proof (H ((snd p * width + fst p) * 4)).
  pose proof (H ((snd p * width + fst p) * 4 + 1)).
  pose proof (H ((snd p * width + fst p) * 4 + 2)).
  lia.
Qed.

Lemma scan_quiet stride (bound : Z) prevFrame data width height :
  (forall prev, prevFrame = Some prev -> quiet bound prev data) ->
  scan stride (inject_Z bound) prevFrame data width height = mkTotals 0 0 0.
Proof.
  intros H. unfold scan. destruct prevFrame as [prev |]; [| reflexivity].
  destruct (List.length prev =? List.length data)%nat; [| reflexivity].
  specialize (H prev eq_refl).
  generalize (mkTotals 0 0 0) as t.
  induction (sampled stride width height) as [| p l IH]; intros t; [reflexivity |].
  cbn [fold_left]. unfold visit at 2. rewrite (changed_quiet bound data prev width p H).
  apply IH.
Qed.

Section Pair.

Variables (prevFrame : option Frame) (data : Frame) (width height : Z).
Hypothesis Hw : 0 < width.
Hypothesis Hh : 0 < height.

(** The three outcomes of the mirrored text on a frame of positive
    size: below the threshold the zero vector, else the clamped
    vector with the count as intensity. *)
Lemma mirrored_cases :
  let t := scan Mirrored.stride 25 prevFrame data width height in
  let r := Mirrored.detectMotion prevFrame data width height in
  snd r = Some data /\
  (((inject_Z (changeCount t) < motionThreshold Mirrored.stride (1 # 1000) width height)%Q /\
    fst r = zeroVector) \/
   ((motionThreshold Mirrored.stride (1 # 1000) width height <= inject_Z (changeCount t))%Q /\
    0 < changeCount t /\
    fst r = mkMotion
              (Num (clamp ((inject_Z width / 2 - centroidX t)
                           / (inject_Z width / 2 * (5 # 10)))))
              (Num (clamp ((inject_Z (totalY t) / inject_Z (changeCount t)
                            - inject_Z height / 2)
                           / (inject_Z height / 2 * (5 # 10)))))
              (changeCount t))).
Proof.
  intros t r. subst r. unfold Mirrored.detectMotion. fold t.
  destruct (Qlt_bool (inject_Z (changeCount t)) _) eqn:E.
  - split; [reflexivity |]. left. split; [apply Qlt_bool_iff, E | reflexivity].
  - apply Qlt_bool_false in E.
    assert (C : 0 < changeCount t).
    { apply (threshold_reached_count Mirrored.stride (1 # 1000) width height);
        try assumption; reflexivity. }
    destruct (changeCount t =? 0) eqn:Z0; [apply Z.eqb_eq in Z0; lia |].
    split; [reflexivity |]. right. repeat split; assumption.
Qed.

Lemma plain_cases :
  let t := scan Plain.stride 40 prevFrame data width height in
  let r := Plain.detectMotion prevFrame data width height in
  snd r = Some data /\
  (((inject_Z (changeCount t) < motionThreshold Plain.stride (5 # 1000) width height)%Q /\
    fst r = zeroVector) \/
   ((motionThreshold Plain.stride (5 # 1000) width height <= inject_Z (changeCount t))%Q /\
    0 < changeCount t /\
    fst r = mkMotion
              (Num (clamp ((centroidX t - inject_Z width / 2)
                           / (inject_Z width / 2 * (6 # 10)))))
              (Num (clamp ((inject_Z (totalY t) / inject_Z (changeCount t)
                            - inject_Z height / 2)
                           / (inject_Z height / 2 * (6 # 10)))))
              (changeCount t))).
Proof.
  intros t r. subst r. unfold Plain.detectMotion. fold t.
  destruct (Qlt_bool (inject_Z (changeCount t)) _) eqn:E.
  - split; [reflexivity |]. left. split; [apply Qlt_bool_iff, E | reflexivity].
  - apply Qlt_bool_false in E.
    assert (C : 0 < changeCount t).
    { apply (threshold_reached_count Plain.stride (5 # 1000) width height);
        try assumption; reflexivity. }
    destruct (changeCount t =? 0) eqn:Z0; [apply Z.eqb_eq in Z0; lia |].
    split; [reflexivity |]. right. repeat split; assumption.
Qed.

End Pair.

Lemma zeroVector_inRange most : 0 <= most -> inRange zeroVector most.
Proof.
  intros H. exists 0%Q, 0%Q. unfold zeroVector. cbn [x y intensity].
  repeat split; try lra; try lia.
Qed.

Lemma mirrored_inRange prevFrame data width height :
  0 < width -> 0 < height ->
  inRange (fst (Mirrored.detectMotion prevFrame data width height))
          (Z.of_nat (List.length (sampled Mirrored.stride width height))).
Proof.
  intros Hw Hh.
  pose proof (scan_count Mirrored.stride 25 prevFrame data width height) as Hc.
  destruct (mirrored_cases prevFrame data width height Hw Hh) as [_ [[_ E] | (_ & C & E)]];
    rewrite E.
  - apply zeroVector_inRange. lia.
  - eexists _, _. cbn [x y intensity].
    split; [reflexivity |]. split; [reflexivity |].
    split; [apply clamp_range |]. split; [apply clamp_range |].
    split; [lia |]. intros Z0. lia.
Qed.

Lemma plain_inRange prevFrame data width height :
  0 < width -> 0 < height ->
  inRange (fst (Plain.detectMotion prevFrame data width height))
          (Z.of_nat (List.length (sampled Plain.stride width height))).
Proof.
  intros Hw Hh.
  pose proof (scan_count Plain.stride 40 prevFrame data width height) as Hc.
  destruct (plain_cases prevFrame data width height Hw Hh) as [_ [[_ E] | (_ & C & E)]];
    rewrite E.
  - apply zeroVector_inRange. lia.
  - eexists _, _. cbn [x y intensity].
    split; [reflexivity |]. split; [reflexivity |].
    split; [apply clamp_range |]. split; [apply clamp_range |].
    split; [lia |]. intros Z0. lia.
Qed.

End MotionFacts.

(** X7.  For every frame of positive width and height and every
    previous frame (or none), both texts of [detectMotion] return two
    numbers in [-1, 1] and an intensity between 0 and the number of
    sampled pixels; the intensity is 0 only together with the vector
    (0, 0). *)
Theorem extractor_output_is_bounded
        (prevFrame : option Vision.Frame) (data : Vision.Frame) (width height : Z) :
  0 < width -> 0 < height ->
  Motion.inRange (fst (Vision.Mirrored.detectMotion prevFrame data width height))
                 (Z.of_nat (List.length (Vision.sampled 8 width height))) /\
  Motion.inRange (fst (Vision.Plain.detectMotion prevFrame data width height))
                 (Z.of_nat (List.length (Vision.sampled 4 width height))).
Proof.
  intros Hw Hh. split.
  - apply MotionFacts.mirrored_inRange; assumption.
  - apply MotionFacts.plain_inRange; assumption.
Qed.

Lemma extractor_output_is_bounded_witness :
  Motion.inRange
    (fst (Vision.Mirrored.detectMotion
            (Some (Vision.blockFrame 32 16 0 0 0 0 0 0))
            (Vision.blockFrame 32 16 8 0 8 8 0 255) 32 16))
    (Z.of_nat (List.length (Vision.sampled 8 32 16))).
Proof.
  assert (Hw : 0 < 32) by lia. assert (Hh : 0 < 16) by lia.
  exact (proj1 (extractor_output_is_bounded
                  (Some (Vision.blockFrame 32 16 0 0 0 0 0 0))
                  (Vision.blockFrame 32 16 8 0 8 8 0 255) 32 16 Hw Hh)).
Defined.

(** X8.  The history of the extractor is exactly one frame deep: over
    any series of frames of positive size, starting with no history,
    the first vector is (0, 0, 0) and every later one is what the
    frame gives against the frame just before it, whatever happened
    earlier; and a previous frame whose buffer has another length
    (the resolution changed) gives (0, 0, 0) as well.  Both texts. *)
Theorem extractor_history_is_one_frame_deep
        (first : Vision.Frame) (rest : list Vision.Frame) (width height : Z) :
  0 < width -> 0 < height ->
  Motion.extract Vision.Mirrored.detectMotion None (first :: rest) width height
  = Vision.zeroVector
    :: map (fun p => fst (Vision.Mirrored.detectMotion (Some (fst p)) (snd p) width height))
           (Motion.pairs first rest) /\
  Motion.extract Vision.Plain.detectMotion None (first :: rest) width height
  = Vision.zeroVector
    :: map (fun p => fst (Vision.Plain.detectMotion (Some (fst p)) (snd p) width height))
           (Motion.pairs first rest) /\
  (forall prev data,
      List.length prev <> List.length data ->
      fst (Vision.Mirrored.detectMotion (Some prev) data width height) = Vision.zeroVector /\
      fst (Vision.Plain.detectMotion (Some prev) data width height) = Vision.zeroVector).
Proof.
  intros Hw Hh.
  assert (M : forall prevFrame data,
             snd (Vision.Mirrored.detectMotion prevFrame data width height) = Some data).
  { intros p d. apply (MotionFacts.mirrored_cases p d width height Hw Hh). }
  assert (P : forall prevFrame data,
             snd (Vision.Plain.detectMotion prevFrame data width height) = Some data).
  { intros p d. apply (MotionFacts.plain_cases p d width height Hw Hh). }
  assert (Z0 : forall stride ratio, 0 < stride -> (0 < ratio)%Q ->
             Qlt_bool (inject_Z 0) (Vision.motionThreshold stride ratio width height) = true).
  { intros stride ratio Hs Hr. apply NumFacts.Qlt_bool_iff.
    apply VisionFacts.motionThreshold_pos; assumption. }
  split; [| split].
  - cbn [Motion.extract]. rewrite M. f_equal.
    + unfold Vision.Mirrored.detectMotion. cbn [Vision.scan Vision.changeCount].
      rewrite Z0 by reflexivity. reflexivity.
    + clear Z0. revert first. induction rest as [| next more IH]; intros first; [reflexivity |].
      cbn [Motion.extract Motion.pairs map fst snd]. rewrite M. f_equal. apply IH.
  - cbn [Motion.extract]. rewrite P. f_equal.
    + unfold Vision.Plain.detectMotion. cbn [Vision.scan Vision.changeCount].
      rewrite Z0 by reflexivity. reflexivity.
    + clear Z0. revert first. induction rest as [| next more IH]; intros first; [reflexivity |].
      cbn [Motion.extract Motion.pairs map fst snd]. rewrite P. f_equal. apply IH.
  - intros prev data Hl. apply Nat.eqb_neq in Hl.
    unfold Vision.Mirrored.detectMotion, Vision.Plain.detectMotion, Vision.scan.
    rewrite Hl. cbn [Vision.changeCount]. rewrite !Z0 by reflexivity.
    split; reflexivity.
Qed.

Lemma extractor_history_is_one_frame_deep_witness :
  Motion.extract Vision.Mirrored.detectMotion None
    [Vision.blockFrame 32 16 0 0 0 0 0 0;
     Vision.blockFrame 32 16 0 0 8 8 0 255;
     Vision.blockFrame 32 16 0 0 8 8 0 255] 32 16
  = [Vision.zeroVector; mkMotion (Num 1) (Num (-1)) 1; Vision.zeroVector].
Proof.
  assert (Hw : 0 < 32) by lia. assert (Hh : 0 < 16) by lia.
  rewrite (proj1 (extractor_history_is_one_frame_deep
                    (Vision.blockFrame 32 16 0 0 0 0 0 0)
                    [Vision.blockFrame 32 16 0 0 8 8 0 255;
                     Vision.blockFrame 32 16 0 0 8 8 0 255] 32 16 Hw Hh)).
  vm_compute. reflexivity.
Defined.

(** X9.  Sensor noise is rejected: when no colour channel of any
    pixel differs from the previous frame by more than 25 (lines
    79-157) or 40 (lines 1-78), the extractor returns (0, 0, 0),
    however many pixels flicker. *)
Theorem extractor_ignores_small_differences
        (prev data : Vision.Frame) (width height : Z) :
  0 < width -> 0 < height ->
  (Motion.quiet 25 prev data ->
   fst (Vision.Mirrored.detectMotion (Some prev) data width height) = Vision.zeroVector) /\
  (Motion.quiet 40 prev data ->
   fst (Vision.Plain.detectMotion (Some prev) data width height) = Vision.zeroVector).
Proof.
  intros Hw Hh.
  assert (Z0 : forall stride ratio, 0 < stride -> (0 < ratio)%Q ->
             Qlt_bool (inject_Z 0) (Vision.motionThreshold stride ratio width height) = true).
  { intros stride ratio Hs Hr. apply NumFacts.Qlt_bool_iff.
    apply VisionFacts.motionThreshold_pos; assumption. }
  split; intros Hq.
  - unfold Vision.Mirrored.detectMotion.
    change 25%Q with (inject_Z 25).
    rewrite (MotionFacts.scan_quiet Vision.Mirrored.stride 25 (Some prev) data width height)
      by (intros p E; inversion E; subst; exact Hq).
    cbn [Vision.changeCount]. rewrite Z0 by reflexivity. reflexivity.
  - unfold Vision.Plain.detectMotion.
    change 40%Q with (inject_Z 40).
    rewrite (MotionFacts.scan_quiet Vision.Plain.stride 40 (Some prev) data width height)
      by (intros p E; inversion E; subst; exact Hq).
    cbn [Vision.changeCount]. rewrite Z0 by reflexivity. reflexivity.
Qed.

(** A one-pixel frame whose grey level moves from 10 to 30. *)
Lemma extractor_ignores_small_differences_witness :
  fst (Vision.Mirrored.detectMotion (Some [10; 10; 10; 255]) [30; 30; 30; 255] 1 1)
  = Vision.zeroVector.
Proof.
  assert (Hw : 0 < 1) by lia.
  apply (proj1 (extractor_ignores_small_differences
                  [10; 10; 10; 255] [30; 30; 30; 255] 1 1 Hw Hw)).
  intros i. unfold Vision.byte.
  destruct (Z.to_nat i) as [| [| [| [| n]]]]; cbn [nth]; try lia;
    destruct n; cbn; lia.
Defined.

(** X10.  Once the threshold is reached on a frame of positive size,
    the vector points to the side of the frame on which the changed
    pixels lie.  In the text of lines 79-157: x > 0 when they are all
    left of the center column and x < 0 when all right of it (the
    mirror), y < 0 when all above the center row and y > 0 when all
    below it.  The text of lines 1-78 agrees on y and has the signs
    of x the other way round. *)
Theorem vector_points_to_the_motion
        (prev data : Vision.Frame) (width height xlo xhi ylo yhi : Z) :
  0 < width -> 0 < height ->
  (Motion.changedWithin 8 25 prev data width height xlo xhi ylo yhi ->
   (Vision.motionThreshold 8 (1 # 1000) width height
    <= inject_Z (Vision.changeCount (Vision.scan 8 25 (Some prev) data width height)))%Q ->
   exists qx qy n,
     fst (Vision.Mirrored.detectMotion (Some prev) data width height)
     = mkMotion (Num qx) (Num qy) n /\
     (2 * xhi < width -> (0 < qx)%Q) /\ (width < 2 * xlo -> (qx < 0)%Q) /\
     (2 * yhi < height -> (qy < 0)%Q) /\ (height < 2 * ylo -> (0 < qy)%Q)) /\
  (Motion.changedWithin 4 40 prev data width height xlo xhi ylo yhi ->
   (Vision.motionThreshold 4 (5 # 1000) width height
    <= inject_Z (Vision.changeCount (Vision.scan 4 40 (Some prev) data width height)))%Q ->
   exists qx qy n,
     fst (Vision.Plain.detectMotion (Some prev) data width height)
     = mkMotion (Num qx) (Num qy) n /\
     (2 * xhi < width -> (qx < 0)%Q) /\ (width < 2 * xlo -> (0 < qx)%Q) /\
     (2 * yhi < height -> (qy < 0)%Q) /\ (height < 2 * ylo -> (0 < qy)%Q)).
Proof.
  intros Hw Hh.
  assert (W : (0 < inject_Z width)%Q).
  { change 0%Q with (inject_Z 0). rewrite <- Zlt_Qlt. exact Hw. }
  assert (H : (0 < inject_Z height)%Q).
  { change 0%Q with (inject_Z 0). rewrite <- Zlt_Qlt. exact Hh. }
  assert (half : forall a b : Z, 2 * a < b -> (inject_Z a < inject_Z b / 2)%Q).
  { intros a b L. apply Qlt_shift_div_l; [reflexivity |].
    change 2%Q with (inject_Z 2). rewrite <- inject_Z_mult, <- Zlt_Qlt. lia. }
  assert (half' : forall a b : Z, b < 2 * a -> (inject_Z b / 2 < inject_Z a)%Q).
  { intros a b L. apply Qlt_shift_div_r; [reflexivity |].
    change 2%Q with (inject_Z 2). rewrite <- inject_Z_mult, <- Zlt_Qlt. lia. }
  split; intros Hbox Hthr.
  - destruct (MotionFacts.mirrored_cases (Some prev) data width height Hw Hh)
      as [_ [[Hlt _] | (_ & C & E)]];
      [change Vision.Mirrored.stride with 8 in Hlt; lra |].
    pose proof (MotionFacts.scan_box 8 25 prev data width height xlo xhi ylo yhi Hbox)
      as (_ & Bx & By).
    change Vision.Mirrored.stride with 8 in *.
    set (t := Vision.scan 8 25 (Some prev) data width height) in *.
    destruct (MotionFacts.quotient_in_box xlo xhi _ _ C Bx) as [X1 X2].
    destruct (MotionFacts.quotient_in_box ylo yhi _ _ C By) as [Y1 Y2].
    pose proof (VisionFacts.half_width_pos width (5 # 10) Hw eq_refl) as Cx.
    pose proof (VisionFacts.half_width_pos height (5 # 10) Hh eq_refl) as Cy.
    eexists _, _, _. split; [exact E |]. unfold Vision.centroidX.
    repeat split; intros L.
    + apply NumFacts.clamp_pos. apply Qlt_shift_div_l; [exact Cx |].
      pose proof (half _ _ L). lra.
    + apply NumFacts.clamp_neg. apply Qlt_shift_div_r; [exact Cx |].
      pose proof (half' _ _ L). lra.
    + apply NumFacts.clamp_neg. apply Qlt_shift_div_r; [exact Cy |].
      pose proof (half _ _ L). lra.
    + apply NumFacts.clamp_pos. apply Qlt_shift_div_l; [exact Cy |].
      pose proof (half' _ _ L). lra.
  - destruct (MotionFacts.plain_cases (Some prev) data width height Hw Hh)
      as [_ [[Hlt _] | (_ & C & E)]];
      [change Vision.Plain.stride with 4 in Hlt; lra |].
    pose proof (MotionFacts.scan_box 4 40 prev data width height xlo xhi ylo yhi Hbox)
      as (_ & Bx & By).
    change Vision.Plain.stride with 4 in *.
    set (t := Vision.scan 4 40 (Some prev) data width height) in *.
    destruct (MotionFacts.quotient_in_box xlo xhi _ _ C Bx) as [X1 X2].
    destruct (MotionFacts.quotient_in_box ylo yhi _ _ C By) as [Y1 Y2].
    pose proof (VisionFacts.half_width_pos width (6 # 10) Hw eq_refl) as Cx.
    pose proof (VisionFacts.half_width_pos height (6 # 10) Hh eq_refl) as Cy.
    eexists _, _, _. split; [exact E |]. unfold Vision.centroidX.
    repeat split; intros L.
    + apply NumFacts.clamp_neg. apply Qlt_shift_div_r; [exact Cx |].
      pose proof (half _ _ L). lra.
    + apply NumFacts.clamp_pos. apply Qlt_shift_div_l; [exact Cx |].
      pose proof (half' _ _ L). lra.
    + apply NumFacts.clamp_neg. apply Qlt_shift_div_r; [exact Cy |].
      pose proof (half _ _ L). lra.
    + apply NumFacts.clamp_pos. apply Qlt_shift_div_l; [exact Cy |].
      pose proof (half' _ _ L). lra.
Qed.

(** A white block in the top left corner of a black 32 by 16 frame:
    x is positive and y negative in the mirrored text. *)
Lemma vector_points_to_the_motion_witness :
  exists qx qy n,
    fst (Vision.Mirrored.detectMotion
           (Some (Vision.blockFrame 32 16 0 0 0 0 0 0))
           (Vision.blockFrame 32 16 0 0 8 8 0 255) 32 16)
    = mkMotion (Num qx) (Num qy) n /\ (0 < qx)%Q /\ (qy < 0)%Q.
Proof.
  assert (Hw : 0 < 32) by lia. assert (Hh : 0 < 16) by lia.
  assert (B : Motion.changedWithin 8 25 (Vision.blockFrame 32 16 0 0 0 0 0 0)
                (Vision.blockFrame 32 16 0 0 8 8 0 255) 32 16 0 7 0 7).
  { intros p Hp Hc. vm_compute in Hp.
    repeat (destruct Hp as [<- | Hp]; [vm_compute in Hc; try discriminate Hc;
                                        cbn [fst snd]; lia |]).
    destruct Hp. }
  assert (T : (Vision.motionThreshold 8 (1 # 1000) 32 16
               <= inject_Z (Vision.changeCount
                              (Vision.scan 8 25 (Some (Vision.blockFrame 32 16 0 0 0 0 0 0))
                                 (Vision.blockFrame 32 16 0 0 8 8 0 255) 32 16)))%Q).
  { vm_compute. intros E. discriminate E. }
  destruct (proj1 (vector_points_to_the_motion _ _ 32 16 0 7 0 7 Hw Hh) B T)
    as (qx & qy & n & E & X1 & _ & Y1 & _).
  exists qx, qy, n. split; [exact E |]. split; [apply X1; lia | apply Y1; lia].
Defined.

(* ================================================================= *)
(** ** Extractor, smoothing and dead zone together *)

Module SteeringFacts.

Import Arbiter NumFacts Motion.

(** The smoothed value is a number between the old one and the raw
    one: it stays in [-1, 1]. *)
Lemma smooth_range a q :
  (-1 <= a <= 1)%Q -> (-1 <= q <= 1)%Q ->
  exists b, smooth (Num a) (Num q) = Num b /\ (-1 <= b <= 1)%Q /\
            (b == a * (8 # 10) + q * (2 # 10))%Q.
Proof.
  intros Ha Hq. eexists. split; [reflexivity |]. split; [lra | reflexivity].
Qed.

Lemma Qabs_bound q r : (- r <= q <= r)%Q -> (Qabs q <= r)%Q.
Proof. intros H. apply Qabs_Qle_condition. exact H. Qed.

(** Inside the dead zone on both axes nothing is steered. *)
Lemma steer_dead_zone T a b d :
  (Qabs a <= T)%Q -> (Qabs b <= T)%Q ->
  steer T (Num a) (Num b) d = d /\ steerCandidate T (Num a) (Num b) d = d.
Proof.
  intros Ha Hb. unfold steer, steerCandidate.
  rewrite (ArbiterFacts.within_dead_zone T a Ha), (ArbiterFacts.within_dead_zone T b Hb).
  destruct (gtb (abs (Num a)) (abs (Num b))); split; reflexivity.
Qed.

Section Component.

Variable innerWidth : Z.
Variable detect :
  option Vision.Frame -> Vision.Frame -> Z -> Z -> MotionVector * option Vision.Frame.

(** What is asked of the extractor: on the 320 by 240 canvas it
    returns numbers in [-1, 1]. *)
Hypothesis detect_range :
  forall prevFrame data,
  exists most, Motion.inRange (fst (detect prevFrame data 320 240)) most.

Lemma sense_bounded data (w : SnakeGame.World) :
  bounded (SnakeGame.smoothedVector (SnakeGame.refs w)) ->
  bounded (SnakeGame.smoothedVector (SnakeGame.refs (SnakeGame.sense detect data w))).
Proof.
  intros (a & b & E & Ha & Hb). unfold SnakeGame.sense.
  destruct (detect_range (SnakeGame.prevFrame w) data)
    as (most & qx & qy & Ex & Ey & Hx & Hy & _).
  destruct (detect (SnakeGame.prevFrame w) data 320 240) as [raw prev'].
  cbn [fst] in Ex, Ey. cbn [SnakeGame.refs SnakeGame.smoothedVector].
  rewrite E, Ex, Ey. cbn [fst snd].
  eexists _, _. split; [reflexivity |]. split; lra.
Qed.

Lemma updateSnake_smoothed now windowWidth rx ry (w : SnakeGame.World) :
  SnakeGame.smoothedVector (SnakeGame.refs (SnakeGame.updateSnake innerWidth now windowWidth rx ry w))
  = SnakeGame.smoothedVector (SnakeGame.refs w).
Proof.
  unfold SnakeGame.updateSnake.
  destruct (SnakeGame.snake (SnakeGame.refs w)); [reflexivity |]. cbv zeta.
  destruct (Grid.wallCollision innerWidth _); [reflexivity |].
  destruct (Grid.selfCollision _ _); [reflexivity |].
  destruct (Position_eqb _ _); reflexivity.
Qed.

Lemma tick_bounded t (w : SnakeGame.World) :
  bounded (SnakeGame.smoothedVector (SnakeGame.refs w)) ->
  bounded (SnakeGame.smoothedVector
             (SnakeGame.refs (SnakeGame.tick innerWidth detect t w))).
Proof.
  intros H. unfold SnakeGame.tick, SnakeGame.loop. cbv zeta.
  destruct (negb _); [exact H |].
  assert (K : bounded (SnakeGame.smoothedVector
                         (SnakeGame.refs (SnakeGame.perceive detect (Grid.image t) w)))).
  { unfold SnakeGame.perceive. destruct (Grid.image t); [apply sense_bounded, H | exact H]. }
  destruct (SnakeGame.due _ _); [| exact K].
  unfold SnakeGame.setLastUpdate, SnakeGame.withRefs.
  cbn [SnakeGame.refs SnakeGame.smoothedVector].
  rewrite updateSnake_smoothed. exact K.
Qed.

Lemma play_bounded ticks (w : SnakeGame.World) :
  bounded (SnakeGame.smoothedVector (SnakeGame.refs w)) ->
  bounded (SnakeGame.smoothedVector
             (SnakeGame.refs (SnakeGame.play innerWidth detect ticks w))).
Proof.
  revert w. induction ticks as [| t ticks IH]; intros w H; [exact H |].
  change (SnakeGame.play innerWidth detect (t :: ticks) w)
    with (SnakeGame.play innerWidth detect ticks (SnakeGame.tick innerWidth detect t w)).
  apply IH, tick_bounded, H.
Qed.

Lemma sense_bounded_ref data (w : SnakeGameRef.World) :
  bounded (SnakeGameRef.smoothedVector (SnakeGameRef.refs w)) ->
  bounded (SnakeGameRef.smoothedVector
             (SnakeGameRef.refs (SnakeGameRef.sense detect data w))).
Proof.
  intros (a & b & E & Ha & Hb). unfold SnakeGameRef.sense.
  destruct (detect_range (SnakeGameRef.prevFrame w) data)
    as (most & qx & qy & Ex & Ey & Hx & Hy & _).
  destruct (detect (SnakeGameRef.prevFrame w) data 320 240) as [raw prev'].
  cbn [fst] in Ex, Ey. cbn [SnakeGameRef.refs SnakeGameRef.smoothedVector].
  rewrite E, Ex, Ey. cbn [fst snd].
  eexists _, _. split; [reflexivity |]. split; lra.
Qed.

Lemma updateSnake_smoothed_ref now windowWidth rx ry (w : SnakeGameRef.World) :
  SnakeGameRef.smoothedVector
    (SnakeGameRef.refs (SnakeGameRef.updateSnake innerWidth now windowWidth rx ry w))
  = SnakeGameRef.smoothedVector (SnakeGameRef.refs w).
Proof.
  unfold SnakeGameRef.updateSnake.
  destruct (SnakeGameRef.snake (SnakeGameRef.refs w)); [reflexivity |]. cbv zeta.
  destruct (Grid.wallCollision innerWidth _); [reflexivity |].
  destruct (Grid.selfCollision _ _); [reflexivity |].
  destruct (Position_eqb _ _); reflexivity.
Qed.

Lemma tick_bounded_ref t (w : SnakeGameRef.World) :
  bounded (SnakeGameRef.smoothedVector (SnakeGameRef.refs w)) ->
  bounded (SnakeGameRef.smoothedVector
             (SnakeGameRef.refs (SnakeGameRef.tick innerWidth detect t w))).
Proof.
  intros H. unfold SnakeGameRef.tick, SnakeGameRef.loop. cbv zeta.
  destruct (negb _); [exact H |].
  assert (K : bounded (SnakeGameRef.smoothedVector
                         (SnakeGameRef.refs
                            (SnakeGameRef.perceive detect (Grid.image t) w)))).
  { unfold SnakeGameRef.perceive.
    destruct (Grid.image t); [apply sense_bounded_ref, H | exact H]. }
  destruct (SnakeGameRef.due _ _); [| exact K].
  unfold SnakeGameRef.setLastUpdate, SnakeGameRef.withRefs.
  cbn [SnakeGameRef.refs SnakeGameRef.smoothedVector].
  rewrite updateSnake_smoothed_ref. exact K.
Qed.

Lemma play_bounded_ref ticks (w : SnakeGameRef.World) :
  bounded (SnakeGameRef.smoothedVector (SnakeGameRef.refs w)) ->
  bounded (SnakeGameRef.smoothedVector
             (SnakeGameRef.refs (SnakeGameRef.play innerWidth detect ticks w))).
Proof.
  revert w. induction ticks as [| t ticks IH]; intros w H; [exact H |].
  change (SnakeGameRef.play innerWidth detect (t :: ticks) w)
    with (SnakeGameRef.play innerWidth detect ticks (SnakeGameRef.tick innerWidth detect t w)).
  apply IH, tick_bounded_ref, H.
Qed.

(** The first frame after a reset of the smoothed vector. *)
Lemma first_sense data (w : SnakeGame.World) :
  SnakeGame.smoothedVector (SnakeGame.refs w) = (Num 0, Num 0) ->
  SnakeGame.direction (SnakeGame.refs (SnakeGame.sense detect data w))
  = SnakeGame.direction (SnakeGame.refs w).
Proof.
  intros E. unfold SnakeGame.sense.
  destruct (detect_range (SnakeGame.prevFrame w) data)
    as (most & qx & qy & Ex & Ey & Hx & Hy & _).
  destruct (detect (SnakeGame.prevFrame w) data 320 240) as [raw prev'].
  cbn [fst] in Ex, Ey. cbn [SnakeGame.refs SnakeGame.direction].
  rewrite E, Ex, Ey. cbn [fst snd smooth mul add].
  apply steer_dead_zone; apply Qabs_bound; unfold SnakeGame.THRESHOLD; lra.
Qed.

Lemma first_sense_ref data (w : SnakeGameRef.World) :
  SnakeGameRef.smoothedVector (SnakeGameRef.refs w) = (Num 0, Num 0) ->
  SnakeGameRef.direction (SnakeGameRef.refs (SnakeGameRef.sense detect data w))
  = SnakeGameRef.direction (SnakeGameRef.refs w).
Proof.
  intros E. unfold SnakeGameRef.sense.
  destruct (detect_range (SnakeGameRef.prevFrame w) data)
    as (most & qx & qy & Ex & Ey & Hx & Hy & _).
  destruct (detect (SnakeGameRef.prevFrame w) data 320 240) as [raw prev'].
  cbn [fst] in Ex, Ey. cbn [SnakeGameRef.refs SnakeGameRef.direction].
  rewrite E, Ex, Ey. cbn [fst snd smooth mul add].
  apply steer_dead_zone; apply Qabs_bound; unfold SnakeGameRef.THRESHOLD; lra.
Qed.

End Component.

Lemma mirrored_range prevFrame data :
  exists most,
    Motion.inRange (fst (Vision.Mirrored.detectMotion prevFrame data 320 240)) most.
Proof. eexists. apply MotionFacts.mirrored_inRange; lia. Qed.

Lemma plain_range prevFrame data :
  exists most,
    Motion.inRange (fst (Vision.Plain.detectMotion prevFrame data 320 240)) most.
Proof. eexists. apply MotionFacts.plain_inRange; lia. Qed.

End SteeringFacts.

(** X11.  One frame cannot turn the snake after a reset.  With the
    smoothed vector at (0, 0), as [startGame] leaves it, the first
    frame moves it by a fifth of the raw vector, at most 0.2 on each
    axis, which is inside the dead zone (0.3, and 0.2 as well): the
    direction stays RIGHT whatever the camera shows, with either text
    of [detectMotion] and in both component texts. *)
Theorem first_frame_cannot_turn (innerWidth : Z) (rx ry : Q) (data : Vision.Frame) :
  (forall T qx qy d,
      (2 # 10 <= T)%Q -> (-1 <= qx <= 1)%Q -> (-1 <= qy <= 1)%Q ->
      Arbiter.steer T (Arbiter.smooth (Num 0) (Num qx))
                      (Arbiter.smooth (Num 0) (Num qy)) d = d) /\
  (forall (w : SnakeGame.World),
      Grid.blank (SnakeGame.playerName (SnakeGame.hooks w)) = false ->
      let w0 := SnakeGame.startGame innerWidth true rx ry w in
      SnakeGame.direction
        (SnakeGame.refs (SnakeGame.sense Vision.Mirrored.detectMotion data w0)) = RIGHT /\
      SnakeGame.direction
        (SnakeGame.refs (SnakeGame.sense Vision.Plain.detectMotion data w0)) = RIGHT) /\
  (forall (w : SnakeGameRef.World),
      let w0 := SnakeGameRef.startGame innerWidth rx ry w in
      SnakeGameRef.direction
        (SnakeGameRef.refs (SnakeGameRef.sense Vision.Mirrored.detectMotion data w0)) = RIGHT /\
      SnakeGameRef.direction
        (SnakeGameRef.refs (SnakeGameRef.sense Vision.Plain.detectMotion data w0)) = RIGHT).
Proof.
  split; [| split].
  - intros T qx qy d HT Hx Hy. cbn [Arbiter.smooth mul add].
    apply SteeringFacts.steer_dead_zone; apply SteeringFacts.Qabs_bound; lra.
  - intros w Hname w0.
    assert (E : SnakeGame.smoothedVector (SnakeGame.refs w0) = (Num 0, Num 0) /\
                SnakeGame.direction (SnakeGame.refs w0) = RIGHT).
    { subst w0. unfold SnakeGame.startGame. rewrite Hname. split; reflexivity. }
    destruct E as [E D].
    split; rewrite <- D; apply SteeringFacts.first_sense; try exact E.
    + exact SteeringFacts.mirrored_range.
    + exact SteeringFacts.plain_range.
  - intros w w0.
    assert (E : SnakeGameRef.smoothedVector (SnakeGameRef.refs w0) = (Num 0, Num 0))
      by reflexivity.
    assert (D : SnakeGameRef.direction (SnakeGameRef.refs w0) = RIGHT) by reflexivity.
    split; rewrite <- D; apply SteeringFacts.first_sense_ref; try exact E.
    + exact SteeringFacts.mirrored_range.
    + exact SteeringFacts.plain_range.
Qed.

(** A raw vector of (-1, 1) on the first frame, dead zone 0.3,
    heading RIGHT. *)
Lemma first_frame_cannot_turn_witness :
  Arbiter.steer (3 # 10) (Arbiter.smooth (Num 0) (Num (-1)))
                (Arbiter.smooth (Num 0) (Num 1)) RIGHT = RIGHT.
Proof.
  assert (HT : (2 # 10 <= 3 # 10)%Q) by (unfold Qle; simpl; lia).
  assert (Hx : (-1 <= -1 <= 1)%Q) by (split; unfold Qle; simpl; lia).
  assert (Hy : (-1 <= 1 <= 1)%Q) by (split; unfold Qle; simpl; lia).
  exact (proj1 (first_frame_cannot_turn 1024 0 0 []) (3 # 10) (-1)%Q 1%Q RIGHT HT Hx Hy).
Defined.

(** X12.  Through any series of animation frames of a run, with
    either text of [detectMotion], both components of the smoothed
    vector are numbers (never NaN) in [-1, 1]. *)
Theorem smoothed_vector_stays_in_range (innerWidth : Z) (rx ry : Q)
        (ticks : list Grid.Tick) :
  (forall (w : SnakeGame.World),
      Grid.blank (SnakeGame.playerName (SnakeGame.hooks w)) = false ->
      let w0 := SnakeGame.startGame innerWidth true rx ry w in
      Motion.bounded (SnakeGame.smoothedVector
         (SnakeGame.refs (SnakeGame.play innerWidth Vision.Mirrored.detectMotion ticks w0))) /\
      Motion.bounded (SnakeGame.smoothedVector
         (SnakeGame.refs (SnakeGame.play innerWidth Vision.Plain.detectMotion ticks w0)))) /\
  (forall (w : SnakeGameRef.World),
      let w0 := SnakeGameRef.startGame innerWidth rx ry w in
      Motion.bounded (SnakeGameRef.smoothedVector
         (SnakeGameRef.refs
            (SnakeGameRef.play innerWidth Vision.Mirrored.detectMotion ticks w0))) /\
      Motion.bounded (SnakeGameRef.smoothedVector
         (SnakeGameRef.refs
            (SnakeGameRef.play innerWidth Vision.Plain.detectMotion ticks w0)))).
Proof.
  assert (Z0 : Motion.bounded (Num 0, Num 0)).
  { exists 0%Q, 0%Q. split; [reflexivity |]. split; lra. }
  split.
  - intros w Hname w0.
    assert (E : SnakeGame.smoothedVector (SnakeGame.refs w0) = (Num 0, Num 0)).
    { subst w0. unfold SnakeGame.startGame. rewrite Hname. reflexivity. }
    split; apply SteeringFacts.play_bounded; try (rewrite E; exact Z0).
    + exact SteeringFacts.mirrored_range.
    + exact SteeringFacts.plain_range.
  - intros w w0.
    split; apply SteeringFacts.play_bounded_ref; try exact Z0.
    + exact SteeringFacts.mirrored_range.
    + exact SteeringFacts.plain_range.
Qed.

Lemma smoothed_vector_stays_in_range_witness :
  Motion.bounded (SnakeGame.smoothedVector
     (SnakeGame.refs (SnakeGame.play 1024 Vision.Mirrored.detectMotion sampleTicks sampleStart))).
Proof.
  exact (proj1 (proj1 (smoothed_vector_stays_in_range 1024 (38 # 100) (1 # 2) sampleTicks)
                      (SnakeGame.initialWorld "Ada" None) eq_refl)).
Defined.

(* ================================================================= *)
(** ** Food out of reach *)

Module FoodFacts.

Section Food.

Variable innerWidth : Z.
Variable detect :
  option Vision.Frame -> Vision.Frame -> Z -> Z -> MotionVector * option Vision.Frame.

Lemma eats_outside (w : SnakeGame.World) :
  ~ Grid.inside innerWidth (SnakeGame.food (SnakeGame.refs w)) ->
  SnakeGame.eats innerWidth w = false.
Proof.
  intros H. unfold SnakeGame.eats.
  destruct (SnakeGame.snake (SnakeGame.refs w)) as [| first rest]; [reflexivity |].
  cbv zeta.
  destruct (Position_eqb _ _) eqn:E; [| apply andb_false_r].
  apply GridFacts.Position_eqb_eq in E. rewrite E.
  apply GridFacts.wallCollision_outside in H. rewrite H. reflexivity.
Qed.

Lemma updateSnake_outside now windowWidth rx ry (w : SnakeGame.World) :
  ~ Grid.inside innerWidth (SnakeGame.food (SnakeGame.refs w)) ->
  SnakeGame.food (SnakeGame.refs (SnakeGame.updateSnake innerWidth now windowWidth rx ry w))
  = SnakeGame.food (SnakeGame.refs w).
Proof.
  intros H. pose proof (eats_outside w H) as E.
  unfold SnakeGame.eats in E. unfold SnakeGame.updateSnake.
  destruct (SnakeGame.snake (SnakeGame.refs w)) as [| first rest]; [reflexivity |].
  cbv zeta in *.
  destruct (Grid.wallCollision innerWidth _); [reflexivity |].
  destruct (Grid.selfCollision _ _); [reflexivity |].
  cbn [negb andb] in E. rewrite E. reflexivity.
Qed.

Lemma tick_outside t (w : SnakeGame.World) :
  ~ Grid.inside innerWidth (SnakeGame.food (SnakeGame.refs w)) ->
  SnakeGame.food (SnakeGame.refs (SnakeGame.tick innerWidth detect t w))
  = SnakeGame.food (SnakeGame.refs w) /\
  SnakeGame.tickEats innerWidth detect t w = false.
Proof.
  intros H. unfold SnakeGame.tick, SnakeGame.tickEats, SnakeGame.loop. cbv zeta.
  destruct (GameState_eqb _ _); cbn [negb andb]; [| split; reflexivity].
  destruct (PaceFacts.perceive_keeps_all detect (Grid.image t) w) as (_ & F & _).
  assert (H' : ~ Grid.inside innerWidth
                 (SnakeGame.food (SnakeGame.refs
                    (SnakeGame.perceive detect (Grid.image t) w))))
    by (rewrite F; exact H).
  rewrite (eats_outside _ H'), andb_false_r.
  split; [| reflexivity].
  destruct (SnakeGame.due _ _); [| exact F].
  unfold SnakeGame.setLastUpdate, SnakeGame.withRefs.
  cbn [SnakeGame.refs SnakeGame.food].
  rewrite (updateSnake_outside _ _ _ _ _ H'). exact F.
Qed.

Lemma play_outside ticks (w : SnakeGame.World) :
  ~ Grid.inside innerWidth (SnakeGame.food (SnakeGame.refs w)) ->
  SnakeGame.food (SnakeGame.refs (SnakeGame.play innerWidth detect ticks w))
  = SnakeGame.food (SnakeGame.refs w) /\
  SnakeGame.eaten innerWidth detect ticks w = 0.
Proof.
  revert w. induction ticks as [| t ticks IH]; intros w H; [split; reflexivity |].
  change (SnakeGame.play innerWidth detect (t :: ticks) w)
    with (SnakeGame.play innerWidth detect ticks (SnakeGame.tick innerWidth detect t w)).
  cbn [SnakeGame.eaten].
  destruct (tick_outside t w H) as [F E]. rewrite E.
  assert (H' : ~ Grid.inside innerWidth
                 (SnakeGame.food (SnakeGame.refs (SnakeGame.tick innerWidth detect t w))))
    by (rewrite F; exact H).
  destruct (IH _ H') as [F' E']. rewrite F', E', F. split; reflexivity.
Qed.

End Food.

End FoodFacts.

(** X13.  [spawnFood] of [SnakeGame.tsx] sizes its draw with the test
    [innerWidth < 600] while the grid is sized with [innerWidth < 640].
    On a window 600 to 639 pixels wide the grid has 15 columns but
    the food column is drawn among 30: every draw of 0.5 or more puts
    the food outside the grid.  Food outside the grid is never eaten
    (the wall test comes first): over any series of frames it stays
    where it is, nothing is eaten and the score does not change. *)
Theorem food_outside_the_grid_is_never_eaten (innerWidth : Z) :
  (600 <= innerWidth < 640 ->
   forall rx ry, (1 # 2 <= rx)%Q ->
                 Grid.COLS innerWidth = 15 /\
                 15 <= px (SnakeGame.spawnFood innerWidth rx ry) /\
                 ~ Grid.inside innerWidth (SnakeGame.spawnFood innerWidth rx ry)) /\
  (forall detect ticks (w : SnakeGame.World),
      ~ Grid.inside innerWidth (SnakeGame.food (SnakeGame.refs w)) ->
      let w' := SnakeGame.play innerWidth detect ticks w in
      SnakeGame.food (SnakeGame.refs w') = SnakeGame.food (SnakeGame.refs w) /\
      SnakeGame.eaten innerWidth detect ticks w = 0 /\
      SnakeGame.score (SnakeGame.hooks w') = SnakeGame.score (SnakeGame.hooks w) /\
      List.length (SnakeGame.snake (SnakeGame.refs w'))
      = List.length (SnakeGame.snake (SnakeGame.refs w))).
Proof.
  split.
  - intros Hw rx ry Hr.
    assert (C : Grid.COLS innerWidth = 15).
    { unfold Grid.COLS. destruct (innerWidth <? 640) eqn:E; [reflexivity |].
      apply Z.ltb_ge in E. lia. }
    assert (P : 15 <= px (SnakeGame.spawnFood innerWidth rx ry)).
    { unfold SnakeGame.spawnFood. cbn [px].
      destruct (innerWidth <? 600) eqn:E; [apply Z.ltb_lt in E; lia |].
      rewrite <- (Qfloor_Z 15). apply Qfloor_resp_le.
      change (inject_Z 30) with 30%Q. change (inject_Z 15) with 15%Q. lra. }
    split; [exact C |]. split; [exact P |].
    unfold Grid.inside. rewrite C. lia.
  - intros detect ticks w H w'.
    destruct (FoodFacts.play_outside innerWidth detect ticks w H) as [F E].
    destruct (SnakeGameFacts.play_counts innerWidth detect ticks w) as [L S].
    fold w' in F, L, S. rewrite E in L, S.
    split; [exact F |]. split; [exact E |]. split; [lia | lia].
Qed.

(** Window 620 pixels wide, draws 0.9 and 0.5: the food lands at
    (27, 10), outside the 15 by 15 grid. *)
Lemma food_outside_the_grid_is_never_eaten_witness :
  15 <= px (SnakeGame.spawnFood 620 (9 # 10) (1 # 2)) /\
  ~ Grid.inside 620 (SnakeGame.spawnFood 620 (9 # 10) (1 # 2)).
Proof.
  assert (Hw : 600 <= 620 < 640) by lia.
  assert (Hr : (1 # 2 <= 9 # 10)%Q) by (unfold Qle; simpl; lia).
  exact (proj2 (proj1 (food_outside_the_grid_is_never_eaten 620) Hw (9 # 10) (1 # 2) Hr)).
Defined.

(* ================================================================= *)
(** ** Who gets onto the leaderboard *)

Module AdmissionFacts.

Import Leaderboard LeaderboardFacts.

Lemma descending_strongly l : descending l -> StronglySorted above l.
Proof.
  intros H. apply Sorted_StronglySorted; [| exact H].
  intros a b c. apply above_trans.
Qed.

(** An entry that beats the last one is placed somewhere before it. *)
Lemma insert_before_last e l z :
  score z < score e -> insert e (l ++ [z]) = insert e l ++ [z].
Proof.
  intros H. induction l as [| h t IH]; cbn [insert app].
  - destruct (score e <=? score z) eqn:E; [apply Z.leb_le in E; lia | reflexivity].
  - destruct (score e <=? score h); [rewrite IH |]; reflexivity.
Qed.

Lemma split_last (l : list ScoreEntry) d :
  l <> [] -> l = removelast l ++ [last l d].
Proof. intros H. apply app_removelast_last, H. Qed.

Lemma length_removelast_10 (l : list ScoreEntry) :
  List.length l = 10%nat -> List.length (removelast l) = 9%nat.
Proof.
  intros H. destruct l as [| a l]; [discriminate |].
  rewrite GridFacts.length_removelast_cons. cbn [List.length] in H. lia.
Qed.

Lemma last_is_least l d :
  StronglySorted above l -> forall e, In e l -> score (last l d) <= score e.
Proof.
  induction 1 as [| h t Ht IH Hh]; intros e He; [destruct He |].
  destruct t as [| b t].
  - destruct He as [<- | []]. cbn. lia.
  - change (last (h :: b :: t) d) with (last (b :: t) d).
    destruct He as [<- | He]; [| apply IH, He].
    rewrite Forall_forall in Hh.
    apply (Hh (last (b :: t) d)). apply GridFacts.last_In_nonempty. discriminate.
Qed.

Lemma firstn_exact {A} (l r : list A) n :
  List.length l = n -> firstn n (l ++ r) = l.
Proof.
  revert n. induction l as [| a l IH]; intros n H; subst n; [reflexivity |].
  cbn [List.length app]. rewrite firstn_cons. f_equal. apply IH. reflexivity.
Qed.

End AdmissionFacts.

(** X14.  What one save does to a leaderboard that is in descending
    order (as every stored one is).  With fewer than 10 entries the
    new entry is always recorded, behind all entries of the same or a
    higher score.  With 10 entries a score that does not beat the
    last entry, a tie included, leaves the leaderboard as it was: the
    run is not recorded.  A score that beats the last entry is
    recorded at its rank and the last entry is dropped. *)
Theorem leaderboard_admission
        (fallback : string) (lb : list ScoreEntry)
        (playerName : string) (finalScore now : Z) :
  Leaderboard.descending lb ->
  let entry := mkEntry (Leaderboard.orElse playerName fallback) finalScore now in
  let stored := Leaderboard.saveScore fallback lb playerName finalScore now in
  ((List.length lb < 10)%nat ->
   stored = Leaderboard.insert entry lb /\
   In entry stored /\ List.length stored = S (List.length lb) /\
   ((forall e, In e lb -> finalScore <= score e) -> stored = lb ++ [entry])) /\
  (List.length lb = 10%nat -> finalScore <= score (last lb entry) -> stored = lb) /\
  (List.length lb = 10%nat -> score (last lb entry) < finalScore ->
   stored = Leaderboard.insert entry (removelast lb) /\
   In entry stored /\ List.length stored = 10%nat).
Proof.
  intros Hd entry stored.
  pose proof (AdmissionFacts.descending_strongly lb Hd) as Hs.
  assert (E : stored = firstn 10 (Leaderboard.insert entry lb)).
  { subst stored. rewrite LeaderboardFacts.saveScore_insert.
    rewrite (LeaderboardFacts.sort_sorted lb Hs). reflexivity. }
  split; [| split].
  - intros Hl.
    assert (F : stored = Leaderboard.insert entry lb).
    { rewrite E. apply firstn_all2. rewrite LeaderboardFacts.insert_length. lia. }
    split; [exact F |]. rewrite F.
    split; [apply LeaderboardFacts.in_insert; left; reflexivity |].
    split; [apply LeaderboardFacts.insert_length |].
    intros Hall. apply LeaderboardFacts.insert_last.
    apply Forall_forall. intros e He. unfold Leaderboard.above. cbn [score].
    apply Hall, He.
  - intros Hl Hle. rewrite E.
    rewrite LeaderboardFacts.insert_last.
    + apply AdmissionFacts.firstn_exact, Hl.
    + apply Forall_forall. intros e He. unfold Leaderboard.above. cbn [score].
      pose proof (AdmissionFacts.last_is_least lb entry Hs e He).
      change (score entry) with finalScore. lia.
  - intros Hl Hlt.
    assert (Hne : lb <> []) by (intros N; rewrite N in Hl; discriminate).
    assert (F : stored = Leaderboard.insert entry (removelast lb)).
    { rewrite E. rewrite (AdmissionFacts.split_last lb entry Hne) at 1.
      rewrite AdmissionFacts.insert_before_last by exact Hlt.
      apply AdmissionFacts.firstn_exact.
      rewrite LeaderboardFacts.insert_length,
        (AdmissionFacts.length_removelast_10 lb Hl). reflexivity. }
    split; [exact F |]. rewrite F.
    split; [apply LeaderboardFacts.in_insert; left; reflexivity |].
    rewrite LeaderboardFacts.insert_length,
      (AdmissionFacts.length_removelast_10 lb Hl). reflexivity.
Qed.

(** A full board with the scores 10 down to 1: a run that ends with
    score 1 is not recorded. *)
Lemma leaderboard_admission_witness :
  let lb := map (fun k => mkEntry "P" k (1000 + k)) [10; 9; 8; 7; 6; 5; 4; 3; 2; 1] in
  Leaderboard.saveScore "Unknown Pilot" lb "Ada" 1 2000 = lb.
Proof.
  intros lb.
  assert (Hd : Leaderboard.descending lb).
  { subst lb. cbn [map]. unfold Leaderboard.descending.
    repeat (constructor; [| try constructor; unfold Leaderboard.above; cbn [score]; lia]).
    constructor. }
  apply (proj1 (proj2 (leaderboard_admission "Unknown Pilot" lb "Ada" 1 2000 Hd)));
    [reflexivity |].
  cbn. lia.
Defined.

(* ================================================================= *)
(** ** Audio samples: 16-bit PCM and back *)

Module AudioFacts.

Import Audio NumFacts.

Lemma signed16_range u : 0 <= u < 65536 -> -32768 <= signed16 u <= 32767.
Proof.
  intros H. unfold signed16. destruct (32768 <=? u) eqn:E;
    [apply Z.leb_le in E | apply Z.leb_gt in E]; lia.
Qed.

Lemma toInt16_range z : -32768 <= toInt16 z <= 32767.
Proof. apply signed16_range, Z.mod_pos_bound. lia. Qed.

Lemma toInt16_small z : -32768 <= z <= 32767 -> toInt16 z = z.
Proof.
  intros H. unfold toInt16, signed16.
  destruct (Z_lt_le_dec z 0) as [N | P].
  - assert (E : z mod 65536 = z + 65536).
    { symmetry. apply (Z.mod_unique z 65536 (-1)); lia. }
    rewrite E. destruct (32768 <=? z + 65536) eqn:L;
      [lia | apply Z.leb_gt in L; lia].
  - rewrite Z.mod_small by lia.
    destruct (32768 <=? z) eqn:L; [apply Z.leb_le in L; lia | reflexivity].
Qed.

(** Reading back the two bytes of a value gives its 16-bit reading. *)
Lemma int16s_bytes value rest :
  int16s (int16Bytes value ++ rest) = toInt16 value :: int16s rest.
Proof.
  unfold int16Bytes. cbn [app int16s]. f_equal. unfold toInt16. f_equal.
  pose proof (Z.div_mod (value mod 65536) 256). lia.
Qed.

Lemma int16Bytes_range value : Forall (fun b => 0 <= b <= 255) (int16Bytes value).
Proof.
  unfold int16Bytes.
  pose proof (Z.mod_pos_bound value 65536).
  pose proof (Z.mod_pos_bound (value mod 65536) 256).
  assert (0 <= (value mod 65536) / 256 < 256).
  { split; [apply Z.div_pos; lia | apply Z.div_lt_upper_bound; lia]. }
  repeat constructor; lia.
Qed.

Lemma truncate_nonneg q :
  (0 <= q)%Q -> (inject_Z (truncate q) <= q)%Q /\ (q < inject_Z (truncate q) + 1)%Q.
Proof.
  intros H. unfold truncate. apply Qle_bool_iff in H. rewrite H.
  split; [apply Qfloor_le |].
  rewrite <- (inject_Z_plus _ 1). apply Qlt_floor.
Qed.

Lemma truncate_neg q :
  (q < 0)%Q -> (q <= inject_Z (truncate q))%Q /\ (inject_Z (truncate q) - 1 < q)%Q.
Proof.
  intros H. unfold truncate.
  destruct (Qle_bool 0 q) eqn:E; [apply Qle_bool_iff in E; lra |].
  split; [apply Qle_ceiling |].
  pose proof (Qceiling_lt q) as L.
  change (Qceiling q - 1) with (Qceiling q + (-1)) in L.
  rewrite inject_Z_plus in L.
  change (inject_Z (-1)) with (-1)%Q in L. lra.
Qed.

Lemma truncate_mono a b : (a <= b)%Q -> truncate a <= truncate b.
Proof.
  intros H.
  destruct (Qlt_le_dec a 0) as [Na | Pa], (Qlt_le_dec b 0) as [Nb | Pb].
  - unfold truncate.
    destruct (Qle_bool 0 a) eqn:Ea; [apply Qle_bool_iff in Ea; lra |].
    destruct (Qle_bool 0 b) eqn:Eb; [apply Qle_bool_iff in Eb; lra |].
    apply Qceiling_resp_le, H.
  - assert (A : truncate a <= 0).
    { unfold truncate.
      destruct (Qle_bool 0 a) eqn:Ea; [apply Qle_bool_iff in Ea; lra |].
      change (Qceiling a <= Qceiling 0). apply Qceiling_resp_le. lra. }
    assert (B : 0 <= truncate b).
    { unfold truncate. apply Qle_bool_iff in Pb. rewrite Pb.
      change (Qfloor 0 <= Qfloor b). apply Qfloor_resp_le. apply Qle_bool_iff, Pb. }
    lia.
  - lra.
  - unfold truncate. apply Qle_bool_iff in Pa. rewrite Pa.
    assert (Pb' : Qle_bool 0 b = true) by (apply Qle_bool_iff; lra).
    rewrite Pb'. apply Qfloor_resp_le, H.
Qed.

Lemma scale_cases s :
  ((s < 0)%Q /\ scale s = (s * 32768)%Q) \/ ((0 <= s)%Q /\ scale s = (s * 32767)%Q).
Proof.
  unfold scale. destruct (Qlt_bool s 0) eqn:E.
  - left. split; [apply Qlt_bool_iff, E | reflexivity].
  - right. split; [apply Qlt_bool_false, E | reflexivity].
Qed.

Lemma scale_mono a b : (a <= b)%Q -> (scale a <= scale b)%Q.
Proof.
  intros H.
  destruct (scale_cases a) as [[Na ->] | [Pa ->]],
           (scale_cases b) as [[Nb ->] | [Pb ->]]; lra.
Qed.

(** The integer stored for a clamped sample needs no wrapping. *)
Lemma stored_range s :
  (-1 <= s <= 1)%Q -> -32768 <= truncate (scale s) <= 32767.
Proof.
  intros [L U]. destruct (scale_cases s) as [[N E] | [P E]]; rewrite E.
  - destruct (truncate_neg (s * 32768)) as [A B]; [lra |].
    split.
    + rewrite Zle_Qle. change (inject_Z (-32768)) with (-32768)%Q. lra.
    + assert (T : truncate (s * 32768) <= truncate 0) by (apply truncate_mono; lra).
      change (truncate 0) with 0 in T. lia.
  - destruct (truncate_nonneg (s * 32767)) as [A B]; [lra |].
    split.
    + assert (T : truncate 0 <= truncate (s * 32767)) by (apply truncate_mono; lra).
      change (truncate 0) with 0 in T. lia.
    + rewrite Zle_Qle. change (inject_Z 32767) with 32767%Q. lra.
Qed.

Lemma pcmValue_Fin q : pcmValue (Fin q) = truncate (scale (clamp q)).
Proof.
  unfold pcmValue. cbn [clampSample]. apply toInt16_small, stored_range, clamp_range.
Qed.

Lemma pcmValue_range v : -32768 <= pcmValue v <= 32767.
Proof.
  unfold pcmValue. destruct (clampSample v); [apply toInt16_range | lia].
Qed.

Lemma int16s_pcm samples : int16s (floatTo16BitPCM samples) = map pcmValue samples.
Proof.
  induction samples as [| v l IH]; [reflexivity |].
  unfold floatTo16BitPCM in *. cbn [flat_map map].
  rewrite int16s_bytes, IH. f_equal. apply toInt16_small, pcmValue_range.
Qed.

Lemma length_pcm samples :
  List.length (floatTo16BitPCM samples) = (2 * List.length samples)%nat.
Proof.
  induction samples as [| v l IH]; [reflexivity |].
  unfold floatTo16BitPCM in *. cbn [flat_map]. rewrite length_app, IH.
  cbn [int16Bytes List.length]. lia.
Qed.

Lemma nth_all {A B} (f : A -> B) (l : list A) d :
  map (fun i => f (nth (i * 1 + 0) l d)) (seq 0 (List.length l)) = map f l.
Proof.
  set (g := fun i => f (nth (i * 1 + 0) l d)).
  apply (nth_ext _ _ (g 0%nat) (f d)).
  - rewrite !length_map, length_seq. reflexivity.
  - intros n Hn. rewrite length_map, length_seq in Hn.
    rewrite (map_nth g), (map_nth f), seq_nth by exact Hn.
    unfold g. do 2 f_equal. lia.
Qed.

(** What a sample comes back as after encoding and decoding. *)
Lemma quantised_close q :
  (-1 <= q <= 1)%Q ->
  let back := (inject_Z (pcmValue (Fin q)) / 32768)%Q in
  (Qabs (back - q) < (1 # 16384))%Q.
Proof.
  intros H back. subst back. rewrite pcmValue_Fin.
  assert (C : (clamp q == q)%Q).
  { destruct (Qlt_le_dec q 1) as [L | G].
    - rewrite clamp_inside; [reflexivity | lra | exact L].
    - rewrite clamp_sat_hi by exact G. lra. }
  unfold Qdiv. change (/ 32768)%Q with (1 # 32768)%Q.
  apply Qabs_Qlt_condition.
  destruct (scale_cases (clamp q)) as [[N E] | [P E]]; rewrite E.
  - destruct (truncate_neg (clamp q * 32768)) as [A B]; [lra |]. lra.
  - destruct (truncate_nonneg (clamp q * 32767)) as [A B]; [lra |]. lra.
Qed.

End AudioFacts.

(** X15.  [floatTo16BitPCM] writes two bytes per sample, each a byte,
    and read back as little-endian signed 16-bit integers they are
    the values stored for the samples.  The value stored for a finite
    sample is the sample clamped to [-1, 1], scaled and cut towards
    zero, with no wrap in the conversion to 16 bits: for a sample [q]
    between -1 and 1 it is the integer part of [q * 32768] when [q]
    is negative and of [q * 32767] otherwise.  The infinities are
    stored as 32767 and -32768, NaN as 0. *)
Theorem pcm_stream_holds_one_int16_per_sample (samples : list Audio.float) :
  List.length (Audio.floatTo16BitPCM samples) = (2 * List.length samples)%nat /\
  Forall (fun b => 0 <= b <= 255) (Audio.floatTo16BitPCM samples) /\
  Audio.int16s (Audio.floatTo16BitPCM samples) = map Audio.pcmValue samples /\
  (forall q, Audio.pcmValue (Audio.Fin q) = Audio.truncate (Audio.scale (clamp q))) /\
  (forall q, (-1 <= q <= 1)%Q ->
             Audio.pcmValue (Audio.Fin q)
             = if Qlt_bool q 0 then Qceiling (q * 32768) else Qfloor (q * 32767)) /\
  Audio.pcmValue Audio.PosInf = 32767 /\
  Audio.pcmValue Audio.NegInf = -32768 /\
  Audio.pcmValue Audio.NotANumber = 0.
Proof.
  split; [apply AudioFacts.length_pcm |].
  split.
  { induction samples as [| v l IH]; [constructor |].
    unfold Audio.floatTo16BitPCM in *. cbn [flat_map].
    apply Forall_app. split; [apply AudioFacts.int16Bytes_range | exact IH]. }
  split; [apply AudioFacts.int16s_pcm |].
  split; [exact AudioFacts.pcmValue_Fin |].
  split; [| repeat split].
  intros q [L U]. rewrite AudioFacts.pcmValue_Fin.
  destruct (Qlt_le_dec q 1) as [I | S].
  - rewrite NumFacts.clamp_inside by assumption.
    unfold Audio.scale, Audio.truncate.
    destruct (Qlt_bool q 0) eqn:N.
    + apply NumFacts.Qlt_bool_iff in N.
      assert (F : Qle_bool 0 (q * 32768) = false).
      { destruct (Qle_bool 0 (q * 32768)) eqn:E; [| reflexivity].
        apply Qle_bool_iff in E. lra. }
      rewrite F. reflexivity.
    + apply NumFacts.Qlt_bool_false in N.
      assert (T : Qle_bool 0 (q * 32767) = true) by (apply Qle_bool_iff; lra).
      rewrite T. reflexivity.
  - rewrite (NumFacts.clamp_sat_hi _ S).
    assert (N : Qlt_bool q 0 = false) by (apply NumFacts.Qlt_bool_false; lra).
    rewrite N. change (Audio.truncate (Audio.scale 1)) with (Qfloor (1 * 32767)).
    apply Qfloor_comp. lra.
Qed.

(** Half of full scale is stored as 16383, minus a third as -10922. *)
Lemma pcm_stream_holds_one_int16_per_sample_witness :
  Audio.pcmValue (Audio.Fin (1 # 2)) = Qfloor ((1 # 2) * 32767) /\
  Audio.pcmValue (Audio.Fin (- 1 # 3)) = Qceiling ((- 1 # 3) * 32768).
Proof.
  destruct (pcm_stream_holds_one_int16_per_sample []) as (_ & _ & _ & _ & H & _).
  split.
  - apply (H (1 # 2)). split; unfold Qle; simpl; lia.
  - apply (H (- 1 # 3)). split; unfold Qle; simpl; lia.
Defined.

(** X16.  The encoding keeps the order of samples: a larger sample
    never gets a smaller integer.  Samples at or above 1 all get
    32767 and samples at or below -1 all get -32768. *)
Theorem pcm_encoding_is_monotone_and_saturates (a b : Q) (H : (a <= b)%Q) :
  Audio.pcmValue (Audio.Fin a) <= Audio.pcmValue (Audio.Fin b) /\
  ((1 <= a)%Q -> Audio.pcmValue (Audio.Fin a) = 32767) /\
  ((b <= -1)%Q -> Audio.pcmValue (Audio.Fin b) = -32768).
Proof.
  rewrite !AudioFacts.pcmValue_Fin. split; [| split].
  - apply AudioFacts.truncate_mono, AudioFacts.scale_mono, NumFacts.clamp_mono, H.
  - intros G. rewrite (NumFacts.clamp_sat_hi _ G). reflexivity.
  - intros L. destruct (Qlt_le_dec b (-1)) as [S | E].
    + rewrite (NumFacts.clamp_sat_lo _ S). reflexivity.
    + rewrite NumFacts.clamp_inside by lra.
      assert (Q : (b == -1)%Q) by lra.
      destruct (AudioFacts.scale_cases b) as [[N ->] | [P _]]; [| lra].
      destruct (AudioFacts.truncate_neg (b * 32768)) as [A B]; [lra |].
      assert (Lo : (inject_Z (-32768) <= inject_Z (Audio.truncate (b * 32768)))%Q).
      { change (inject_Z (-32768)) with (-32768)%Q. lra. }
      assert (Hi : (inject_Z (Audio.truncate (b * 32768)) < inject_Z (-32767))%Q).
      { change (inject_Z (-32767)) with (-32767)%Q. lra. }
      rewrite <- Zle_Qle in Lo. rewrite <- Zlt_Qlt in Hi. lia.
Qed.

Lemma pcm_encoding_is_monotone_and_saturates_witness :
  Audio.pcmValue (Audio.Fin (3 # 2)) <= Audio.pcmValue (Audio.Fin 2) /\
  ((1 <= 3 # 2)%Q -> Audio.pcmValue (Audio.Fin (3 # 2)) = 32767) /\
  ((2 <= -1)%Q -> Audio.pcmValue (Audio.Fin 2) = -32768).
Proof.
  apply (pcm_encoding_is_monotone_and_saturates (3 # 2) 2).
  unfold Qle. vm_compute. intros E. discriminate E.
Defined.

(* ================================================================= *)
(** ** Decoding, playback and data URLs *)

Module DecodeFacts.

Import Audio LiveService.

Lemma int16s_range data :
  Forall (fun b => 0 <= b <= 255) data ->
  Forall (fun v => -32768 <= v <= 32767) (int16s data).
Proof.
  revert data. fix IH 1. intros [| lo [| hi rest]] H; cbn [int16s]; try constructor.
  - inversion H as [| ? ? Hlo H1]; subst. inversion H1 as [| ? ? Hhi H2]; subst.
    apply AudioFacts.signed16_range. lia.
  - apply IH. inversion H as [| ? ? _ H1]; subst. inversion H1; subst. assumption.
Qed.

Lemma length_int16s data : (2 * List.length (int16s data) <= List.length data)%nat.
Proof.
  revert data. fix IH 1. intros [| lo [| hi rest]]; cbn [int16s List.length]; try lia.
  specialize (IH rest). lia.
Qed.

Lemma length_int16s_even data :
  Nat.even (List.length data) = true ->
  List.length data = (2 * List.length (int16s data))%nat.
Proof.
  revert data. fix IH 1. intros [| lo [| hi rest]]; cbn [int16s List.length Nat.even];
    intros E; try lia; try discriminate E.
  specialize (IH rest E). lia.
Qed.

(** What is known of a buffer that [decodeAudioData] returned. *)
Lemma decode_some supportedRate data rate n b :
  decodeAudioData supportedRate data rate n = Some b ->
  Nat.even (List.length (buffer data)) = true /\ 1 <= n <= 32 /\
  supportedRate rate = true /\
  sampleRate b = rate /\
  frames b = Z.to_nat (Z.of_nat (List.length (int16s (buffer data))) / n) /\
  frames b <> 0%nat /\
  channels b =
    map (fun channel =>
           map (fun i => (inject_Z (nth (i * Z.to_nat n + channel)%nat
                                        (int16s (buffer data)) 0%Z)
                          / 32768)%Q)
               (seq 0 (frames b)))
        (seq 0 (Z.to_nat n)).
Proof.
  unfold decodeAudioData.
  destruct (Nat.even (List.length (buffer data))); cbn [negb]; [| discriminate].
  destruct (n <? 1) eqn:E1; cbn [orb]; [discriminate |].
  destruct (32 <? n) eqn:E2; [discriminate |].
  apply Z.ltb_ge in E1, E2.
  destruct (Z.to_nat (Z.of_nat (List.length (int16s (buffer data))) / n) =? 0)%nat eqn:E3;
    [discriminate |].
  apply Nat.eqb_neq in E3.
  destruct (supportedRate rate); cbn [negb]; [| discriminate].
  intros [= <-]. cbn [sampleRate frames channels]. repeat split; auto; lia.
Qed.

Lemma duration_positive supportedRate data n b :
  decodeAudioData supportedRate data 24000 n = Some b -> (0 < duration b)%Q.
Proof.
  intros H. destruct (decode_some _ _ _ _ _ H) as (_ & _ & _ & R & _ & F & _).
  unfold duration. rewrite R. unfold Qdiv.
  change (/ inject_Z 24000)%Q with (1 # 24000)%Q.
  assert (0 < inject_Z (Z.of_nat (frames b)))%Q.
  { change 0%Q with (inject_Z 0). rewrite <- Zlt_Qlt. lia. }
  lra.
Qed.

Lemma Math_max_left a b : (a <= Math_max a b)%Q.
Proof.
  unfold Math_max. destruct (Qle_bool a b) eqn:E; [apply Qle_bool_iff, E | lra].
Qed.

Lemma Math_max_right a b : (b <= Math_max a b)%Q.
Proof.
  unfold Math_max. destruct (Qle_bool a b) eqn:E; [lra |].
  destruct (Qlt_le_dec b a) as [L | G]; [lra |].
  apply Qle_bool_iff in G. congruence.
Qed.

(** The state of the playback queue between two calls. *)
Definition orderly (p : Playback) : Prop :=
  (0 <= nextStartTime p)%Q /\
  backToBack (scheduled p) /\
  Forall (fun e => (0 <= fst e)%Q /\ (0 < snd e)%Q /\
                   (fst e + snd e <= nextStartTime p)%Q) (scheduled p).

Lemma orderly_later p t :
  (nextStartTime p <= t)%Q -> orderly p -> orderly (mkPlayback t (scheduled p)).
Proof.
  intros L (N & B & F). repeat split; cbn [nextStartTime scheduled].
  - lra.
  - exact B.
  - eapply Forall_impl; [| exact F]. cbn beta. intros e (A & C & D).
    repeat split; lra.
Qed.

Lemma orderly_playAudio supportedRate atob base64 t p :
  orderly p -> orderly (playAudio supportedRate atob base64 t p).
Proof.
  intros O. unfold playAudio, decodeBase64.
  destruct (atob base64) as [bytes |]; [| exact O].
  set (audioData := Audio.whole bytes).
  pose proof (Math_max_left (nextStartTime p) t) as L.
  set (start := Math_max (nextStartTime p) t) in *.
  destruct (decodeAudioData supportedRate audioData 24000 1) as [b |] eqn:D.
  - apply duration_positive in D.
    destruct (orderly_later p start L O) as (N & B & F).
    cbn [nextStartTime scheduled] in N, B, F.
    destruct O as (N0 & _ & F0).
    repeat split; cbn [nextStartTime scheduled].
    + lra.
    + cbn [backToBack]. destruct (scheduled p) as [| e rest] eqn:S; [exact I |].
      split; [| exact B]. inversion F as [| ? ? (_ & _ & E) _]; subst. exact E.
    + constructor.
      * cbn [fst snd]. repeat split; lra.
      * eapply Forall_impl; [| exact F]. cbn beta. intros e (A & C & E).
        repeat split; lra.
  - apply orderly_later; assumption.
Qed.

Lemma orderly_playAll supportedRate atob messages p :
  orderly p -> orderly (playAll supportedRate atob messages p).
Proof.
  revert p. induction messages as [| m l IH]; intros p O; [exact O |].
  unfold playAll in *. cbn [fold_left]. apply IH, orderly_playAudio, O.
Qed.

Lemma splitComma_noComma s : noComma s = true -> splitComma s = [s].
Proof.
  induction s as [| c rest IH]; [reflexivity |].
  cbn [noComma splitComma]. intros H. apply andb_prop in H as [C R].
  apply negb_true_iff in C. rewrite C, (IH R). reflexivity.
Qed.

Lemma splitComma_header header rest :
  noComma header = true ->
  splitComma (header ++ String ","%char rest) = header :: splitComma rest.
Proof.
  induction header as [| c h IH]; [reflexivity |].
  cbn [noComma]. intros H. apply andb_prop in H as [C R].
  apply negb_true_iff in C.
  change (String c h ++ String "," rest)%string
    with (String c (h ++ String "," rest))%string.
  cbn [splitComma]. rewrite C, (IH R). reflexivity.
Qed.

End DecodeFacts.

(** X17.  Samples encoded by [floatTo16BitPCM] and decoded by
    [decodeAudioData] as one channel, through any [Uint8Array] on the
    buffer written, come back as a buffer of one frame per sample,
    each sample as its 16-bit value over 32768; a sample between -1
    and 1 comes back less than 1/16384 away from what it was. *)
Theorem encoded_samples_decode_back
  (supportedRate : Z -> bool) (samples : list Audio.float) (rate : Z)
  (data : Audio.Uint8Array)
  (Hd : Audio.buffer data = Audio.floatTo16BitPCM samples)
  (Hs : samples <> []) (Hr : supportedRate rate = true) :
  Audio.decodeAudioData supportedRate data rate 1 =
    Some (Audio.mkBuffer rate (List.length samples)
            [map (fun v => (inject_Z (Audio.pcmValue v) / 32768)%Q) samples]) /\
  forall q, In (Audio.Fin q) samples -> (-1 <= q <= 1)%Q ->
            (Qabs (inject_Z (Audio.pcmValue (Audio.Fin q)) / 32768 - q) < (1 # 16384))%Q.
Proof.
  split.
  - unfold Audio.decodeAudioData. rewrite Hd.
    rewrite AudioFacts.length_pcm, Nat.even_even, AudioFacts.int16s_pcm.
    cbn [negb Z.ltb Z.compare Pos.compare Pos.compare_cont orb].
    rewrite length_map, Z.div_1_r, Nat2Z.id.
    destruct (List.length samples =? 0)%nat eqn:E.
    + apply Nat.eqb_eq in E. destruct samples; [congruence | discriminate E].
    + rewrite Hr. cbn [negb]. do 2 f_equal.
      change (seq 0 (Z.to_nat 1)) with [0%nat]. cbn [map]. f_equal.
      rewrite <- (length_map Audio.pcmValue samples).
      rewrite (AudioFacts.nth_all (fun z => (inject_Z z / 32768)%Q)).
      apply map_map.
  - intros q _ H. apply AudioFacts.quantised_close, H.
Qed.

Lemma encoded_samples_decode_back_witness :
  Audio.decodeAudioData (fun r => (8000 <=? r) && (r <=? 96000))
    (Audio.whole (Audio.floatTo16BitPCM [Audio.Fin (1 # 2); Audio.Fin (-1 # 3)])) 24000 1 =
    Some (Audio.mkBuffer 24000 2
            [map (fun v => (inject_Z (Audio.pcmValue v) / 32768)%Q)
                 [Audio.Fin (1 # 2); Audio.Fin (-1 # 3)]]) /\
  forall q, In (Audio.Fin q) [Audio.Fin (1 # 2); Audio.Fin (-1 # 3)] ->
            (-1 <= q <= 1)%Q ->
            (Qabs (inject_Z (Audio.pcmValue (Audio.Fin q)) / 32768 - q) < (1 # 16384))%Q.
Proof.
  apply (encoded_samples_decode_back (fun r => (8000 <=? r) && (r <=? 96000))
           [Audio.Fin (1 # 2); Audio.Fin (-1 # 3)] 24000).
  - reflexivity.
  - discriminate.
  - reflexivity.
Defined.

(** X18.  [decodeAudioData] reads the whole buffer under the
    [Uint8Array] it is given: the offset and the length of the view
    play no part, and two views of one buffer decode alike.  It
    returns an audio buffer only when the buffer under the view has
    an even number of bytes, for at least one channel and a rate the
    context supports.  The audio buffer then has the requested rate,
    at least one frame, as many frames as whole groups of
    [numChannels] 16-bit values fit in the buffer under the view, one
    channel of that length per requested channel, and every value in
    it is at least -1 and below 1. *)
Theorem decoded_buffer_is_well_shaped
  (supportedRate : Z -> bool) (data : Audio.Uint8Array) (rate numChannels : Z)
  (b : Audio.AudioBuffer)
  (Hbytes : Forall (fun x => 0 <= x <= 255) (Audio.buffer data))
  (Hdec : Audio.decodeAudioData supportedRate data rate numChannels = Some b) :
  (forall other, Audio.buffer other = Audio.buffer data ->
                 Audio.decodeAudioData supportedRate other rate numChannels = Some b) /\
  Nat.even (List.length (Audio.buffer data)) = true /\
  1 <= numChannels /\
  supportedRate rate = true /\
  Audio.sampleRate b = rate /\
  (0 < Audio.frames b)%nat /\
  Z.of_nat (Audio.frames b)
  = Z.of_nat (List.length (Audio.buffer data)) / 2 / numChannels /\
  Z.of_nat (List.length (Audio.channels b)) = numChannels /\
  Forall (fun channel =>
            List.length channel = Audio.frames b /\
            Forall (fun v => (-1 <= v < 1)%Q) channel) (Audio.channels b).
Proof.
  destruct (DecodeFacts.decode_some _ _ _ _ _ Hdec) as (E & N & R & S & F & F0 & C).
  split.
  { intros other Ho. rewrite <- Hdec. unfold Audio.decodeAudioData. rewrite Ho.
    reflexivity. }
  repeat split; try assumption; try lia.
  - rewrite F, (DecodeFacts.length_int16s_even _ E).
    rewrite Z2Nat.id.
    + f_equal. rewrite Nat2Z.inj_mul. change (Z.of_nat 2) with 2.
      rewrite Z.mul_comm, Z.div_mul by lia. reflexivity.
    + apply Z.div_pos; lia.
  - rewrite C, length_map, length_seq. lia.
  - rewrite C. apply Forall_forall. intros channel In1.
    apply in_map_iff in In1 as (k & <- & _).
    split; [rewrite length_map, length_seq; reflexivity |].
    apply Forall_forall. intros v In2.
    apply in_map_iff in In2 as (i & <- & _).
    pose proof (DecodeFacts.int16s_range (Audio.buffer data) Hbytes) as Rg.
    set (idx := (i * Z.to_nat numChannels + k)%nat).
    assert (B : -32768 <= nth idx (Audio.int16s (Audio.buffer data)) 0 <= 32767).
    { destruct (Nat.lt_ge_cases idx (List.length (Audio.int16s (Audio.buffer data))))
        as [L | G].
      - rewrite Forall_forall in Rg. apply Rg, nth_In, L.
      - rewrite nth_overflow by exact G. lia. }
    destruct B as [Lo Hi].
    rewrite Zle_Qle in Lo. rewrite Zle_Qle in Hi.
    change (inject_Z (-32768)) with (-32768)%Q in Lo.
    change (inject_Z 32767) with 32767%Q in Hi.
    unfold Qdiv. change (/ 32768)%Q with (1 # 32768)%Q. lra.
Qed.

(** A view of two bytes, two bytes into a buffer of six: all six
    bytes are decoded, as three frames of one channel. *)
Lemma decoded_buffer_is_well_shaped_witness :
  let data := Audio.mkView [0; 128; 255; 127; 0; 64] 2 2 in
  let b := Audio.mkBuffer 24000 3
             [[(inject_Z (-32768) / 32768)%Q; (inject_Z 32767 / 32768)%Q;
               (inject_Z 16384 / 32768)%Q]] in
  Audio.elements data = [255; 127] /\
  Audio.decodeAudioData (fun r => (8000 <=? r) && (r <=? 96000)) data 24000 1 = Some b /\
  Audio.decodeAudioData (fun r => (8000 <=? r) && (r <=? 96000))
                        (Audio.whole [0; 128; 255; 127; 0; 64]) 24000 1 = Some b /\
  Z.of_nat (Audio.frames b) = Z.of_nat (List.length (Audio.buffer data)) / 2 / 1 /\
  Forall (fun channel =>
            List.length channel = Audio.frames b /\
            Forall (fun v => (-1 <= v < 1)%Q) channel) (Audio.channels b).
Proof.
  intros data b.
  assert (Hbytes : Forall (fun x => 0 <= x <= 255) (Audio.buffer data))
    by (repeat constructor; lia).
  assert (Hdec : Audio.decodeAudioData (fun r => (8000 <=? r) && (r <=? 96000))
                                       data 24000 1 = Some b) by reflexivity.
  destruct (decoded_buffer_is_well_shaped (fun r => (8000 <=? r) && (r <=? 96000))
              data 24000 1 b Hbytes Hdec) as (V & _ & _ & _ & _ & _ & F & _ & C).
  split; [reflexivity |]. split; [exact Hdec |].
  split; [apply V; reflexivity |]. split; [exact F | exact C].
Defined.

(** X19.  Whatever audio messages arrive and whenever, the buffers
    [playAudio] has started never overlap: each starts at or after
    the end of the one started before it, none starts at a negative
    time, each lasts a positive time, and [nextStartTime] is at or
    after the end of all of them. *)
Theorem playback_never_overlaps
  (supportedRate : Z -> bool) (atob : string -> option (list Z))
  (messages : list (string * Q)) :
  let p := LiveService.playAll supportedRate atob messages LiveService.initial in
  LiveService.backToBack (LiveService.scheduled p) /\
  Forall (fun e => (0 <= fst e)%Q /\ (0 < snd e)%Q /\
                   (fst e + snd e <= LiveService.nextStartTime p)%Q)
         (LiveService.scheduled p).
Proof.
  intros p.
  assert (O : DecodeFacts.orderly p).
  { apply DecodeFacts.orderly_playAll. repeat split; cbn; try lra. constructor. }
  destruct O as (_ & B & F). split; assumption.
Qed.

(** X20.  From a data URL whose header and payload hold no comma
    [blobToBase64] yields exactly the payload, also when more follows
    after a further comma; from a string without a comma it yields
    nothing. *)
Theorem data_url_payload_is_extracted (header payload : string)
  (Hh : Audio.noComma header = true) (Hp : Audio.noComma payload = true) :
  Audio.blobToBase64 (header ++ "," ++ payload) = Some payload /\
  (forall more, Audio.blobToBase64 (header ++ "," ++ payload ++ "," ++ more) = Some payload) /\
  Audio.blobToBase64 header = None.
Proof.
  unfold Audio.blobToBase64.
  change ("," ++ payload)%string with (String ","%char payload).
  rewrite (DecodeFacts.splitComma_header _ _ Hh), (DecodeFacts.splitComma_noComma _ Hp).
  split; [reflexivity |]. split.
  - intros more.
    change ("," ++ (payload ++ "," ++ more))%string
      with (String ","%char (payload ++ String ","%char more)).
    rewrite (DecodeFacts.splitComma_header _ _ Hh), (DecodeFacts.splitComma_header _ _ Hp).
    reflexivity.
  - rewrite (DecodeFacts.splitComma_noComma _ Hh). reflexivity.
Qed.

Lemma data_url_payload_is_extracted_witness :
  Audio.blobToBase64 ("data:image/jpeg;base64" ++ "," ++ "AAAA") = Some "AAAA"%string /\
  (forall more,
     Audio.blobToBase64 ("data:image/jpeg;base64" ++ "," ++ "AAAA" ++ "," ++ more)
     = Some "AAAA"%string) /\
  Audio.blobToBase64 "data:image/jpeg;base64" = None.
Proof.
  apply (data_url_payload_is_extracted "data:image/jpeg;base64" "AAAA");
    reflexivity.
Defined.

(* ================================================================= *)
(** ** Steering between two advances *)

Module TurnFacts.

Import Arbiter NumFacts ArbiterFacts.












Section Frames.

Variable innerWidth : Z.
Variable detect :
  option Vision.Frame -> Vision.Frame -> Z -> Z -> MotionVector * option Vision.Frame.





End Frames.

End TurnFacts.


(* ================================================================= *)
(** ** Camera frames that make the extractor report a sweep *)

Module SweepFacts.

Import Vision Motion NumFacts VisionFacts.
















End SweepFacts.

